(** * Nested-loop join executor of Peloton

    A shallow embedding of [src/executor/nested_loop_join_executor.cpp]:
    the two control loops [Old_DExecute] (materialising variant) and
    [DExecute] (correlated index-probe variant), the pairwise matcher they
    share, and the collaborators they call.  Executor state is threaded
    explicitly; places where the C++ dereferences a null pointer, indexes a
    vector out of range or down-casts to the wrong class are modelled by an
    explicit [Fault] outcome.  [PL_ASSERT] is the C [assert] and, as in a
    release build, is no part of the behaviour modelled; [size_t] values are
    natural numbers, the executor never taking them near their bound. *)

From Stdlib Require Import ZArith Lia.
From stdpp Require Import base option list.
From stdpp Require Import relations.

Set Default Proof Using "Type".

(** ** Values, tuples and logical tiles *)

(** Modelled from the spec: [common::Value] (not part of the sources) as
    far as the executor looks at it: a key value, the boolean result of a
    predicate, or SQL NULL (the "unknown" truth value of section 6). *)
Inductive Value :=
| VInt (z : Z)
| VBool (b : bool)
| VNull.

#[global] Instance Value_eq_dec : EqDecision Value.
Proof. solve_decision. Defined.

Definition IsFalse (v : Value) : bool :=
  match v with
  | VBool false => true
  | _ => false
  end.

Definition oid_t := nat.
Definition Tuple := list Value.

(** Modelled from the spec: a logical tile ([logical_tile.h] is not part
    of the sources), by section 6 ordered rows with a per-row visibility
    mask. *)
Definition LogicalTile := list (bool * Tuple).

Fixpoint visible_from (k : oid_t) (t : LogicalTile) : list oid_t :=
  match t with
  | [] => []
  | (v, _) :: t' =>
      if v then k :: visible_from (S k) t' else visible_from (S k) t'
  end.

(** Modelled from the spec: [for (auto row : *tile)] visits the ids of the
    visible rows, in order. *)
Definition tile_iter (t : LogicalTile) : list oid_t := visible_from 0 t.

(** Modelled from the spec: the row-value accessor
    [ContainerTuple<LogicalTile>(tile, row).GetValue(col)]; a position that
    does not exist reads as NULL. *)
Definition GetValue (t : LogicalTile) (row col : oid_t) : Value :=
  match t !! row with
  | Some (_, tup) => default VNull (tup !! col)
  | None => VNull
  end.

(** ** Expressions *)

Inductive ExpressionType :=
| EXPRESSION_TYPE_COMPARE_EQUAL
| EXPRESSION_TYPE_COMPARE_NOTEQUAL
| EXPRESSION_TYPE_COMPARE_LESSTHAN
| EXPRESSION_TYPE_COMPARE_GREATERTHAN.

(** Modelled from the spec: the expression tree ([abstract_expression.h],
    [tuple_value_expression.h]) is an external collaborator; the executor
    uses [GetLeft], the down-cast of the left operand to a tuple-value
    expression with its [GetColumnId], and the three-valued [Evaluate]. *)
Inductive AbstractExpression :=
| TupleValueExpression (tuple_idx : nat) (column_id : oid_t)
| ConstantValueExpression (v : Value)
| ComparisonExpression (ty : ExpressionType) (l r : AbstractExpression).

(** Modelled from the spec: [GetLeft()], a null pointer on a leaf. *)
Definition GetLeft (e : AbstractExpression) : option AbstractExpression :=
  match e with
  | ComparisonExpression _ l _ => Some l
  | _ => None
  end.

Definition compare_values (ty : ExpressionType) (a b : Value) : Value :=
  match a, b with
  | VInt x, VInt y =>
      VBool match ty with
            | EXPRESSION_TYPE_COMPARE_EQUAL => (x =? y)%Z
            | EXPRESSION_TYPE_COMPARE_NOTEQUAL => negb (x =? y)%Z
            | EXPRESSION_TYPE_COMPARE_LESSTHAN => (x <? y)%Z
            | EXPRESSION_TYPE_COMPARE_GREATERTHAN => (y <? x)%Z
            end
  | VBool x, VBool y =>
      match ty with
      | EXPRESSION_TYPE_COMPARE_EQUAL => VBool (eqb x y)
      | EXPRESSION_TYPE_COMPARE_NOTEQUAL => VBool (negb (eqb x y))
      | _ => VNull
      end
  | _, _ => VNull
  end.

(** Modelled from the spec: [predicate->Evaluate(&left_tuple, &right_tuple,
    context)], the three-valued evaluator of section 6: tuple index 0 reads
    the left container tuple, any other index the right one, and a
    comparison with a NULL operand is NULL. *)
Fixpoint Evaluate (e : AbstractExpression)
    (lt : LogicalTile) (lrow : oid_t) (rt : LogicalTile) (rrow : oid_t) : Value :=
  match e with
  | TupleValueExpression 0 c => GetValue lt lrow c
  | TupleValueExpression _ c => GetValue rt rrow c
  | ConstantValueExpression v => v
  | ComparisonExpression ty l r =>
      compare_values ty (Evaluate l lt lrow rt rrow) (Evaluate r lt lrow rt rrow)
  end.

(** ** Child executors *)

Inductive PlanNodeType :=
| PLAN_NODE_TYPE_SEQSCAN
| PLAN_NODE_TYPE_INDEXSCAN.

#[global] Instance PlanNodeType_eq_dec : EqDecision PlanNodeType.
Proof. solve_decision. Defined.

(** Modelled from the spec: the child operators ([abstract_executor.h],
    [index_scan_executor.h], [index_scan_plan.h]) are external; section 6
    gives their contract: [pull() -> batch | exhausted], and for a
    bound-pushable child [pushBound(columnId, value) -> bool] and
    [resetScanState()].  A sequential scan hands out its pending tiles one
    per pull.  An index scan runs the lookup for its current key bound on the
    first pull after construction or reset, then hands out the result tiles
    one per pull. *)
Record Executor := mkExecutor {
  plan_node_type : PlanNodeType;
  scan_pending : list LogicalTile;
  scan_started : bool;
  key_column : oid_t;
  key_value : Value;
  index_table : list (Value * list LogicalTile)
}.

Fixpoint index_lookup (tbl : list (Value * list LogicalTile)) (k : Value)
  : list LogicalTile :=
  match tbl with
  | [] => []
  | (k', ts) :: tbl' => if decide (k' = k) then ts else index_lookup tbl' k
  end.

(** The tiles the child will still produce if it is pulled to exhaustion. *)
Definition child_output (e : Executor) : list LogicalTile :=
  match plan_node_type e with
  | PLAN_NODE_TYPE_SEQSCAN => scan_pending e
  | PLAN_NODE_TYPE_INDEXSCAN =>
      if scan_started e then scan_pending e
      else index_lookup (index_table e) (key_value e)
  end.

(** Modelled from the spec: [child->Execute()], followed by
    [child->GetOutput()] on success; once exhausted the child stays so until
    it is reset. *)
Definition Execute (e : Executor) : option LogicalTile * Executor :=
  match child_output e with
  | [] =>
      (None,
       mkExecutor (plan_node_type e) [] true
                  (key_column e) (key_value e) (index_table e))
  | t :: ts =>
      (Some t,
       mkExecutor (plan_node_type e) ts true
                  (key_column e) (key_value e) (index_table e))
  end.

(** Modelled from the spec: [IndexScanPlan::ReplaceKeyValue(column, value)],
    the bound push: accepted when the column is the key column of the scan,
    rejected otherwise.  The new bound scopes the next lookup; it does not
    restart a lookup that has run. *)
Definition ReplaceKeyValue (col : oid_t) (v : Value) (e : Executor)
  : bool * Executor :=
  if decide (col = key_column e) then
    (true,
     mkExecutor (plan_node_type e) (scan_pending e) (scan_started e)
                (key_column e) v (index_table e))
  else (false, e).

(** Modelled from the spec: [IndexScanExecutor::ResetState()], forgetting
    the current lookup so that the next pull starts a fresh one. *)
Definition ResetState (e : Executor) : Executor :=
  mkExecutor (plan_node_type e) [] false
             (key_column e) (key_value e) (index_table e).

Definition seq_scan (tiles : list LogicalTile) : Executor :=
  mkExecutor PLAN_NODE_TYPE_SEQSCAN tiles false 0 VNull [].

Definition index_scan (col : oid_t) (tbl : list (Value * list LogicalTile))
  : Executor :=
  mkExecutor PLAN_NODE_TYPE_INDEXSCAN [] false col VNull tbl.

(** ** Executor state *)

Inductive JoinType :=
| JOIN_TYPE_INNER
| JOIN_TYPE_LEFT
| JOIN_TYPE_RIGHT
| JOIN_TYPE_OUTER.

(** One output row of the join: a (buffered tile index, row id) reference
    per side, [None] being the null-row marker of outer-join padding. *)
Definition JoinedRow : Type :=
  option (nat * oid_t) * option (nat * oid_t).

Definition OutputTile := list JoinedRow.

(** The position lists a [PositionListsBuilder] accumulates: entry [k] is
    the (left row id, right row id) of output row [k]. *)
Definition PositionLists := list (oid_t * oid_t).

(** The members of the executor object.  [children0]/[children1] stand for
    [children_[0]]/[children_[1]].  The last two fields are instrumentation,
    not members: [emitted_] collects every row handed to [SetOutput] and
    [eval_trace_] every (left tile, left row, right tile, right row) the
    pairwise matcher visits. *)
Record State := mkState {
  children0 : Executor;
  children1 : Executor;
  left_child_done_ : bool;
  right_child_done_ : bool;
  left_result_tiles_ : list LogicalTile;
  right_result_tiles_ : list LogicalTile;
  left_result_itr_ : nat;
  left_matched_ : list (list bool);
  right_matched_ : list (list bool);
  left_matching_idx_ : nat;
  right_matching_idx_ : nat;
  output_ : option OutputTile;
  emitted_ : list JoinedRow;
  eval_trace_ : list (nat * oid_t * nat * oid_t)
}.

(** The state [DInit] leaves behind. *)
Definition init_state (left right : Executor) : State :=
  mkState left right false false [] [] 0 [] [] 0 0 None [] [].

Definition set_children0 (e : Executor) (s : State) : State :=
  mkState e (children1 s) (left_child_done_ s) (right_child_done_ s)
    (left_result_tiles_ s) (right_result_tiles_ s) (left_result_itr_ s)
    (left_matched_ s) (right_matched_ s) (left_matching_idx_ s)
    (right_matching_idx_ s) (output_ s) (emitted_ s) (eval_trace_ s).

Definition set_children1 (e : Executor) (s : State) : State :=
  mkState (children0 s) e (left_child_done_ s) (right_child_done_ s)
    (left_result_tiles_ s) (right_result_tiles_ s) (left_result_itr_ s)
    (left_matched_ s) (right_matched_ s) (left_matching_idx_ s)
    (right_matching_idx_ s) (output_ s) (emitted_ s) (eval_trace_ s).

Definition set_left_child_done (b : bool) (s : State) : State :=
  mkState (children0 s) (children1 s) b (right_child_done_ s)
    (left_result_tiles_ s) (right_result_tiles_ s) (left_result_itr_ s)
    (left_matched_ s) (right_matched_ s) (left_matching_idx_ s)
    (right_matching_idx_ s) (output_ s) (emitted_ s) (eval_trace_ s).

Definition set_right_child_done (b : bool) (s : State) : State :=
  mkState (children0 s) (children1 s) (left_child_done_ s) b
    (left_result_tiles_ s) (right_result_tiles_ s) (left_result_itr_ s)
    (left_matched_ s) (right_matched_ s) (left_matching_idx_ s)
    (right_matching_idx_ s) (output_ s) (emitted_ s) (eval_trace_ s).

Definition set_left_result_itr (n : nat) (s : State) : State :=
  mkState (children0 s) (children1 s) (left_child_done_ s)
    (right_child_done_ s) (left_result_tiles_ s) (right_result_tiles_ s) n
    (left_matched_ s) (right_matched_ s) (left_matching_idx_ s)
    (right_matching_idx_ s) (output_ s) (emitted_ s) (eval_trace_ s).

Definition set_left_matching_idx (n : nat) (s : State) : State :=
  mkState (children0 s) (children1 s) (left_child_done_ s)
    (right_child_done_ s) (left_result_tiles_ s) (right_result_tiles_ s)
    (left_result_itr_ s) (left_matched_ s) (right_matched_ s) n
    (right_matching_idx_ s) (output_ s) (emitted_ s) (eval_trace_ s).

Definition set_right_matching_idx (n : nat) (s : State) : State :=
  mkState (children0 s) (children1 s) (left_child_done_ s)
    (right_child_done_ s) (left_result_tiles_ s) (right_result_tiles_ s)
    (left_result_itr_ s) (left_matched_ s) (right_matched_ s)
    (left_matching_idx_ s) n (output_ s) (emitted_ s) (eval_trace_ s).

(** Instrumentation only: note that the matcher visits a row pair. *)
Definition note_pair (lb : nat) (lrow : oid_t) (rb : nat) (rrow : oid_t)
    (s : State) : State :=
  mkState (children0 s) (children1 s) (left_child_done_ s)
    (right_child_done_ s) (left_result_tiles_ s) (right_result_tiles_ s)
    (left_result_itr_ s) (left_matched_ s) (right_matched_ s)
    (left_matching_idx_ s) (right_matching_idx_ s) (output_ s) (emitted_ s)
    (eval_trace_ s ++ [(lb, lrow, rb, rrow)]).

(** ** Collaborators inherited from the abstract join executor *)

(** Modelled from the spec: [BufferLeftTile] ([abstract_join_executor.cpp]
    is not part of the sources).  Section 3: the batch joins the ordered
    list of its side, and its match bitset, one bit per row and all unset,
    is created at that moment. *)
Definition BufferLeftTile (t : LogicalTile) (s : State) : State :=
  mkState (children0 s) (children1 s) (left_child_done_ s)
    (right_child_done_ s) (left_result_tiles_ s ++ [t])
    (right_result_tiles_ s) (left_result_itr_ s)
    (left_matched_ s ++ [replicate (length t) false]) (right_matched_ s)
    (left_matching_idx_ s) (right_matching_idx_ s) (output_ s) (emitted_ s)
    (eval_trace_ s).

(** Modelled from the spec: [BufferRightTile], as [BufferLeftTile]. *)
Definition BufferRightTile (t : LogicalTile) (s : State) : State :=
  mkState (children0 s) (children1 s) (left_child_done_ s)
    (right_child_done_ s) (left_result_tiles_ s)
    (right_result_tiles_ s ++ [t]) (left_result_itr_ s)
    (left_matched_ s) (right_matched_ s ++ [replicate (length t) false])
    (left_matching_idx_ s) (right_matching_idx_ s) (output_ s) (emitted_ s)
    (eval_trace_ s).

(** Modelled from the spec: the match bitsets of section 3, one per
    buffered batch.  Setting bit [row] of the bitset of batch [batch]; a
    batch or row that does not exist leaves the bitsets as they are. *)
Definition mark_matched (batch : nat) (row : oid_t) (m : list (list bool))
  : list (list bool) :=
  alter (λ bits, <[row := true]> bits) batch m.

(** Modelled from the spec: [RecordMatchedLeftRow(batchIndex, rowIndex)],
    section 4.3: sets the bit of that row in the left bitset. *)
Definition RecordMatchedLeftRow (batch : nat) (row : oid_t) (s : State)
  : State :=
  mkState (children0 s) (children1 s) (left_child_done_ s)
    (right_child_done_ s) (left_result_tiles_ s) (right_result_tiles_ s)
    (left_result_itr_ s) (mark_matched batch row (left_matched_ s))
    (right_matched_ s) (left_matching_idx_ s) (right_matching_idx_ s)
    (output_ s) (emitted_ s) (eval_trace_ s).

(** Modelled from the spec: [RecordMatchedRightRow(batchIndex, rowIndex)],
    section 4.3. *)
Definition RecordMatchedRightRow (batch : nat) (row : oid_t) (s : State)
  : State :=
  mkState (children0 s) (children1 s) (left_child_done_ s)
    (right_child_done_ s) (left_result_tiles_ s) (right_result_tiles_ s)
    (left_result_itr_ s) (left_matched_ s)
    (mark_matched batch row (right_matched_ s)) (left_matching_idx_ s)
    (right_matching_idx_ s) (output_ s) (emitted_ s) (eval_trace_ s).

(** Modelled from the spec: [SetOutput(tile)] of the abstract executor:
    the tile becomes the executor's current output. *)
Definition SetOutput (t : OutputTile) (s : State) : State :=
  mkState (children0 s) (children1 s) (left_child_done_ s)
    (right_child_done_ s) (left_result_tiles_ s) (right_result_tiles_ s)
    (left_result_itr_ s) (left_matched_ s) (right_matched_ s)
    (left_matching_idx_ s) (right_matching_idx_ s) (Some t)
    (emitted_ s ++ t) (eval_trace_ s).

(** Modelled from the spec: the rows the emitter pads, the visible rows
    of a tile whose match bit is unset. *)
Definition unmatched_rows (t : LogicalTile) (bits : list bool) : list oid_t :=
  List.filter (λ i, negb (default false (bits !! i))) (tile_iter t).

(** Modelled from the spec: the emitter's scan, finding the first batch
    at or after the emission cursor [idx] that still has an unmatched row,
    with those rows. *)
Fixpoint find_unmatched (idx : nat) (tiles : list LogicalTile)
    (sets : list (list bool)) : option (nat * list oid_t) :=
  match tiles with
  | [] => None
  | t :: tiles' =>
      match unmatched_rows t (default [] (head sets)) with
      | [] => find_unmatched (S idx) tiles' (tail sets)
      | rows => Some (idx, rows)
      end
  end.

(** Modelled from the spec: the left half of the outer-completion emitter,
    section 4.4.  Batched and resumable: one call emits the unmatched rows
    of the next left batch that has any, each padded with a null right row,
    and moves the emission cursor past that batch; with no such batch left
    it reports exhaustion. *)
Definition BuildLeftJoinOutput (s : State) : bool * State :=
  let idx := left_matching_idx_ s in
  match find_unmatched idx (drop idx (left_result_tiles_ s))
                       (drop idx (left_matched_ s)) with
  | Some (b, rows) =>
      (true,
       SetOutput (map (λ i, (Some (b, i), None)) rows)
                 (set_left_matching_idx (S b) s))
  | None => (false, s)
  end.

(** Modelled from the spec: the right half of the emitter, symmetric. *)
Definition BuildRightJoinOutput (s : State) : bool * State :=
  let idx := right_matching_idx_ s in
  match find_unmatched idx (drop idx (right_result_tiles_ s))
                       (drop idx (right_matched_ s)) with
  | Some (b, rows) =>
      (true,
       SetOutput (map (λ i, (None, Some (b, i))) rows)
                 (set_right_matching_idx (S b) s))
  | None => (false, s)
  end.

(** The places where the C++ has undefined behaviour: [predicate_->] on a
    null predicate (line 281), the cast of its left operand to a tuple-value
    expression (line 281), the cast of the right child to an index-scan
    executor (line 324), [left_result_tiles_[left_result_itr_]] out of range
    (lines 160, 271) and [right_result_tiles_.back()] on an empty vector
    (lines 159, 342). *)
Inductive FaultKind :=
| NullPredicate
| BadExpressionCast
| BadExecutorCast
| LeftIndexOutOfRange
| RightBackOnEmpty.

(** What one loop iteration, or one call, ends in.  [Continue] is the end
    of an iteration that falls through to the next one; [Fault] is undefined
    behaviour of the C++ at that point. *)
Inductive Outcome :=
| Continue (s : State)
| Returned (b : bool) (s : State)
| Fault (k : FaultKind) (s : State).

Definition returned (r : bool * State) : Outcome := Returned r.1 r.2.

Section Executor.

Context (predicate_ : option AbstractExpression) (join_type_ : JoinType).

(** Modelled from the spec: [BuildOuterJoinOutput], the outer-completion
    emitter of section 4.4 by join type; a full outer join drains the left
    side first, then the right side. *)
Definition BuildOuterJoinOutput (s : State) : bool * State :=
  match join_type_ with
  | JOIN_TYPE_INNER => (false, s)
  | JOIN_TYPE_LEFT => BuildLeftJoinOutput s
  | JOIN_TYPE_RIGHT => BuildRightJoinOutput s
  | JOIN_TYPE_OUTER =>
      let r := BuildLeftJoinOutput s in
      if r.1 then r else BuildRightJoinOutput r.2
  end.

(** *** The pairwise matcher (lines 355-390, and 173-208 in the old loop) *)

(** [predicate_ != nullptr] and [eval.IsFalse()]: whether the pair is
    skipped. *)
Definition pair_rejected (left_tile right_tile : LogicalTile)
    (lrow rrow : oid_t) : bool :=
  match predicate_ with
  | Some p => IsFalse (Evaluate p left_tile lrow right_tile rrow)
  | None => false
  end.

(** Body of the inner loop for one left row: the accumulator is the state,
    the position lists built so far and [has_left_match]. *)
Definition join_pair (left_tile right_tile : LogicalTile) (rrow lrow : oid_t)
    (acc : State * PositionLists * bool) : State * PositionLists * bool :=
  let '(s, pos, has_left_match) := acc in
  let s := note_pair (left_result_itr_ s) lrow
                     (length (right_result_tiles_ s) - 1) rrow s in
  if pair_rejected left_tile right_tile lrow rrow then
    (s, pos, has_left_match)
  else
    (RecordMatchedLeftRow (left_result_itr_ s) lrow s,
     pos ++ [(lrow, rrow)], true).

(** Body of the outer loop for one right row. *)
Definition join_right_row (left_tile right_tile : LogicalTile)
    (acc : State * PositionLists) (rrow : oid_t) : State * PositionLists :=
  let '(s, pos, has_left_match) :=
    foldl (λ a lrow, join_pair left_tile right_tile rrow lrow a)
          (acc, false) (tile_iter left_tile) in
  if has_left_match then
    (RecordMatchedRightRow (length (right_result_tiles_ s) - 1) rrow s, pos)
  else (s, pos).

(** Both loops: every pair of rows, right rows outside, left rows inside. *)
Definition join_tiles (left_tile right_tile : LogicalTile) (s : State)
  : State * PositionLists :=
  foldl (join_right_row left_tile right_tile) (s, []) (tile_iter right_tile).

(** Lines 211-217 and 393-399: hand out the joined tile if it has a row,
    else go round the loop again. *)
Definition finish_pair (r : State * PositionLists) : Outcome :=
  let '(s, pos) := r in
  if decide (0 < length pos) then
    Returned true
      (SetOutput
         (map (λ p, (Some (left_result_itr_ s, p.1),
                     Some (length (right_result_tiles_ s) - 1, p.2))) pos)
         s)
  else Continue s.

(** *** Picking the left tile (lines 100-128 and 242-269) *)

(** Returns the new state and [advance_right_child]. *)
Definition pick_left (s : State) : State * bool :=
  if left_child_done_ s then
    let s := set_left_result_itr (S (left_result_itr_ s)) s in
    if decide (length (left_result_tiles_ s) <= left_result_itr_ s) then
      (set_left_result_itr 0 s, true)
    else (s, false)
  else
    match Execute (children0 s) with
    | (None, c) =>
        (set_left_result_itr 0
           (set_left_child_done true (set_children0 c s)), true)
    | (Some t, c) =>
        let s := BufferLeftTile t (set_children0 c s) in
        (set_left_result_itr (length (left_result_tiles_ s) - 1) s, false)
    end.

(** *** The materialising loop, [Old_DExecute] *)

(** One iteration of the [for (;;)] of lines 84-218. *)
Definition Old_iteration (s : State) : Outcome :=
  if left_child_done_ s && right_child_done_ s then
    returned (BuildOuterJoinOutput s)
  else
    let '(s, advance_right_child) := pick_left s in
    let pull :=
      if advance_right_child
         || bool_decide (right_result_tiles_ s = []) then
        if right_child_done_ s
           && bool_decide (right_result_tiles_ s = []) then
          returned (BuildOuterJoinOutput s)
        else
          match Execute (children1 s) with
          | (None, c) =>
              returned (BuildOuterJoinOutput
                          (set_right_child_done true (set_children1 c s)))
          | (Some t, c) =>
              let s := BufferRightTile t (set_children1 c s) in
              if left_child_done_ s
                 && bool_decide (left_result_tiles_ s = []) then
                returned (BuildOuterJoinOutput s)
              else Continue s
          end
      else Continue s in
    match pull with
    | Continue s =>
        match last (right_result_tiles_ s) with
        | None => Fault RightBackOnEmpty s
        | Some right_tile =>
            match left_result_tiles_ s !! left_result_itr_ s with
            | None => Fault LeftIndexOutOfRange s
            | Some left_tile =>
                finish_pair (join_tiles left_tile right_tile s)
            end
        end
    | r => r
    end.

(** A call: iterate until an iteration returns; [Continue] out of a call
    means the fuel ran out before that. *)
Fixpoint Old_DExecute (fuel : nat) (s : State) : Outcome :=
  match fuel with
  | 0 => Continue s
  | S fuel' =>
      match Old_iteration s with
      | Continue s' => Old_DExecute fuel' s'
      | r => r
      end
  end.

(** *** The correlated-probe loop, [DExecute] *)

(** The inner [for (;;)] of lines 310-330: pull the right child and buffer
    what it returns until it reports exhaustion.  The recursion is bounded
    by [fuel]; [lookup_right] starts it with one more than the number of
    tiles the child can still return, which the loop never uses up. *)
Fixpoint lookup_right_loop (fuel : nat) (s : State) : Outcome :=
  match fuel with
  | 0 => Continue s
  | S fuel' =>
      match Execute (children1 s) with
      | (Some t, c) =>
          let s := BufferRightTile t (set_children1 c s) in
          if left_child_done_ s
             && bool_decide (left_result_tiles_ s = []) then
            returned (BuildOuterJoinOutput s)
          else lookup_right_loop fuel' s
      | (None, c) =>
          let s := set_children1 c s in
          if negb (left_child_done_ s) then
            (* the cast to IndexScanExecutor is not guarded by a type test *)
            if decide (plan_node_type c = PLAN_NODE_TYPE_INDEXSCAN) then
              Continue (set_children1 (ResetState c) s)
            else Fault BadExecutorCast s
          else Continue (set_right_child_done true s)
      end
  end.

Definition lookup_right (s : State) : Outcome :=
  lookup_right_loop (S (length (child_output (children1 s)))) s.

(** Lines 285-298: push the key value into an index-scan right child. *)
Definition push_key (col : oid_t) (v : Value) (s : State) : Outcome :=
  if decide (plan_node_type (children1 s) = PLAN_NODE_TYPE_INDEXSCAN) then
    match ReplaceKeyValue col v (children1 s) with
    | (true, c) => Continue (set_children1 c s)
    | (false, _) => Returned false s
    end
  else Continue s.

(** Body of the loop over the rows of the left tile, lines 273-331. *)
Definition probe_row (left_tile : LogicalTile) (lrow : oid_t) (s : State)
  : Outcome :=
  match predicate_ with
  | None => Fault NullPredicate s
  | Some p =>
      match GetLeft p with
      | Some (TupleValueExpression _ predicate_coloumn) =>
          let predicate_value := GetValue left_tile lrow predicate_coloumn in
          match push_key predicate_coloumn predicate_value s with
          | Continue s =>
              if right_child_done_ s
                 && bool_decide (right_result_tiles_ s = []) then
                returned (BuildOuterJoinOutput s)
              else lookup_right s
          | r => r
          end
      | _ => Fault BadExpressionCast s
      end
  end.

Fixpoint probe_rows (left_tile : LogicalTile) (rows : list oid_t) (s : State)
  : Outcome :=
  match rows with
  | [] => Continue s
  | lrow :: rows' =>
      match probe_row left_tile lrow s with
      | Continue s' => probe_rows left_tile rows' s'
      | r => r
      end
  end.

(** One iteration of the [for (;;)] of lines 226-400. *)
Definition DExecute_iteration (s : State) : Outcome :=
  if left_child_done_ s && right_child_done_ s then
    returned (BuildOuterJoinOutput s)
  else
    let '(s, advance_right_child) := pick_left s in
    match left_result_tiles_ s !! left_result_itr_ s with
    | None => Fault LeftIndexOutOfRange s
    | Some left_tile =>
        match probe_rows left_tile (tile_iter left_tile) s with
        | Continue s =>
            if (advance_right_child
                || bool_decide (right_result_tiles_ s = []))
               && (right_child_done_ s
                   && bool_decide (right_result_tiles_ s = [])) then
              returned (BuildOuterJoinOutput s)
            else
              match last (right_result_tiles_ s) with
              | None => Fault RightBackOnEmpty s
              | Some right_tile =>
                  finish_pair (join_tiles left_tile right_tile s)
              end
        | r => r
        end
    end.

Fixpoint DExecute (fuel : nat) (s : State) : Outcome :=
  match fuel with
  | 0 => Continue s
  | S fuel' =>
      match DExecute_iteration s with
      | Continue s' => DExecute fuel' s'
      | r => r
      end
  end.

End Executor.

(** *** Driving the operator *)

(** The state a call leaves behind, whatever its outcome. *)
Definition outcome_state (o : Outcome) : State :=
  match o with
  | Continue s | Returned _ s | Fault _ s => s
  end.

(** The caller's loop: call [exec] again and again, collecting the tile of
    every successful call, until a call does not return [true] or [calls]
    calls were made.  The result is the collected tiles and the last
    outcome. *)
Fixpoint run_calls (exec : State → Outcome) (calls : nat) (s : State)
  : list OutputTile * Outcome :=
  match calls with
  | 0 => ([], Continue s)
  | S calls' =>
      match exec s with
      | Returned true s' =>
          let r := run_calls exec calls' s' in
          (default [] (output_ s') :: r.1, r.2)
      | o => ([], o)
      end
  end.

(** ** What the matcher is expected to compute *)

Section Matcher_result.

Context (predicate_ : option AbstractExpression).
Context (left_tile right_tile : LogicalTile).

Definition accepts (lrow rrow : oid_t) : bool :=
  negb (pair_rejected predicate_ left_tile right_tile lrow rrow).

(** The left rows that are not rejected against right row [rrow]. *)
Definition accepted_left_rows (rrow : oid_t) : list oid_t :=
  List.filter (λ lrow, accepts lrow rrow) (tile_iter left_tile).

(** The accepted pairs, right rows outside and left rows inside. *)
Definition accepted_pairs : PositionLists :=
  List.flat_map (λ rrow, map (λ lrow, (lrow, rrow)) (accepted_left_rows rrow))
                (tile_iter right_tile).

(** The right rows that accept at least one left row of the tile. *)
Definition matched_right_rows : list oid_t :=
  List.filter (λ rrow, List.existsb (λ lrow, accepts lrow rrow)
                                    (tile_iter left_tile))
              (tile_iter right_tile).

(** Every pair the two loops visit, in the order they visit them. *)
Definition visited_pairs (lb rb : nat) : list (nat * oid_t * nat * oid_t) :=
  List.flat_map (λ rrow, map (λ lrow, (lb, lrow, rb, rrow))
                             (tile_iter left_tile))
                (tile_iter right_tile).

(** The state after the matcher has run on the two tiles: only the two
    bitsets (and the trace) differ from [s]. *)
Definition after_join (s : State) : State :=
  let lb := left_result_itr_ s in
  let rb := length (right_result_tiles_ s) - 1 in
  mkState (children0 s) (children1 s) (left_child_done_ s)
    (right_child_done_ s) (left_result_tiles_ s) (right_result_tiles_ s)
    (left_result_itr_ s)
    (foldl (λ m p, mark_matched lb p.1 m) (left_matched_ s) accepted_pairs)
    (foldl (λ m rrow, mark_matched rb rrow m) (right_matched_ s)
           matched_right_rows)
    (left_matching_idx_ s) (right_matching_idx_ s) (output_ s) (emitted_ s)
    (eval_trace_ s ++ visited_pairs lb rb).

End Matcher_result.

(** ** What the probe loop needs of the predicate *)

(** The predicate is there and its left operand is a tuple-value
    expression: what lines 280-282 take for granted. *)
Definition probe_ready (predicate_ : option AbstractExpression) : bool :=
  match predicate_ with
  | Some p =>
      match GetLeft p with
      | Some (TupleValueExpression _ _) => true
      | _ => false
      end
  | None => false
  end.

(** The fault the first probed row runs into otherwise. *)
Definition probe_fault (predicate_ : option AbstractExpression) : FaultKind :=
  match predicate_ with
  | Some _ => BadExpressionCast
  | None => NullPredicate
  end.

(** Every pair of visible rows, right rows outside. *)
Definition all_pairs (left_tile right_tile : LogicalTile) : PositionLists :=
  List.flat_map (λ rrow, map (λ lrow, (lrow, rrow)) (tile_iter left_tile))
                (tile_iter right_tile).

(** ** What pulling the right child to exhaustion leaves behind *)

(** The child after its last tile was handed out. *)
Definition drained (e : Executor) : Executor :=
  mkExecutor (plan_node_type e) [] true
             (key_column e) (key_value e) (index_table e).

(** The state with all of [tiles] buffered on the right. *)
Definition buffer_right_all (tiles : list LogicalTile) (s : State) : State :=
  foldl (λ s t, BufferRightTile t s) s tiles.

(** The outcome of the pull loop of lines 310-330 in closed form, for a
    state that has a buffered left tile. *)
Definition lookup_right_result (s : State) : Outcome :=
  let c := drained (children1 s) in
  let s1 := set_children1 c
              (buffer_right_all (child_output (children1 s)) s) in
  if left_child_done_ s then Continue (set_right_child_done true s1)
  else if decide (plan_node_type c = PLAN_NODE_TYPE_INDEXSCAN) then
         Continue (set_children1 (ResetState c) s1)
       else Fault BadExecutorCast s1.

(** ** What the emitter leaves alone *)

(** [s'] differs from [s] at most in the emission cursors, the current
    output and the log of emitted rows. *)
Definition same_buffers (s s' : State) : Prop :=
  children0 s' = children0 s
  ∧ children1 s' = children1 s
  ∧ left_child_done_ s' = left_child_done_ s
  ∧ right_child_done_ s' = right_child_done_ s
  ∧ left_result_tiles_ s' = left_result_tiles_ s
  ∧ right_result_tiles_ s' = right_result_tiles_ s
  ∧ left_result_itr_ s' = left_result_itr_ s
  ∧ left_matched_ s' = left_matched_ s
  ∧ right_matched_ s' = right_matched_ s
  ∧ eval_trace_ s' = eval_trace_ s.

(** ** Emission *)

(** Every padded row emitted so far lies behind the emission cursor of its
    side, and no row is padded on both sides. *)
Definition emit_inv (s : State) : Prop :=
  ∀ row, In row (emitted_ s) →
    match row with
    | (Some (b, _), None) => b < left_matching_idx_ s
    | (None, Some (b, _)) => b < right_matching_idx_ s
    | (None, None) => False
    | (Some _, Some _) => True
    end.

(** [s'] has the emission cursors, the emitted rows and the current output
    of [s]. *)
Definition quiet (s s' : State) : Prop :=
  emitted_ s' = emitted_ s
  ∧ left_matching_idx_ s' = left_matching_idx_ s
  ∧ right_matching_idx_ s' = right_matching_idx_ s
  ∧ output_ s' = output_ s.

(** What the emitter, called in state [s], hands out: on success one tile
    of at least one row, each row padded with a null row on one side, none
    of them twice and none of them emitted before; on exhaustion nothing,
    and the state is left as it was. *)
Definition emits_fresh (s : State) (r : bool * State) : Prop :=
  if r.1 then
    ∃ tile, tile ≠ []
      ∧ output_ r.2 = Some tile
      ∧ emitted_ r.2 = emitted_ s ++ tile
      ∧ List.NoDup tile
      ∧ (∀ row, In row tile → ¬ In row (emitted_ s))
      ∧ (∀ row, In row tile → row.1 = None ∨ row.2 = None)
  else r.2 = s.

(** What a call started in state [s] may end in, as far as output goes: a
    successful return has set one output tile, which has at least one row;
    any other end has set none. *)
Definition call_emission (s : State) (o : Outcome) : Prop :=
  match o with
  | Returned true s' =>
      ∃ tile, tile ≠ []
        ∧ output_ s' = Some tile
        ∧ emitted_ s' = emitted_ s ++ tile
        ∧ (emit_inv s → emit_inv s')
  | _ => quiet s (outcome_state o)
  end.

(** ** The correlated join as the specification words it *)

(** The tuples an output row refers to. *)
Definition resolve (s : State) (row : JoinedRow)
  : option Tuple * option Tuple :=
  (row.1 ≫= λ p, left_result_tiles_ s !! p.1 ≫= λ t, snd <$> t !! p.2,
   row.2 ≫= λ p, right_result_tiles_ s !! p.1 ≫= λ t, snd <$> t !! p.2).

(** Each left row joined against exactly the rows the index returns for
    that row's key, and the union of these over the rows of the tile. *)
Definition correlated_join (predicate_ : option AbstractExpression)
    (col : oid_t) (tbl : list (Value * list LogicalTile))
    (left_tile : LogicalTile) : list (option Tuple * option Tuple) :=
  List.flat_map
    (λ lrow,
       List.flat_map
         (λ right_tile,
            List.flat_map
              (λ rrow,
                 if pair_rejected predicate_ left_tile right_tile lrow rrow
                 then []
                 else [(snd <$> left_tile !! lrow,
                        snd <$> right_tile !! rrow)])
              (tile_iter right_tile))
         (index_lookup tbl (GetValue left_tile lrow col)))
    (tile_iter left_tile).

(** ** The shape of one iteration of the old loop *)

Section Old_shape.

Context (predicate_ : option AbstractExpression) (join_type_ : JoinType).

(** The ways through one iteration of [Old_DExecute], by the state [s1]
    and flag [adv] the left pick produced: out through the emitter (four
    ways), or on to the matcher with a right tile just pulled or with
    the one already there. *)
Inductive old_shape (s : State) : Outcome → Prop :=
| old_both_done :
    left_child_done_ s && right_child_done_ s = true →
    old_shape s (returned (BuildOuterJoinOutput join_type_ s))
| old_right_empty s1 adv :
    left_child_done_ s && right_child_done_ s = false →
    pick_left s = (s1, adv) →
    right_child_done_ s1 = true →
    right_result_tiles_ s1 = [] →
    old_shape s (returned (BuildOuterJoinOutput join_type_ s1))
| old_right_exhausted s1 adv c :
    left_child_done_ s && right_child_done_ s = false →
    pick_left s = (s1, adv) →
    adv = true ∨ right_result_tiles_ s1 = [] →
    Execute (children1 s1) = (None, c) →
    old_shape s
      (returned (BuildOuterJoinOutput join_type_
                   (set_right_child_done true (set_children1 c s1))))
| old_left_empty s1 adv t c :
    left_child_done_ s && right_child_done_ s = false →
    pick_left s = (s1, adv) →
    adv = true ∨ right_result_tiles_ s1 = [] →
    Execute (children1 s1) = (Some t, c) →
    left_child_done_ s1 = true →
    left_result_tiles_ s1 = [] →
    old_shape s
      (returned (BuildOuterJoinOutput join_type_
                   (BufferRightTile t (set_children1 c s1))))
| old_pair_pulled s1 adv t c lt :
    left_child_done_ s && right_child_done_ s = false →
    pick_left s = (s1, adv) →
    adv = true ∨ right_result_tiles_ s1 = [] →
    Execute (children1 s1) = (Some t, c) →
    left_result_tiles_ s1 !! left_result_itr_ s1 = Some lt →
    old_shape s
      (finish_pair
         (after_join predicate_ lt t
            (BufferRightTile t (set_children1 c s1)),
          accepted_pairs predicate_ lt t))
| old_pair_buffered s1 lt rt :
    left_child_done_ s && right_child_done_ s = false →
    pick_left s = (s1, false) →
    last (right_result_tiles_ s1) = Some rt →
    left_result_tiles_ s1 !! left_result_itr_ s1 = Some lt →
    old_shape s
      (finish_pair (after_join predicate_ lt rt s1,
                    accepted_pairs predicate_ lt rt)).

End Old_shape.

(** ** A bound on the iterations of the old loop *)

Definition old_measure_of (ld rd : bool) (L R T itr : nat) : nat :=
  if ld && rd then 0
  else if ld then R * (T + 1) + (T - itr) + 1
  else L + R * (T + L + 1) + 2.

(** Zero once both children are done; decreases with every iteration
    before that: [L] and [R] are the tiles the children have yet to
    return, [T] the left tiles buffered. *)
Definition old_measure (s : State) : nat :=
  old_measure_of (left_child_done_ s) (right_child_done_ s)
    (length (child_output (children0 s)))
    (length (child_output (children1 s)))
    (length (left_result_tiles_ s)) (left_result_itr_ s).

(** ** The pairings a run of the old loop is expected to make *)

Section Expected_trace.

(** The tiles the left and the right child produce over the whole run. *)
Context (Ls Rs : list LogicalTile).

Definition tile_at (tiles : list LogicalTile) (i : nat) : LogicalTile :=
  default [] (tiles !! i).

(** The row pairs visited when left tile [i] meets right tile [j]. *)
Definition pair_visits (i j : nat) : list (nat * oid_t * nat * oid_t) :=
  visited_pairs (tile_at Ls i) (tile_at Rs j) i j.

(** The left tiles [0 .. n-1], in order, against right tile [j]. *)
Definition column_visits (j n : nat) : list (nat * oid_t * nat * oid_t) :=
  List.flat_map (λ i, pair_visits i j) (seq 0 n).

(** Every left tile against each of the right tiles [0 .. m-1], a right
    tile at a time. *)
Definition full_visits (m : nat) : list (nat * oid_t * nat * oid_t) :=
  List.flat_map (λ j, column_visits j (length Ls)) (seq 0 m).

Definition expected_trace : list (nat * oid_t * nat * oid_t) :=
  full_visits (length Rs).

(** The trace after [nl] left and [nr] right tiles were buffered, by the
    exhaustion flags and the cursor. *)
Definition progress_trace (ld rd : bool) (nl nr itr : nat)
  : list (nat * oid_t * nat * oid_t) :=
  if decide (nl = 0 ∨ nr = 0) then []
  else if rd then full_visits nr
  else if ld then full_visits (nr - 1) ++ column_visits (nr - 1) (S itr)
  else column_visits 0 nl.

(** The invariant of the old loop between iterations. *)
Definition old_inv (s : State) : Prop :=
  let ld := left_child_done_ s in
  let rd := right_child_done_ s in
  let nl := length (left_result_tiles_ s) in
  let nr := length (right_result_tiles_ s) in
  let itr := left_result_itr_ s in
  Ls = left_result_tiles_ s ++ child_output (children0 s)
  ∧ Rs = right_result_tiles_ s ++ child_output (children1 s)
  ∧ (ld = true → child_output (children0 s) = [])
  ∧ (rd = true → child_output (children1 s) = [])
  ∧ eval_trace_ s = progress_trace ld rd nl nr itr
  ∧ (ld = false → rd = false →
     (nl = 0 ∧ nr = 0) ∨ (1 ≤ nl ∧ nr = 1 ∧ itr = nl - 1))
  ∧ (ld = false → rd = true → nr = 0)
  ∧ (ld = true → rd = false → nl = 0 ∨ (1 ≤ nr ∧ itr < nl)).

End Expected_trace.

(** What is left for the emitter to scan, once both children are done. *)
Definition emit_measure (s : State) : nat :=
  (length (left_result_tiles_ s) - left_matching_idx_ s)
  + (length (right_result_tiles_ s) - right_matching_idx_ s).

(** ** A bound on the iterations of the probe loop *)

(** The index of the first tile that has a visible row. *)
Fixpoint first_rowful (tiles : list LogicalTile) : option nat :=
  match tiles with
  | [] => None
  | t :: tiles' =>
      match tile_iter t with
      | [] => S <$> first_rowful tiles'
      | _ => Some 0
      end
  end.

(** The cursor the left pick moves to, once the left child is done. *)
Definition next_itr (T itr : nat) : nat :=
  if decide (T ≤ S itr) then 0 else S itr.

(** How many tiles without rows the cursor passes, wrapping round, before
    it is on a tile with a row. *)
Definition cyc_dist (tiles : list LogicalTile) (itr : nat) : nat :=
  let i := next_itr (length tiles) itr in
  match first_rowful (drop i tiles) with
  | Some d => d
  | None => (length tiles - i) + default 0 (first_rowful tiles)
  end.

Definition probe_measure (s : State) : nat :=
  let L := length (child_output (children0 s)) in
  let T := length (left_result_tiles_ s) in
  if left_child_done_ s && right_child_done_ s then 0
  else if left_child_done_ s then
         cyc_dist (left_result_tiles_ s) (left_result_itr_ s) + 1
       else L + 2 * (T + L) + 3.

(** Right tiles are only ever buffered while probing for a row of a
    buffered left tile. *)
Definition probe_inv (s : State) : Prop :=
  right_result_tiles_ s ≠ [] → is_Some (first_rowful (left_result_tiles_ s)).

(** [s'] has the left side of [s]. *)
Definition same_left (s s' : State) : Prop :=
  children0 s' = children0 s
  ∧ left_child_done_ s' = left_child_done_ s
  ∧ left_result_tiles_ s' = left_result_tiles_ s
  ∧ left_result_itr_ s' = left_result_itr_ s.

(** ** Example inputs *)

(** The predicate [left.col0 = right.col0]. *)
Definition eq_predicate : AbstractExpression :=
  ComparisonExpression EXPRESSION_TYPE_COMPARE_EQUAL
    (TupleValueExpression 0 0) (TupleValueExpression 1 0).

(** A visible one-column row. *)
Definition key_row (k : Z) : bool * Tuple := (true, [VInt k]).

(** An index on column 0 with one row for each of the keys 5, 7 and 9. *)
Definition index_579 : Executor :=
  index_scan 0 [(VInt 5, [[key_row 5]]); (VInt 7, [[key_row 7]]);
                (VInt 9, [[key_row 9]])].

(** A left input of one tile with the keys 5 and 7, against the index. *)
Definition two_row_state : State :=
  init_state (seq_scan [[key_row 5; key_row 7]]) index_579.

(** The left-outer scenario of the spec: left keys 1 and 2, right key 1. *)
Definition left_outer_state : State :=
  init_state (seq_scan [[key_row 1; key_row 2]]) (seq_scan [[key_row 1]]).

(** The same scenario after two calls of the old loop, both children
    exhausted and the unmatched left row emitted. *)
Definition left_outer_drained : State :=
  Eval vm_compute in
    outcome_state
      (Old_DExecute (Some eq_predicate) JOIN_TYPE_LEFT 5
         (outcome_state
            (Old_DExecute (Some eq_predicate) JOIN_TYPE_LEFT 5
                          left_outer_state))).

(** A left input of one tile with the keys 5, 7 and 9, against the index. *)
Definition three_row_state : State :=
  init_state (seq_scan [[key_row 5; key_row 7; key_row 9]]) index_579.

(** A left input of one tile with one row, against a sequential scan. *)
Definition one_row_seq_state : State :=
  init_state (seq_scan [[key_row 5]]) (seq_scan [[key_row 5]]).

(** An empty left input. *)
Definition empty_left_state : State :=
  init_state (seq_scan []) (seq_scan [[key_row 5]]).

(** ** The steps the two loops are made of *)

Section Loop_steps.

Context (predicate_ : option AbstractExpression) (join_type_ : JoinType).

(** Every change either loop makes to the executor is one of these: the
    left pick, a new state of the right child, the right exhaustion flag
    set, a right tile buffered, a call of the emitter, or the matcher run
    on the left tile under the cursor and the last right tile, with its
    result handed out if it has a row. *)
Inductive loop_step (s : State) : State → Prop :=
| step_pick_left :
    loop_step s (pick_left s).1
| step_right_child c :
    loop_step s (set_children1 c s)
| step_right_done :
    loop_step s (set_right_child_done true s)
| step_buffer_right t :
    loop_step s (BufferRightTile t s)
| step_emit :
    loop_step s (BuildOuterJoinOutput join_type_ s).2
| step_pair lt rt :
    left_result_tiles_ s !! left_result_itr_ s = Some lt →
    last (right_result_tiles_ s) = Some rt →
    loop_step s
      (outcome_state (finish_pair (join_tiles predicate_ lt rt s))).

Definition loop_steps : State → State → Prop := rtc loop_step.

End Loop_steps.

(** ** What the calls keep *)

(** Whether the match bit of row [row] of batch [batch] is set. *)
Definition is_matched (m : list (list bool)) (batch : nat) (row : oid_t)
  : bool :=
  default false (m !! batch ≫= λ bits, bits !! row).

(** [s'] has everything [s] has: the buffered tiles, the rows handed out
    and the pairs visited of [s] are a prefix of those of [s'], and the
    exhaustion flags, the match bits and the emission cursors of [s] are
    still set, or reached, in [s']. *)
Definition grows (s s' : State) : Prop :=
  left_result_tiles_ s `prefix_of` left_result_tiles_ s'
  ∧ right_result_tiles_ s `prefix_of` right_result_tiles_ s'
  ∧ (left_child_done_ s = true → left_child_done_ s' = true)
  ∧ (right_child_done_ s = true → right_child_done_ s' = true)
  ∧ emitted_ s `prefix_of` emitted_ s'
  ∧ eval_trace_ s `prefix_of` eval_trace_ s'
  ∧ (∀ i a, is_matched (left_matched_ s) i a = true →
            is_matched (left_matched_ s') i a = true)
  ∧ (∀ j b, is_matched (right_matched_ s) j b = true →
            is_matched (right_matched_ s') j b = true)
  ∧ left_matching_idx_ s ≤ left_matching_idx_ s'
  ∧ right_matching_idx_ s ≤ right_matching_idx_ s'.

(** One bitset per buffered tile, one bit per row of the tile. *)
Definition aligned (tiles : list LogicalTile) (m : list (list bool)) : Prop :=
  Forall2 (λ (t : LogicalTile) (bits : list bool), length bits = length t)
          tiles m.

(** The bitsets fit the buffers, and the cursor is on a buffered left tile
    unless there is none. *)
Definition buffers_wf (s : State) : Prop :=
  aligned (left_result_tiles_ s) (left_matched_ s)
  ∧ aligned (right_result_tiles_ s) (right_matched_ s)
  ∧ (left_result_tiles_ s = []
     ∨ left_result_itr_ s < length (left_result_tiles_ s)).

(** The rows of an output that pair a left row with a right row. *)
Definition matched_part (rows : list JoinedRow) : list JoinedRow :=
  List.filter (λ row : JoinedRow,
                 match row with
                 | (Some _, Some _) => true
                 | _ => false
                 end) rows.

(** Whether a visited pair is one the predicate does not reject, the tiles
    looked up in the buffers [Ls] and [Rs]. *)
Definition joins (predicate_ : option AbstractExpression)
    (Ls Rs : list LogicalTile) (v : nat * oid_t * nat * oid_t) : bool :=
  let '(i, a, j, b) := v in
  accepts predicate_ (tile_at Ls i) (tile_at Rs j) a b.

Definition joined_row (v : nat * oid_t * nat * oid_t) : JoinedRow :=
  let '(i, a, j, b) := v in (Some (i, a), Some (j, b)).

(** The output rows a list of visited pairs gives rise to. *)
Definition joined_rows (predicate_ : option AbstractExpression)
    (Ls Rs : list LogicalTile) (visits : list (nat * oid_t * nat * oid_t))
  : list JoinedRow :=
  map joined_row (List.filter (joins predicate_ Ls Rs) visits).

(** A visited pair refers to buffered tiles. *)
Definition in_buffers (s : State) (v : nat * oid_t * nat * oid_t) : Prop :=
  let '(i, _, j, _) := v in
  i < length (left_result_tiles_ s) ∧ j < length (right_result_tiles_ s).

(** A visited pair is a pair of visible rows of buffered tiles. *)
Definition visible_visit (s : State) (v : nat * oid_t * nat * oid_t) : Prop :=
  let '(i, a, j, b) := v in
  ∃ lt rt, left_result_tiles_ s !! i = Some lt
           ∧ right_result_tiles_ s !! j = Some rt
           ∧ In a (tile_iter lt) ∧ In b (tile_iter rt).

(** The books of the executor agree with what the matcher visited: the
    joined rows handed out are the visited pairs that were not rejected, in
    the order of the visits, and a match bit is set exactly for a row that
    has such a pair. *)
Definition ledger_inv (predicate_ : option AbstractExpression) (s : State)
  : Prop :=
  let Ls := left_result_tiles_ s in
  let Rs := right_result_tiles_ s in
  buffers_wf s
  ∧ Forall (in_buffers s) (eval_trace_ s)
  ∧ matched_part (emitted_ s) = joined_rows predicate_ Ls Rs (eval_trace_ s)
  ∧ (∀ i a, is_matched (left_matched_ s) i a = true
            ↔ ∃ j b, In (i, a, j, b) (eval_trace_ s)
                     ∧ joins predicate_ Ls Rs (i, a, j, b) = true)
  ∧ (∀ j b, is_matched (right_matched_ s) j b = true
            ↔ ∃ i a, In (i, a, j, b) (eval_trace_ s)
                     ∧ joins predicate_ Ls Rs (i, a, j, b) = true).

(** ** What the probe loop leaves behind *)

(** The index-scan child after it was probed for the key [v]: reset, with
    [v] as its bound. *)
Definition probe_child (c : Executor) (v : Value) : Executor :=
  mkExecutor (plan_node_type c) [] false (key_column c) v (index_table c).

(** The state after the probe for left row [lrow]: the tiles the index
    holds for the key of the row are buffered on the right. *)
Definition probed_row (col : oid_t) (left_tile : LogicalTile) (lrow : oid_t)
    (s : State) : State :=
  let v := GetValue left_tile lrow col in
  set_children1 (probe_child (children1 s) v)
    (buffer_right_all (index_lookup (index_table (children1 s)) v) s).

(** The state after the probes for [rows], in their order. *)
Definition probed (col : oid_t) (left_tile : LogicalTile) (rows : list oid_t)
    (s : State) : State :=
  foldl (λ s lrow, probed_row col left_tile lrow s) s rows.

(** The tiles the index holds for the keys of [rows], in their order. *)
Definition lookups (col : oid_t) (tbl : list (Value * list LogicalTile))
    (left_tile : LogicalTile) (rows : list oid_t) : list LogicalTile :=
  List.flat_map (λ lrow, index_lookup tbl (GetValue left_tile lrow col)) rows.

(** ** What a successful call hands out *)

(** The accepted pairs of the left tile under the cursor and the last
    right tile, all of them, as joined rows. *)
Definition pair_output (predicate_ : option AbstractExpression) (s : State)
    (tile : OutputTile) : Prop :=
  ∃ lt rt,
    left_result_tiles_ s !! left_result_itr_ s = Some lt
    ∧ last (right_result_tiles_ s) = Some rt
    ∧ tile = map (λ p : oid_t * oid_t,
                    (Some (left_result_itr_ s, p.1),
                     Some (length (right_result_tiles_ s) - 1, p.2)))
                 (accepted_pairs predicate_ lt rt).

(** Rows of one side only, each padded with a null row on the other. *)
Definition padding_output (tile : OutputTile) : Prop :=
  (∀ row, In row tile → is_Some row.1 ∧ row.2 = None)
  ∨ (∀ row, In row tile → row.1 = None ∧ is_Some row.2).

Definition call_output (predicate_ : option AbstractExpression) (o : Outcome)
  : Prop :=
  match o with
  | Returned true s' =>
      ∃ tile, output_ s' = Some tile
              ∧ (pair_output predicate_ s' tile ∨ padding_output tile)
  | _ => True
  end.

(** ** After the old loop has signalled exhaustion *)

(** The states in which a call of the old loop goes to the emitter
    without pairing: the right child is done, or the left child is done
    without having returned a tile. *)
Definition old_final (s : State) : Prop :=
  right_child_done_ s = true
  ∨ (left_child_done_ s = true ∧ left_result_tiles_ s = []).

(** ** The assertions of the two loops *)

(** The states the old loop is in at the top of an iteration, in the runs
    from the state [DInit] leaves: the iterations follow one another, within
    a call and from one call to the next. *)
Inductive old_reachable (predicate_ : option AbstractExpression)
    (join_type_ : JoinType) (left right : Executor) : State → Prop :=
| old_reach_init :
    old_reachable predicate_ join_type_ left right (init_state left right)
| old_reach_next s :
    old_reachable predicate_ join_type_ left right s →
    old_reachable predicate_ join_type_ left right
      (outcome_state (Old_iteration predicate_ join_type_ s)).

(** [PL_ASSERT(!right_result_tiles_.empty())], line 103, in the iteration
    that starts in [s]: it is reached when the left child is done and the
    right child is not. *)
Definition assert_103 (s : State) : Prop :=
  left_child_done_ s = true → right_child_done_ s = false →
  right_result_tiles_ s ≠ [].

(** [PL_ASSERT(left_result_itr_ == 0)], line 136, in the iteration that
    starts in [s]: it is reached after the left pick, when the right child
    is about to be pulled. *)
Definition assert_136 (s : State) : Prop :=
  left_child_done_ s && right_child_done_ s = false →
  (pick_left s).2 = true ∨ right_result_tiles_ (pick_left s).1 = [] →
  right_child_done_ (pick_left s).1
  && bool_decide (right_result_tiles_ (pick_left s).1 = []) = false →
  left_result_itr_ (pick_left s).1 = 0.

(** [PL_ASSERT(left_result_itr_ == 0)], line 307, in the probe of a row
    that goes on, in state [s], to the pull loop of line 310. *)
Definition assert_307 (s : State) : Prop := left_result_itr_ s = 0.

(** * Properties *)

(** ** Match tracker *)

Lemma mark_matched_idemp (batch : nat) (row : oid_t) (m : list (list bool)) :
  mark_matched batch row (mark_matched batch row m) = mark_matched batch row m.
Proof.
  unfold mark_matched.
  rewrite list_alter_alter_eq.
  apply list_alter_ext; [|done].
  intros bits _. simpl. apply list_insert_insert_eq.
Qed.

(** C8: recording the same (batch, row) match a second time, on the left
    side or on the right side, leaves the whole state, and so the match
    bitsets, as the first recording left them. *)
Theorem RecordMatched_idempotent (batch : nat) (row : oid_t) (s : State) :
  RecordMatchedLeftRow batch row (RecordMatchedLeftRow batch row s)
  = RecordMatchedLeftRow batch row s
  ∧ RecordMatchedRightRow batch row (RecordMatchedRightRow batch row s)
    = RecordMatchedRightRow batch row s.
Proof.
  unfold RecordMatchedLeftRow, RecordMatchedRightRow; simpl.
  rewrite !mark_matched_idemp. done.
Qed.

(** ** Pairwise matcher *)

Section Matcher_facts.

Context (predicate_ : option AbstractExpression).
Context (left_tile right_tile : LogicalTile).

Local Abbreviation ok_pair := (accepts predicate_ left_tile right_tile).

Lemma join_pair_eq (rrow lrow : oid_t) (s : State) (pos : PositionLists)
    (h : bool) :
  join_pair predicate_ left_tile right_tile rrow lrow (s, pos, h)
  = let s0 := note_pair (left_result_itr_ s) lrow
                        (length (right_result_tiles_ s) - 1) rrow s in
    if ok_pair lrow rrow then
      (RecordMatchedLeftRow (left_result_itr_ s) lrow s0,
       pos ++ [(lrow, rrow)], true)
    else (s0, pos, h).
Proof.
  unfold join_pair, accepts.
  destruct (pair_rejected _ _ _ _ _); reflexivity.
Qed.

(** The inner loop over a list of left rows. *)
Lemma join_inner_fold (rrow : oid_t) (rows : list oid_t) (s : State)
    (pos : PositionLists) (h : bool) :
  foldl (λ a lrow, join_pair predicate_ left_tile right_tile rrow lrow a)
        (s, pos, h) rows
  = let lb := left_result_itr_ s in
    let rb := length (right_result_tiles_ s) - 1 in
    let ok := List.filter (λ lrow, ok_pair lrow rrow) rows in
    (mkState (children0 s) (children1 s) (left_child_done_ s)
       (right_child_done_ s) (left_result_tiles_ s) (right_result_tiles_ s)
       (left_result_itr_ s)
       (foldl (λ m lrow, mark_matched lb lrow m) (left_matched_ s) ok)
       (right_matched_ s) (left_matching_idx_ s) (right_matching_idx_ s)
       (output_ s) (emitted_ s)
       (eval_trace_ s ++ map (λ lrow, (lb, lrow, rb, rrow)) rows),
     pos ++ map (λ lrow, (lrow, rrow)) ok,
     h || List.existsb (λ lrow, ok_pair lrow rrow) rows).
Proof.
  revert s pos h. induction rows as [|lrow rows IH]; intros s pos h.
  - destruct s; simpl. rewrite !app_nil_r, orb_false_r. reflexivity.
  - cbn [foldl]. rewrite join_pair_eq. cbv zeta.
    destruct (ok_pair lrow rrow) eqn:Hacc.
    + rewrite IH. cbn [List.filter List.existsb]. rewrite Hacc.
      destruct s; simpl. rewrite <- !app_assoc, orb_true_r. reflexivity.
    + rewrite IH. cbn [List.filter List.existsb]. rewrite Hacc.
      destruct s; simpl. rewrite <- !app_assoc. reflexivity.
Qed.

Lemma foldl_mark_pairs (lb : nat) (rrow : oid_t) (rows : list oid_t)
    (m : list (list bool)) :
  foldl (λ m (p : oid_t * oid_t), mark_matched lb p.1 m) m
        (map (λ lrow, (lrow, rrow)) rows)
  = foldl (λ m lrow, mark_matched lb lrow m) m rows.
Proof. revert m. induction rows as [|r rows IH]; intros m; simpl; auto. Qed.

(** The outer loop over a list of right rows. *)
Lemma join_outer_fold (rrows : list oid_t) (s : State) (pos : PositionLists) :
  foldl (join_right_row predicate_ left_tile right_tile) (s, pos) rrows
  = let lb := left_result_itr_ s in
    let rb := length (right_result_tiles_ s) - 1 in
    let ok := List.flat_map
                (λ rrow, map (λ lrow, (lrow, rrow))
                             (accepted_left_rows predicate_ left_tile
                                                 right_tile rrow)) rrows in
    (mkState (children0 s) (children1 s) (left_child_done_ s)
       (right_child_done_ s) (left_result_tiles_ s) (right_result_tiles_ s)
       (left_result_itr_ s)
       (foldl (λ m p, mark_matched lb p.1 m) (left_matched_ s) ok)
       (foldl (λ m rrow, mark_matched rb rrow m) (right_matched_ s)
          (List.filter
             (λ rrow, List.existsb (λ lrow, ok_pair lrow rrow)
                                   (tile_iter left_tile)) rrows))
       (left_matching_idx_ s) (right_matching_idx_ s) (output_ s)
       (emitted_ s)
       (eval_trace_ s
        ++ List.flat_map (λ rrow, map (λ lrow, (lb, lrow, rb, rrow))
                                      (tile_iter left_tile)) rrows),
     pos ++ ok).
Proof.
  revert s pos. induction rrows as [|rrow rrows IH]; intros s pos.
  - destruct s; simpl. rewrite !app_nil_r. reflexivity.
  - cbn [foldl]. unfold join_right_row at 2.
    rewrite join_inner_fold. cbv zeta. cbn [orb].
    cbn [List.flat_map List.filter].
    fold (accepted_left_rows predicate_ left_tile right_tile rrow).
    destruct (List.existsb _ (tile_iter left_tile)) eqn:Hex.
    + rewrite IH. destruct s; simpl.
      rewrite foldl_app, foldl_mark_pairs, <- !app_assoc. reflexivity.
    + rewrite IH. destruct s; simpl.
      rewrite foldl_app, foldl_mark_pairs, <- !app_assoc. reflexivity.
Qed.

Lemma join_tiles_eq (s : State) :
  join_tiles predicate_ left_tile right_tile s
  = (after_join predicate_ left_tile right_tile s,
     accepted_pairs predicate_ left_tile right_tile).
Proof. unfold join_tiles. rewrite join_outer_fold. reflexivity. Qed.

Lemma accepted_pairs_spec (lrow rrow : oid_t) :
  In (lrow, rrow) (accepted_pairs predicate_ left_tile right_tile)
  ↔ In lrow (tile_iter left_tile) ∧ In rrow (tile_iter right_tile)
    ∧ pair_rejected predicate_ left_tile right_tile lrow rrow = false.
Proof.
  unfold accepted_pairs, accepted_left_rows. rewrite in_flat_map. split.
  - intros (j & Hj & Hin). apply in_map_iff in Hin as (i & Heq & Hi).
    injection Heq as -> ->. apply filter_In in Hi as [Hi Hacc].
    unfold accepts in Hacc. apply negb_true_iff in Hacc. auto.
  - intros (Hi & Hj & Hrej). exists rrow. split; [done|].
    apply in_map_iff. exists lrow. split; [done|].
    apply filter_In. split; [done|].
    unfold accepts. rewrite Hrej. done.
Qed.

Lemma matched_right_rows_spec (rrow : oid_t) :
  In rrow (matched_right_rows predicate_ left_tile right_tile)
  ↔ In rrow (tile_iter right_tile)
    ∧ ∃ lrow, In lrow (tile_iter left_tile)
              ∧ pair_rejected predicate_ left_tile right_tile lrow rrow
                = false.
Proof.
  unfold matched_right_rows. rewrite filter_In, existsb_exists.
  unfold accepts. split.
  - intros (Hj & i & Hi & Hacc). apply negb_true_iff in Hacc. eauto.
  - intros (Hj & i & Hi & Hrej). split; [done|]. exists i.
    rewrite Hrej. done.
Qed.

End Matcher_facts.

(** C3: the matcher, run on a left and a right tile, returns as position
    lists exactly the pairs (left row, right row) that the predicate does
    not evaluate to false on, in iteration order (right rows outside, left
    rows inside); it marks in the left bitset the left row of each such pair
    and in the right bitset exactly the right rows with at least one such
    pair, and changes nothing else in the executor.  A rejected pair leaves
    no mark and no entry, and without a predicate no pair is rejected. *)
Theorem pairwise_matcher_spec (predicate_ : option AbstractExpression)
    (left_tile right_tile : LogicalTile) (s : State) :
  join_tiles predicate_ left_tile right_tile s
  = (after_join predicate_ left_tile right_tile s,
     accepted_pairs predicate_ left_tile right_tile)
  ∧ (∀ lrow rrow,
       In (lrow, rrow) (accepted_pairs predicate_ left_tile right_tile)
       ↔ In lrow (tile_iter left_tile) ∧ In rrow (tile_iter right_tile)
         ∧ pair_rejected predicate_ left_tile right_tile lrow rrow = false)
  ∧ (∀ rrow,
       In rrow (matched_right_rows predicate_ left_tile right_tile)
       ↔ In rrow (tile_iter right_tile)
         ∧ ∃ lrow, In lrow (tile_iter left_tile)
                   ∧ pair_rejected predicate_ left_tile right_tile lrow rrow
                     = false)
  ∧ (∀ lrow rrow,
       pair_rejected predicate_ left_tile right_tile lrow rrow
       = match predicate_ with
         | Some p => IsFalse (Evaluate p left_tile lrow right_tile rrow)
         | None => false
         end)
  ∧ (∀ lrow rrow acc,
       join_pair predicate_ left_tile right_tile rrow lrow acc
       = let s0 := note_pair (left_result_itr_ acc.1.1) lrow
                     (length (right_result_tiles_ acc.1.1) - 1) rrow
                     acc.1.1 in
         if pair_rejected predicate_ left_tile right_tile lrow rrow
         then (s0, acc.1.2, acc.2)
         else (RecordMatchedLeftRow (left_result_itr_ acc.1.1) lrow s0,
               acc.1.2 ++ [(lrow, rrow)], true)).
Proof.
  split; [apply join_tiles_eq|].
  split; [apply accepted_pairs_spec|].
  split; [apply matched_right_rows_spec|].
  split; [reflexivity|].
  intros lrow rrow [[s0 pos] h]. reflexivity.
Qed.

(** Reducing the projections of an updated state. *)
Ltac state_simpl :=
  cbn [children0 children1 left_child_done_ right_child_done_
       left_result_tiles_ right_result_tiles_ left_result_itr_
       left_matched_ right_matched_ left_matching_idx_ right_matching_idx_
       output_ emitted_ eval_trace_
       set_children0 set_children1 set_left_child_done set_right_child_done
       set_left_result_itr set_left_matching_idx set_right_matching_idx
       note_pair BufferLeftTile BufferRightTile
       RecordMatchedLeftRow RecordMatchedRightRow SetOutput
       outcome_state returned fst snd] in *.

(** ** Picking the left tile *)

Lemma Execute_None (e : Executor) (c : Executor) :
  Execute e = (None, c) → child_output e = [] ∧ child_output c = [].
Proof.
  unfold Execute. destruct (child_output e) eqn:He; [|discriminate].
  intros [= <-]. split; [done|].
  unfold child_output; simpl. destruct (plan_node_type e); done.
Qed.

Lemma Execute_Some (e : Executor) (t : LogicalTile) (c : Executor) :
  Execute e = (Some t, c) →
  child_output e = t :: child_output c
  ∧ plan_node_type c = plan_node_type e.
Proof.
  unfold Execute. destruct (child_output e) eqn:He; [discriminate|].
  intros [= <- <-]. split; [|done].
  unfold child_output; simpl. destruct (plan_node_type e); done.
Qed.

Lemma Execute_type (e : Executor) :
  plan_node_type (Execute e).2 = plan_node_type e.
Proof. unfold Execute. by destruct (child_output e). Qed.

(** After [pick_left] the cursor is inside the buffered left list, unless
    that list is empty; and it is empty only with the left child done and
    the right child due to advance. *)
Lemma pick_left_cursor (s s1 : State) (adv : bool) :
  pick_left s = (s1, adv) →
  (left_result_tiles_ s1 = []
   ∧ adv = true ∧ left_child_done_ s1 = true ∧ left_result_tiles_ s = []
   ∧ (left_child_done_ s = true ∨ child_output (children0 s) = []))
  ∨ left_result_itr_ s1 < length (left_result_tiles_ s1).
Proof.
  unfold pick_left. destruct (left_child_done_ s) eqn:Hld.
  - simpl. case_decide as Hle; intros [= <- <-]; simpl.
    + destruct (left_result_tiles_ s) eqn:Hl; simpl; [left; auto 6|].
      right; lia.
    + right; lia.
  - destruct (Execute (children0 s)) as [[t|] c] eqn:Hex; intros [= <- <-].
    + right; simpl. rewrite length_app; simpl. lia.
    + apply Execute_None in Hex as [Hout _]. simpl.
      destruct (left_result_tiles_ s) eqn:Hl; simpl; [left; auto 6|].
      right; lia.
Qed.

Lemma pick_left_right_side (s s1 : State) (adv : bool) :
  pick_left s = (s1, adv) →
  right_result_tiles_ s1 = right_result_tiles_ s
  ∧ right_child_done_ s1 = right_child_done_ s
  ∧ children1 s1 = children1 s
  ∧ emitted_ s1 = emitted_ s
  ∧ eval_trace_ s1 = eval_trace_ s.
Proof.
  unfold pick_left. destruct (left_child_done_ s).
  - simpl. case_decide; intros [= <- <-]; done.
  - destruct (Execute (children0 s)) as [[t|] c]; intros [= <- <-]; done.
Qed.

(** ** Memory safety of the old loop *)

Lemma returned_not_Fault (r : bool * State) (k : FaultKind) (s : State) :
  returned r ≠ Fault k s.
Proof. done. Qed.

Lemma finish_pair_not_Fault (r : State * PositionLists) (k : FaultKind)
    (s : State) :
  finish_pair r ≠ Fault k s.
Proof. destruct r as [s0 pos]. unfold finish_pair. case_decide; done. Qed.

Lemma Old_iteration_safe (predicate_ : option AbstractExpression)
    (join_type_ : JoinType) (s : State) (k : FaultKind) (s' : State) :
  Old_iteration predicate_ join_type_ s ≠ Fault k s'.
Proof.
  unfold Old_iteration.
  destruct (left_child_done_ s && right_child_done_ s); [done|].
  destruct (pick_left s) as [s1 adv] eqn:Hpick.
  pose proof (pick_left_cursor _ _ _ Hpick) as Hcur.
  destruct (adv || bool_decide (right_result_tiles_ s1 = [])) eqn:Hadv.
  - destruct (right_child_done_ s1 && bool_decide (right_result_tiles_ s1 = []));
      [done|].
    destruct (Execute (children1 s1)) as [[t|] c]; [|done].
    state_simpl.
    destruct Hcur as [(Hnil & _ & Hld & _)|Hlt].
    + rewrite Hld, Hnil. done.
    + destruct (left_child_done_ s1 && _); [done|].
      state_simpl. rewrite last_snoc.
      destruct (lookup_lt_is_Some_2 _ _ Hlt) as [lt ->].
      apply finish_pair_not_Fault.
  - apply orb_false_iff in Hadv as [-> Hne].
    apply bool_decide_eq_false in Hne.
    destruct (last (right_result_tiles_ s1)) as [rt|] eqn:Hlast;
      [|by apply last_None in Hlast].
    destruct Hcur as [(_ & ? & _)|Hlt]; [done|].
    destruct (lookup_lt_is_Some_2 _ _ Hlt) as [lt ->].
    apply finish_pair_not_Fault.
Qed.

Lemma Old_DExecute_safe (predicate_ : option AbstractExpression)
    (join_type_ : JoinType) (fuel : nat) (s : State) (k : FaultKind)
    (s' : State) :
  Old_DExecute predicate_ join_type_ fuel s ≠ Fault k s'.
Proof.
  revert s. induction fuel as [|fuel IH]; intros s; [done|].
  simpl. pose proof (Old_iteration_safe predicate_ join_type_ s) as Hs.
  destruct (Old_iteration predicate_ join_type_ s); auto.
Qed.

(** ** Faults of the probe loop *)

Section Probe_faults.

Context (predicate_ : option AbstractExpression) (join_type_ : JoinType).

Lemma lookup_right_loop_Fault (fuel : nat) (s : State) (k : FaultKind)
    (s' : State) :
  lookup_right_loop join_type_ fuel s = Fault k s' →
  k = BadExecutorCast
  ∧ plan_node_type (children1 s) ≠ PLAN_NODE_TYPE_INDEXSCAN.
Proof.
  revert s. induction fuel as [|fuel IH]; intros s; [done|]. simpl.
  destruct (Execute (children1 s)) as [[t|] c] eqn:Hex.
  - destruct (left_child_done_ s && _); [done|].
    intros H. apply IH in H as [-> H]. split; [done|].
    apply Execute_Some in Hex as [_ Hty]. state_simpl. by rewrite <- Hty.
  - destruct (left_child_done_ s); simpl; [done|].
    case_decide as Hty; [done|]. intros [= <- <-]. split; [done|].
    pose proof (Execute_type (children1 s)) as Hsame.
    rewrite Hex in Hsame. simpl in Hsame. by rewrite <- Hsame.
Qed.

Lemma push_key_Fault (col : oid_t) (v : Value) (s : State) (k : FaultKind)
    (s' : State) :
  push_key col v s ≠ Fault k s'.
Proof.
  unfold push_key. case_decide; [|done].
  destruct (ReplaceKeyValue col v (children1 s)) as [[] c]; done.
Qed.

Lemma probe_row_Fault (lt : LogicalTile) (lrow : oid_t) (s : State)
    (k : FaultKind) (s' : State) :
  probe_row predicate_ join_type_ lt lrow s = Fault k s' →
  (probe_ready predicate_ = false ∧ k = probe_fault predicate_ ∧ s' = s)
  ∨ (probe_ready predicate_ = true ∧ k = BadExecutorCast).
Proof.
  unfold probe_row, probe_ready, probe_fault.
  destruct predicate_ as [p|]; [|intros [= <- <-]; auto].
  destruct (GetLeft p) as [[ti col|v|ty l r]|];
    try (intros [= <- <-]; auto).
  pose proof (push_key_Fault col (GetValue lt lrow col) s) as Hpush.
  destruct (push_key col (GetValue lt lrow col) s) as [s1|b s1|k1 s1];
    [|done|by destruct (Hpush k1 s1)].
  destruct (right_child_done_ s1 && _); [done|].
  intros H. apply lookup_right_loop_Fault in H as [-> _]. auto.
Qed.

Lemma probe_rows_Fault (lt : LogicalTile) (rows : list oid_t) (s : State)
    (k : FaultKind) (s' : State) :
  probe_rows predicate_ join_type_ lt rows s = Fault k s' →
  (probe_ready predicate_ = false ∧ k = probe_fault predicate_)
  ∨ (probe_ready predicate_ = true ∧ k = BadExecutorCast).
Proof.
  revert s. induction rows as [|lrow rows IH]; intros s; [done|]. simpl.
  destruct (probe_row predicate_ join_type_ lt lrow s) as [s1|b s1|k1 s1] eqn:Hrow;
    [apply IH|done|].
  intros [= <- <-]. apply probe_row_Fault in Hrow as [(? & ? & _)|?]; auto.
Qed.

(** With the first row of the tile the probe loop faults at once when the
    predicate is not of the expected shape. *)
Lemma probe_rows_not_ready (lt : LogicalTile) (rows : list oid_t)
    (s : State) :
  probe_ready predicate_ = false → rows ≠ [] →
  probe_rows predicate_ join_type_ lt rows s
  = Fault (probe_fault predicate_) s.
Proof.
  intros Hnr Hrows. destruct rows as [|lrow rows]; [done|]. simpl.
  unfold probe_row, probe_ready, probe_fault in *.
  destruct predicate_ as [p|]; [|done].
  destruct (GetLeft p) as [[ti col|v|ty l r]|]; done.
Qed.

(** Where an iteration of [DExecute] can fault, and on what. *)
Lemma DExecute_iteration_Fault (s : State) (k : FaultKind) (s' : State) :
  DExecute_iteration predicate_ join_type_ s = Fault k s' →
  (k = LeftIndexOutOfRange ∧ s' = (pick_left s).1
   ∧ left_result_tiles_ s' = [])
  ∨ k = RightBackOnEmpty
  ∨ (probe_ready predicate_ = false ∧ k = probe_fault predicate_)
  ∨ (probe_ready predicate_ = true ∧ k = BadExecutorCast).
Proof.
  unfold DExecute_iteration.
  destruct (left_child_done_ s && right_child_done_ s); [done|].
  destruct (pick_left s) as [s1 adv] eqn:Hpick.
  pose proof (pick_left_cursor _ _ _ Hpick) as Hcur.
  destruct (left_result_tiles_ s1 !! left_result_itr_ s1) as [lt|] eqn:Hlt.
  - destruct (probe_rows predicate_ join_type_ lt (tile_iter lt) s1)
      as [s2|b s2|k2 s2] eqn:Hprobe; [|done|].
    + destruct (_ && _); [done|].
      destruct (last (right_result_tiles_ s2)).
      * intros H. by apply finish_pair_not_Fault in H.
      * intros [= <- <-]. auto.
    + intros [= <- <-]. apply probe_rows_Fault in Hprobe. auto.
  - intros [= <- <-]. left. simpl. split; [done|]. split; [done|].
    destruct Hcur as [(? & _)|Hin]; [done|].
    apply lookup_ge_None in Hlt. lia.
Qed.

Lemma DExecute_Fault (fuel : nat) (s : State) (k : FaultKind) (s' : State) :
  DExecute predicate_ join_type_ fuel s = Fault k s' →
  (k = LeftIndexOutOfRange ∧ left_result_tiles_ s' = [])
  ∨ k = RightBackOnEmpty
  ∨ (probe_ready predicate_ = false ∧ k = probe_fault predicate_)
  ∨ (probe_ready predicate_ = true ∧ k = BadExecutorCast).
Proof.
  revert s. induction fuel as [|fuel IH]; intros s; [done|]. simpl.
  destruct (DExecute_iteration predicate_ join_type_ s) as [s1|b s1|k1 s1] eqn:Hit;
    [apply IH|done|].
  intros [= <- <-].
  apply DExecute_iteration_Fault in Hit as [(? & -> & ?)|[?|[?|?]]]; auto.
Qed.

End Probe_faults.

Lemma accepted_pairs_no_predicate (left_tile right_tile : LogicalTile) :
  accepted_pairs None left_tile right_tile = all_pairs left_tile right_tile.
Proof.
  unfold accepted_pairs, all_pairs, accepted_left_rows, accepts. simpl.
  assert (Hall : ∀ l : list oid_t, List.filter (λ _, true) l = l).
  { induction l as [|i l IH]; [done|]. simpl. by rewrite IH. }
  induction (tile_iter right_tile) as [|j l IH]; [done|]. simpl.
  by rewrite IH, Hall.
Qed.

(** ** Preconditions of [DExecute] *)

(** C9: an iteration of [DExecute] that reaches the probe loop with a left
    tile of at least one row faults on the first row when no predicate is
    configured (null dereference) or when the left operand of the predicate
    is not a tuple-value expression (bad down-cast); with a predicate of
    that shape neither fault can happen; and the pairing phase itself copes
    with a missing predicate, pairing every row with every row. *)
Theorem DExecute_requires_tuple_value_predicate :
  (∀ predicate_ join_type_ s left_tile fuel,
     probe_ready predicate_ = false →
     left_child_done_ s && right_child_done_ s = false →
     left_result_tiles_ (pick_left s).1 !! left_result_itr_ (pick_left s).1
     = Some left_tile →
     tile_iter left_tile ≠ [] →
     DExecute predicate_ join_type_ (S fuel) s
     = Fault (probe_fault predicate_) (pick_left s).1)
  ∧ (∀ predicate_ join_type_ fuel s k s',
       probe_ready predicate_ = true →
       DExecute predicate_ join_type_ fuel s = Fault k s' →
       k ≠ NullPredicate ∧ k ≠ BadExpressionCast)
  ∧ (∀ left_tile right_tile s,
       join_tiles None left_tile right_tile s
       = (after_join None left_tile right_tile s,
          all_pairs left_tile right_tile)).
Proof.
  split; [|split].
  - intros pred jt s lt fuel Hnr Hdone Hlt Hrows.
    cbn [DExecute]. unfold DExecute_iteration. rewrite Hdone.
    destruct (pick_left s) as [s1 adv]. simpl in Hlt |- *. rewrite Hlt.
    by rewrite probe_rows_not_ready.
  - intros pred jt fuel s k s' Hready Hfault.
    apply DExecute_Fault in Hfault as [[-> _]|[->|[[Hnr _]|[_ ->]]]];
      try done.
    by rewrite Hready in Hnr.
  - intros lt rt s. rewrite join_tiles_eq.
    by rewrite accepted_pairs_no_predicate.
Qed.

(** On [one_row_seq_state] without a predicate the first call faults on the
    null predicate. *)
Lemma DExecute_requires_tuple_value_predicate_witness :
  probe_ready None = false
  ∧ DExecute None JOIN_TYPE_INNER 1 one_row_seq_state
    = Fault NullPredicate (pick_left one_row_seq_state).1.
Proof.
  split; [reflexivity|].
  apply (proj1 DExecute_requires_tuple_value_predicate
               None JOIN_TYPE_INNER one_row_seq_state [key_row 5] 0).
  - reflexivity.
  - reflexivity.
  - reflexivity.
  - discriminate.
Defined.

(** C10: [DExecute] indexes the buffered left list without an emptiness
    test: when the list is empty and the left child is (or turns out to be)
    exhausted, the access [left_result_tiles_[0]] is out of range, and this
    is the only way that access goes wrong.  [Old_DExecute] never faults:
    on the same input its guards return before the access. *)
Theorem DExecute_empty_left_out_of_bounds :
  (∀ predicate_ join_type_ s fuel,
     left_child_done_ s && right_child_done_ s = false →
     left_result_tiles_ s = [] →
     left_child_done_ s = true ∨ child_output (children0 s) = [] →
     DExecute predicate_ join_type_ (S fuel) s
     = Fault LeftIndexOutOfRange (pick_left s).1)
  ∧ (∀ predicate_ join_type_ fuel s s',
       DExecute predicate_ join_type_ fuel s = Fault LeftIndexOutOfRange s' →
       left_result_tiles_ s' = [])
  ∧ (∀ predicate_ join_type_ fuel s k s',
       Old_DExecute predicate_ join_type_ fuel s ≠ Fault k s')
  ∧ (∀ predicate_ join_type_ s fuel,
       left_result_tiles_ s = [] →
       left_child_done_ s = true ∨ child_output (children0 s) = [] →
       ∃ b s', Old_DExecute predicate_ join_type_ (S fuel) s
               = Returned b s').
Proof.
  split; [|split; [|split]].
  - intros pred jt s fuel Hdone Hnil Hleft.
    cbn [DExecute]. unfold DExecute_iteration. rewrite Hdone.
    assert (Hpick : left_result_tiles_ (pick_left s).1 = []).
    { unfold pick_left. destruct Hleft as [Hld|Hout].
      - rewrite Hld. simpl. rewrite Hnil. simpl. done.
      - destruct (left_child_done_ s).
        + simpl. rewrite Hnil. simpl. done.
        + unfold Execute. rewrite Hout. simpl. done. }
    destruct (pick_left s) as [s1 adv]. simpl in Hpick |- *.
    by rewrite Hpick.
  - intros pred jt fuel s s' Hfault.
    apply DExecute_Fault in Hfault as [[_ ?]|[?|[[_ Hk]|[_ ?]]]];
      try done.
    by destruct pred.
  - intros pred jt fuel s k s'. apply Old_DExecute_safe.
  - intros pred jt s fuel Hnil Hleft.
    cbn [Old_DExecute]. unfold Old_iteration.
    destruct (left_child_done_ s && right_child_done_ s); [by eauto|].
    destruct (pick_left s) as [s1 adv] eqn:Hpick.
    destruct (pick_left_cursor _ _ _ Hpick) as [(Hnil1 & -> & Hld & _)|Hlt].
    + simpl.
      destruct (right_child_done_ s1
                && bool_decide (right_result_tiles_ s1 = [])); [by eauto|].
      destruct (Execute (children1 s1)) as [[t|] c]; [|by eauto].
      state_simpl. rewrite Hld, Hnil1. simpl. by eauto.
    + exfalso. revert Hpick Hlt. unfold pick_left.
      destruct Hleft as [Hld|Hout].
      * rewrite Hld. simpl. rewrite Hnil. simpl.
        intros [= <- <-]. simpl. rewrite Hnil. simpl. lia.
      * destruct (left_child_done_ s).
        -- simpl. rewrite Hnil. simpl.
           intros [= <- <-]. simpl. rewrite Hnil. simpl. lia.
        -- unfold Execute. rewrite Hout.
           intros [= <- <-]. simpl. rewrite Hnil. simpl. lia.
Qed.

(** On [empty_left_state] the first call of [DExecute] indexes out of range,
    the first call of [Old_DExecute] returns. *)
Lemma DExecute_empty_left_out_of_bounds_witness :
  left_result_tiles_ empty_left_state = []
  ∧ child_output (children0 empty_left_state) = []
  ∧ DExecute (Some eq_predicate) JOIN_TYPE_INNER 1 empty_left_state
    = Fault LeftIndexOutOfRange (pick_left empty_left_state).1
  ∧ ∃ b s', Old_DExecute (Some eq_predicate) JOIN_TYPE_INNER 1
                         empty_left_state = Returned b s'.
Proof.
  split; [reflexivity|]. split; [reflexivity|]. split.
  - apply (proj1 DExecute_empty_left_out_of_bounds
                 (Some eq_predicate) JOIN_TYPE_INNER empty_left_state 0).
    + reflexivity.
    + reflexivity.
    + right. reflexivity.
  - apply (proj2 (proj2 (proj2 DExecute_empty_left_out_of_bounds))
                 (Some eq_predicate) JOIN_TYPE_INNER empty_left_state 0).
    + reflexivity.
    + right. reflexivity.
Defined.

(** ** The pull loop of the probe *)

Lemma buffer_right_all_children1 (tiles : list LogicalTile) (c : Executor)
    (s : State) :
  buffer_right_all tiles (set_children1 c s)
  = set_children1 c (buffer_right_all tiles s).
Proof.
  revert s. induction tiles as [|t tiles IH]; intros s; [done|].
  cbn [buffer_right_all foldl]. unfold buffer_right_all in IH.
  by rewrite <- IH.
Qed.

Lemma buffer_right_all_fields (tiles : list LogicalTile) (s : State) :
  buffer_right_all tiles s
  = mkState (children0 s) (children1 s) (left_child_done_ s)
      (right_child_done_ s) (left_result_tiles_ s)
      (right_result_tiles_ s ++ tiles) (left_result_itr_ s)
      (left_matched_ s)
      (right_matched_ s ++ map (λ t, replicate (length t) false) tiles)
      (left_matching_idx_ s) (right_matching_idx_ s) (output_ s)
      (emitted_ s) (eval_trace_ s).
Proof.
  revert s. induction tiles as [|t tiles IH]; intros s.
  - destruct s; simpl. by rewrite !app_nil_r.
  - cbn [buffer_right_all foldl]. unfold buffer_right_all in IH.
    rewrite IH. state_simpl. cbn [map]. by rewrite <- !app_assoc.
Qed.

Lemma Execute_drained (e : Executor) :
  drained (Execute e).2 = drained e.
Proof. unfold Execute. by destruct (child_output e). Qed.

Lemma lookup_right_loop_closed (join_type_ : JoinType) (fuel : nat)
    (s : State) :
  length (child_output (children1 s)) < fuel →
  left_result_tiles_ s ≠ [] →
  lookup_right_loop join_type_ fuel s = lookup_right_result s.
Proof.
  revert s. induction fuel as [|fuel IH]; intros s Hfuel Hl; [lia|].
  cbn [lookup_right_loop].
  pose proof (Execute_drained (children1 s)) as Hdr.
  destruct (Execute (children1 s)) as [[t|] c] eqn:Hex; simpl in Hdr.
  - apply Execute_Some in Hex as [Hout Hty]. state_simpl.
    rewrite (bool_decide_eq_false_2 _ Hl), andb_false_r.
    rewrite IH; state_simpl; [|rewrite Hout in Hfuel; simpl in Hfuel; lia
                              |done].
    unfold lookup_right_result. state_simpl. rewrite Hout, Hdr.
    cbn [buffer_right_all foldl].
    change (foldl (λ s0 t0, BufferRightTile t0 s0) ?x ?l)
      with (buffer_right_all l x).
    replace (BufferRightTile t (set_children1 c s))
      with (set_children1 c (BufferRightTile t s)) by done.
    rewrite buffer_right_all_children1.
    rewrite !buffer_right_all_fields. reflexivity.
  - assert (Hc : c = drained (children1 s)).
    { revert Hex. unfold Execute.
      destruct (child_output (children1 s)); [|done]. by intros [= <-]. }
    apply Execute_None in Hex as [Hout _].
    unfold lookup_right_result. rewrite Hout. state_simpl.
    cbn [buffer_right_all foldl].
    subst c. destruct (left_child_done_ s); reflexivity.
Qed.

Lemma lookup_right_closed (join_type_ : JoinType) (s : State) :
  left_result_tiles_ s ≠ [] →
  lookup_right join_type_ s = lookup_right_result s.
Proof. intros Hl. unfold lookup_right. apply lookup_right_loop_closed; [lia|done]. Qed.

(** ** The emitter's frame *)

Lemma same_buffers_refl (s : State) : same_buffers s s.
Proof. by repeat split. Qed.

Lemma same_buffers_trans (s1 s2 s3 : State) :
  same_buffers s1 s2 → same_buffers s2 s3 → same_buffers s1 s3.
Proof.
  unfold same_buffers.
  intros (?&?&?&?&?&?&?&?&?&?) (?&?&?&?&?&?&?&?&?&?).
  repeat split; congruence.
Qed.

Lemma BuildLeftJoinOutput_frame (s : State) :
  same_buffers s (BuildLeftJoinOutput s).2.
Proof.
  unfold BuildLeftJoinOutput.
  destruct (find_unmatched _ _ _) as [[b rows]|]; by repeat split.
Qed.

Lemma BuildRightJoinOutput_frame (s : State) :
  same_buffers s (BuildRightJoinOutput s).2.
Proof.
  unfold BuildRightJoinOutput.
  destruct (find_unmatched _ _ _) as [[b rows]|]; by repeat split.
Qed.

Lemma BuildOuterJoinOutput_frame (join_type_ : JoinType) (s : State) :
  same_buffers s (BuildOuterJoinOutput join_type_ s).2.
Proof.
  unfold BuildOuterJoinOutput. destruct join_type_.
  - apply same_buffers_refl.
  - apply BuildLeftJoinOutput_frame.
  - apply BuildRightJoinOutput_frame.
  - destruct (BuildLeftJoinOutput s).1 eqn:Hl.
    + apply BuildLeftJoinOutput_frame.
    + eapply same_buffers_trans; [apply BuildLeftJoinOutput_frame|].
      apply BuildRightJoinOutput_frame.
Qed.

(** ** The right-exhaustion flag is never cleared *)

Section Right_done.

Context (predicate_ : option AbstractExpression) (join_type_ : JoinType).

Lemma finish_pair_right_done (s : State) (pos : PositionLists) :
  right_child_done_ (outcome_state (finish_pair (s, pos)))
  = right_child_done_ s.
Proof. unfold finish_pair. by case_decide. Qed.

Lemma lookup_right_loop_right_done (fuel : nat) (s : State) :
  right_child_done_ s = true →
  right_child_done_
    (outcome_state (lookup_right_loop join_type_ fuel s)) = true.
Proof.
  revert s. induction fuel as [|fuel IH]; intros s Hrd; [done|]. simpl.
  destruct (Execute (children1 s)) as [[t|] c].
  - destruct (left_child_done_ s && _).
    + state_simpl.
      by destruct (BuildOuterJoinOutput_frame join_type_
                     (BufferRightTile t (set_children1 c s)))
        as (_&_&_&->&_).
    + by apply IH.
  - destruct (left_child_done_ s); simpl; [done|]. by case_decide.
Qed.

Lemma probe_row_right_done (lt : LogicalTile) (lrow : oid_t) (s : State) :
  right_child_done_ s = true →
  right_child_done_
    (outcome_state (probe_row predicate_ join_type_ lt lrow s)) = true.
Proof.
  intros Hrd. unfold probe_row. destruct predicate_ as [p|]; [|done].
  destruct (GetLeft p) as [[ti col|v|ty l r]|]; try done.
  unfold push_key. case_decide.
  - destruct (ReplaceKeyValue col _ (children1 s)) as [[] c]; [|done].
    state_simpl. destruct (right_child_done_ s && _).
    + state_simpl.
      by destruct (BuildOuterJoinOutput_frame join_type_ (set_children1 c s))
        as (_&_&_&->&_).
    + by apply lookup_right_loop_right_done.
  - destruct (right_child_done_ s && _).
    + state_simpl.
      by destruct (BuildOuterJoinOutput_frame join_type_ s) as (_&_&_&->&_).
    + by apply lookup_right_loop_right_done.
Qed.

Lemma probe_rows_right_done (lt : LogicalTile) (rows : list oid_t)
    (s : State) :
  right_child_done_ s = true →
  right_child_done_
    (outcome_state (probe_rows predicate_ join_type_ lt rows s)) = true.
Proof.
  revert s. induction rows as [|lrow rows IH]; intros s Hrd; [done|]. simpl.
  pose proof (probe_row_right_done lt lrow s Hrd) as Hrow.
  destruct (probe_row predicate_ join_type_ lt lrow s); auto.
Qed.

Lemma DExecute_iteration_right_done (s : State) :
  right_child_done_ s = true →
  right_child_done_
    (outcome_state (DExecute_iteration predicate_ join_type_ s)) = true.
Proof.
  intros Hrd. unfold DExecute_iteration.
  destruct (left_child_done_ s && right_child_done_ s).
  { state_simpl.
    by destruct (BuildOuterJoinOutput_frame join_type_ s) as (_&_&_&->&_). }
  destruct (pick_left s) as [s1 adv] eqn:Hpick.
  apply pick_left_right_side in Hpick as (_ & Hrd1 & _).
  rewrite <- Hrd1 in Hrd.
  destruct (left_result_tiles_ s1 !! left_result_itr_ s1) as [lt|]; [|done].
  pose proof (probe_rows_right_done lt (tile_iter lt) s1 Hrd) as Hprobe.
  destruct (probe_rows predicate_ join_type_ lt (tile_iter lt) s1)
    as [s2|b s2|k s2]; [|done..].
  simpl in Hprobe. destruct (_ && _).
  { state_simpl.
    by destruct (BuildOuterJoinOutput_frame join_type_ s2) as (_&_&_&->&_). }
  destruct (last (right_result_tiles_ s2)) as [rt|]; [|done].
  rewrite join_tiles_eq, finish_pair_right_done. done.
Qed.

Lemma DExecute_right_done (fuel : nat) (s : State) :
  right_child_done_ s = true →
  right_child_done_
    (outcome_state (DExecute predicate_ join_type_ fuel s)) = true.
Proof.
  revert s. induction fuel as [|fuel IH]; intros s Hrd; [done|]. simpl.
  pose proof (DExecute_iteration_right_done s Hrd) as Hit.
  destruct (DExecute_iteration predicate_ join_type_ s); auto.
Qed.

End Right_done.

(** ** Exhaustion of the right child during a probe *)

(** C5, as the code has it: when the right child (an index scan) reports
    exhaustion in the pull loop, everything it returned has been buffered
    and the choice between resetting and flagging is made on
    [left_child_done_] alone.  With the flag unset the child is reset, so
    that the lookup after the next pushed bound starts afresh; with the flag
    set the child is left exhausted, [right_child_done_] is set, and no later
    step of [DExecute] clears it. *)
Theorem right_exhaustion_by_left_flag (join_type_ : JoinType) (s : State) :
  left_result_tiles_ s ≠ [] →
  plan_node_type (children1 s) = PLAN_NODE_TYPE_INDEXSCAN →
  ∃ s', lookup_right join_type_ s = Continue s'
    ∧ right_result_tiles_ s'
      = right_result_tiles_ s ++ child_output (children1 s)
    ∧ (left_child_done_ s = false →
         children1 s' = ResetState (drained (children1 s))
         ∧ right_child_done_ s' = right_child_done_ s
         ∧ ∀ v, child_output
                  (ReplaceKeyValue (key_column (children1 s)) v
                                   (children1 s')).2
                = index_lookup (index_table (children1 s)) v)
    ∧ (left_child_done_ s = true →
         children1 s' = drained (children1 s)
         ∧ right_child_done_ s' = true
         ∧ (∀ col v, child_output
                       (ReplaceKeyValue col v (children1 s')).2 = [])
         ∧ ∀ predicate_ fuel,
             right_child_done_
               (outcome_state (DExecute predicate_ join_type_ fuel s'))
             = true).
Proof.
  intros Hl Hty. rewrite lookup_right_closed by done.
  unfold lookup_right_result. state_simpl.
  rewrite buffer_right_all_fields.
  destruct (left_child_done_ s) eqn:Hld.
  - eexists. split; [reflexivity|]. state_simpl.
    split; [done|]. split; [done|]. intros _.
    split; [done|]. split; [done|]. split.
    + intros col v. unfold ReplaceKeyValue, drained; simpl.
      case_decide; simpl; unfold child_output; simpl;
        by destruct (plan_node_type (children1 s)).
    + intros pred fuel. by apply DExecute_right_done.
  - simpl. rewrite decide_True by done.
    eexists. split; [reflexivity|]. state_simpl.
    split; [done|]. split; [|done]. intros _.
    split; [done|]. split; [done|].
    intros v. unfold ReplaceKeyValue, ResetState, drained; simpl.
    rewrite decide_True by done. unfold child_output; simpl.
    by rewrite Hty.
Qed.

(** On [two_row_state], after the left pick of the first call, the pull loop
    ends with the right child reset and not flagged. *)
Lemma right_exhaustion_by_left_flag_witness :
  left_result_tiles_ (pick_left two_row_state).1 ≠ []
  ∧ ∃ s', lookup_right JOIN_TYPE_INNER (pick_left two_row_state).1
          = Continue s'
          ∧ right_child_done_ s' = false.
Proof.
  split; [discriminate|].
  destruct (right_exhaustion_by_left_flag JOIN_TYPE_INNER
              (pick_left two_row_state).1)
    as (s' & Hrun & _ & Hreset & _).
  - discriminate.
  - reflexivity.
  - exists s'. split; [exact Hrun|].
    destruct (Hreset eq_refl) as (_ & Hrd & _). exact Hrd.
Defined.

(** C5 as stated fails, both ways.  The first call on [two_row_state]
    probes the last row the left side will ever have, and at the right
    child's exhaustion resets it instead of flagging it done.  In the second
    call the left child is found exhausted, the first row of the buffered
    tile is probed and the right child reports exhaustion while the second
    row (key 7) is still to be probed; the child is not reset but flagged
    done, and the bound pushed for the second row does not start a lookup:
    nothing is buffered for it although the index holds a row for key 7. *)
Lemma right_exhaustion_counterexample :
  let pred := Some eq_predicate in
  let lt := [key_row 5; key_row 7] in
  let s_a := outcome_state (DExecute pred JOIN_TYPE_INNER 5 two_row_state) in
  let s_b := (pick_left s_a).1 in
  let s_c := outcome_state (probe_row pred JOIN_TYPE_INNER lt 0 s_b) in
  let s_d := outcome_state (probe_row pred JOIN_TYPE_INNER lt 1 s_c) in
  DExecute pred JOIN_TYPE_INNER 5 two_row_state = Returned true s_a
  ∧ child_output (children0 s_a) = []
  ∧ right_child_done_ s_a = false
  ∧ scan_started (children1 s_a) = false
  ∧ left_result_tiles_ s_b !! left_result_itr_ s_b = Some lt
  ∧ tile_iter lt = [0; 1]
  ∧ probe_row pred JOIN_TYPE_INNER lt 0 s_b = Continue s_c
  ∧ right_child_done_ s_c = true
  ∧ scan_started (children1 s_c) = true
  ∧ probe_row pred JOIN_TYPE_INNER lt 1 s_c = Continue s_d
  ∧ key_value (children1 s_d) = VInt 7
  ∧ index_lookup (index_table (children1 s_d)) (VInt 7) = [[key_row 7]]
  ∧ right_result_tiles_ s_d = right_result_tiles_ s_c.
Proof. vm_compute. repeat split; reflexivity. Qed.

(** ** Pushing the key bound *)

(** C6, as the code has it: the push is attempted only on an index-scan
    right child.  If that child rejects the key, the call returns [false] at
    the first row, in the state the left pick left behind: the right child
    is not invoked.  A right child of another type is not pushed to, and the
    probe of the row goes on to pull it without any failure reported. *)
Theorem push_rejected_or_skipped :
  (∀ p tuple_idx col join_type_ s left_tile fuel,
     GetLeft p = Some (TupleValueExpression tuple_idx col) →
     left_child_done_ s && right_child_done_ s = false →
     left_result_tiles_ (pick_left s).1 !! left_result_itr_ (pick_left s).1
     = Some left_tile →
     tile_iter left_tile ≠ [] →
     plan_node_type (children1 s) = PLAN_NODE_TYPE_INDEXSCAN →
     col ≠ key_column (children1 s) →
     DExecute (Some p) join_type_ (S fuel) s
     = Returned false (pick_left s).1)
  ∧ (∀ p tuple_idx col join_type_ s left_tile lrow,
       GetLeft p = Some (TupleValueExpression tuple_idx col) →
       plan_node_type (children1 s) ≠ PLAN_NODE_TYPE_INDEXSCAN →
       push_key col (GetValue left_tile lrow col) s = Continue s
       ∧ probe_row (Some p) join_type_ left_tile lrow s
         = if right_child_done_ s
              && bool_decide (right_result_tiles_ s = [])
           then returned (BuildOuterJoinOutput join_type_ s)
           else lookup_right join_type_ s).
Proof.
  split.
  - intros p ti col jt s lt fuel Hleft Hdone Hlt Hrows Hty Hcol.
    cbn [DExecute]. unfold DExecute_iteration. rewrite Hdone.
    destruct (pick_left s) as [s1 adv] eqn:Hpick. simpl in Hlt |- *.
    rewrite Hlt. apply pick_left_right_side in Hpick as (_ & _ & Hc & _).
    destruct (tile_iter lt) as [|lrow rows]; [done|].
    cbn [probe_rows]. unfold probe_row. rewrite Hleft.
    unfold push_key. rewrite Hc, decide_True by done.
    unfold ReplaceKeyValue. rewrite decide_False by done. done.
  - intros p ti col jt s lt lrow Hleft Hty.
    unfold probe_row. rewrite Hleft. unfold push_key.
    rewrite decide_False by done. done.
Qed.

(** On [one_row_seq_state] the right child is a sequential scan and the push
    is skipped. *)
Lemma push_rejected_or_skipped_witness :
  plan_node_type (children1 one_row_seq_state) ≠ PLAN_NODE_TYPE_INDEXSCAN
  ∧ push_key 0 (VInt 5) one_row_seq_state = Continue one_row_seq_state.
Proof.
  split; [discriminate|].
  apply (proj2 push_rejected_or_skipped eq_predicate 0 0 JOIN_TYPE_INNER
               one_row_seq_state [key_row 5] 0).
  - reflexivity.
  - discriminate.
Defined.

(** C6 as stated fails: with a right child that is not an index scan, and
    so cannot take a bound, the call does not return a failure.  The push is
    skipped, the child is pulled and its tile buffered, and the call ends in
    the unguarded down-cast of line 324. *)
Lemma unsupported_pushdown_counterexample :
  plan_node_type (children1 one_row_seq_state) = PLAN_NODE_TYPE_SEQSCAN
  ∧ ∃ s', DExecute (Some eq_predicate) JOIN_TYPE_INNER 5 one_row_seq_state
          = Fault BadExecutorCast s'
          ∧ right_result_tiles_ s' = [[key_row 5]]
          ∧ child_output (children1 s') = [].
Proof. split; [reflexivity|]. eexists. vm_compute. repeat split; reflexivity. Qed.

(** ** The outer-completion emitter *)

Lemma visible_from_ge (k : oid_t) (t : LogicalTile) (i : oid_t) :
  In i (visible_from k t) → k ≤ i < k + length t.
Proof.
  revert k. induction t as [|[v tup] t IH]; intros k; simpl; [done|].
  destruct v; simpl.
  - intros [<-|Hin]; [lia|]. apply IH in Hin. lia.
  - intros Hin. apply IH in Hin. lia.
Qed.

Lemma visible_from_NoDup (k : oid_t) (t : LogicalTile) :
  List.NoDup (visible_from k t).
Proof.
  revert k. induction t as [|[v tup] t IH]; intros k; simpl.
  - constructor.
  - destruct v; [|apply IH]. constructor; [|apply IH].
    intros Hin. apply visible_from_ge in Hin. lia.
Qed.

Lemma tile_iter_NoDup (t : LogicalTile) : List.NoDup (tile_iter t).
Proof. apply visible_from_NoDup. Qed.

Lemma tile_iter_lt (t : LogicalTile) (i : oid_t) :
  In i (tile_iter t) → i < length t.
Proof. intros Hin. apply visible_from_ge in Hin. lia. Qed.

Lemma find_unmatched_Some (idx : nat) (tiles : list LogicalTile)
    (sets : list (list bool)) (b : nat) (rows : list oid_t) :
  find_unmatched idx tiles sets = Some (b, rows) →
  idx ≤ b ∧ rows ≠ [] ∧ List.NoDup rows.
Proof.
  revert idx sets. induction tiles as [|t tiles IH]; intros idx sets; [done|].
  simpl. destruct (unmatched_rows t (default [] (head sets))) as [|r rs] eqn:Hun.
  - intros H. apply IH in H as (? & ? & ?). split; [lia|done].
  - intros [= <- <-]. split; [lia|]. split; [done|].
    rewrite <- Hun. unfold unmatched_rows.
    apply List.NoDup_filter, tile_iter_NoDup.
Qed.

Lemma NoDup_map_inj {A B : Type} (f : A → B) (l : list A) :
  (∀ x y, f x = f y → x = y) → List.NoDup l → List.NoDup (map f l).
Proof.
  intros Hinj. induction 1 as [|x l Hx Hl IH]; simpl; constructor; [|done].
  intros Hin. apply in_map_iff in Hin as (y & Heq & Hy).
  apply Hinj in Heq as ->. done.
Qed.

Lemma emit_inv_quiet (s s' : State) : quiet s s' → emit_inv s → emit_inv s'.
Proof.
  intros (He & Hl & Hr & _) Hinv row. rewrite He, Hl, Hr. apply Hinv.
Qed.

Lemma BuildLeftJoinOutput_fresh (s : State) :
  emit_inv s →
  emit_inv (BuildLeftJoinOutput s).2 ∧ emits_fresh s (BuildLeftJoinOutput s).
Proof.
  intros Hinv. unfold BuildLeftJoinOutput, emits_fresh.
  destruct (find_unmatched _ _ _) as [[b rows]|] eqn:Hfind; [|done].
  apply find_unmatched_Some in Hfind as (Hb & Hne & Hnd).
  state_simpl. split.
  - intros row Hin. apply in_app_or in Hin as [Hin|Hin].
    + specialize (Hinv row Hin). destruct row as [[[b1 i1]|] [[b2 i2]|]];
        try done; state_simpl; lia.
    + apply in_map_iff in Hin as (i & <- & _). state_simpl. lia.
  - exists (map (λ i, (Some (b, i), None)) rows).
    split; [by destruct rows|]. split; [done|]. split; [done|].
    split; [apply NoDup_map_inj; [by intros x y [= ->]|done]|]. split.
    + intros row Hin Hold. apply in_map_iff in Hin as (i & <- & _).
      specialize (Hinv _ Hold). simpl in Hinv. lia.
    + intros row Hin. apply in_map_iff in Hin as (i & <- & _). by right.
Qed.

Lemma BuildRightJoinOutput_fresh (s : State) :
  emit_inv s →
  emit_inv (BuildRightJoinOutput s).2
  ∧ emits_fresh s (BuildRightJoinOutput s).
Proof.
  intros Hinv. unfold BuildRightJoinOutput, emits_fresh.
  destruct (find_unmatched _ _ _) as [[b rows]|] eqn:Hfind; [|done].
  apply find_unmatched_Some in Hfind as (Hb & Hne & Hnd).
  state_simpl. split.
  - intros row Hin. apply in_app_or in Hin as [Hin|Hin].
    + specialize (Hinv row Hin). destruct row as [[[b1 i1]|] [[b2 i2]|]];
        try done; state_simpl; lia.
    + apply in_map_iff in Hin as (i & <- & _). state_simpl. lia.
  - exists (map (λ i, (None, Some (b, i))) rows).
    split; [by destruct rows|]. split; [done|]. split; [done|].
    split; [apply NoDup_map_inj; [by intros x y [= ->]|done]|]. split.
    + intros row Hin Hold. apply in_map_iff in Hin as (i & <- & _).
      specialize (Hinv _ Hold). simpl in Hinv. lia.
    + intros row Hin. apply in_map_iff in Hin as (i & <- & _). by left.
Qed.

Lemma BuildOuterJoinOutput_fresh (join_type_ : JoinType) (s : State) :
  emit_inv s →
  emit_inv (BuildOuterJoinOutput join_type_ s).2
  ∧ emits_fresh s (BuildOuterJoinOutput join_type_ s).
Proof.
  intros Hinv. unfold BuildOuterJoinOutput. destruct join_type_.
  - done.
  - by apply BuildLeftJoinOutput_fresh.
  - by apply BuildRightJoinOutput_fresh.
  - destruct (BuildLeftJoinOutput_fresh s Hinv) as [Hinv1 Hfresh1].
    destruct (BuildLeftJoinOutput s) as [[] s1] eqn:Hl; simpl in *; [done|].
    unfold emits_fresh in Hfresh1; simpl in Hfresh1. subst s1.
    by apply BuildRightJoinOutput_fresh.
Qed.

(** ** What a call emits *)

Lemma quiet_refl (s : State) : quiet s s.
Proof. by repeat split. Qed.

Lemma quiet_trans (s1 s2 s3 : State) : quiet s1 s2 → quiet s2 s3 → quiet s1 s3.
Proof.
  unfold quiet. intros (?&?&?&?) (?&?&?&?). repeat split; congruence.
Qed.

Lemma pick_left_quiet (s s1 : State) (adv : bool) :
  pick_left s = (s1, adv) → quiet s s1.
Proof.
  unfold pick_left. destruct (left_child_done_ s).
  - simpl. case_decide; intros [= <- <-]; by repeat split.
  - destruct (Execute (children0 s)) as [[t|] c]; intros [= <- <-];
      by repeat split.
Qed.

Lemma BuildLeftJoinOutput_emits (s : State) :
  if (BuildLeftJoinOutput s).1 then
    ∃ tile, tile ≠ [] ∧ output_ (BuildLeftJoinOutput s).2 = Some tile
      ∧ emitted_ (BuildLeftJoinOutput s).2 = emitted_ s ++ tile
  else BuildLeftJoinOutput s = (false, s).
Proof.
  unfold BuildLeftJoinOutput.
  destruct (find_unmatched _ _ _) as [[b rows]|] eqn:Hfind; [|done].
  apply find_unmatched_Some in Hfind as (_ & Hne & _). simpl.
  eexists. split; [|done]. by destruct rows.
Qed.

Lemma BuildRightJoinOutput_emits (s : State) :
  if (BuildRightJoinOutput s).1 then
    ∃ tile, tile ≠ [] ∧ output_ (BuildRightJoinOutput s).2 = Some tile
      ∧ emitted_ (BuildRightJoinOutput s).2 = emitted_ s ++ tile
  else BuildRightJoinOutput s = (false, s).
Proof.
  unfold BuildRightJoinOutput.
  destruct (find_unmatched _ _ _) as [[b rows]|] eqn:Hfind; [|done].
  apply find_unmatched_Some in Hfind as (_ & Hne & _). simpl.
  eexists. split; [|done]. by destruct rows.
Qed.

Lemma BuildOuterJoinOutput_emits (join_type_ : JoinType) (s : State) :
  if (BuildOuterJoinOutput join_type_ s).1 then
    ∃ tile, tile ≠ []
      ∧ output_ (BuildOuterJoinOutput join_type_ s).2 = Some tile
      ∧ emitted_ (BuildOuterJoinOutput join_type_ s).2 = emitted_ s ++ tile
  else BuildOuterJoinOutput join_type_ s = (false, s).
Proof.
  unfold BuildOuterJoinOutput. destruct join_type_.
  - done.
  - apply BuildLeftJoinOutput_emits.
  - apply BuildRightJoinOutput_emits.
  - pose proof (BuildLeftJoinOutput_emits s) as Hl.
    destruct (BuildLeftJoinOutput s).1 eqn:H1.
    + simpl. by rewrite H1.
    + rewrite Hl. simpl. apply BuildRightJoinOutput_emits.
Qed.

Section Call_emission.

Context (predicate_ : option AbstractExpression) (join_type_ : JoinType).

Lemma Build_call_emission (s0 s : State) :
  quiet s0 s →
  call_emission s0 (returned (BuildOuterJoinOutput join_type_ s)).
Proof.
  intros Hq. pose proof (BuildOuterJoinOutput_emits join_type_ s) as Hem.
  unfold returned.
  destruct (BuildOuterJoinOutput join_type_ s).1 eqn:Hb.
  - destruct Hem as (tile & Hne & Hout & Hemit). simpl.
    exists tile. split; [done|]. split; [done|].
    pose proof Hq as (He & _). split; [by rewrite Hemit, He|].
    intros Hinv. apply BuildOuterJoinOutput_fresh.
    by apply (emit_inv_quiet s0).
  - rewrite Hem. simpl. done.
Qed.

Lemma finish_pair_call_emission (s0 s : State) (pos : PositionLists) :
  quiet s0 s → call_emission s0 (finish_pair (s, pos)).
Proof.
  intros Hq. unfold finish_pair. case_decide as Hlen; [|done]. simpl.
  eexists. split; [|split; [reflexivity|]].
  { destruct pos; [simpl in Hlen; lia|done]. }
  destruct Hq as (He & Hl & Hr & _).
  split; [by rewrite He|].
  intros Hinv row Hin. state_simpl. apply in_app_or in Hin as [Hin|Hin].
  - rewrite He in Hin. specialize (Hinv _ Hin). by rewrite Hl, Hr.
  - by apply in_map_iff in Hin as (q & <- & _).
Qed.

Lemma after_join_quiet (lt rt : LogicalTile) (s : State) :
  quiet s (after_join predicate_ lt rt s).
Proof. by repeat split. Qed.

Lemma lookup_right_loop_call_emission (fuel : nat) (s0 s : State) :
  quiet s0 s → call_emission s0 (lookup_right_loop join_type_ fuel s).
Proof.
  revert s. induction fuel as [|fuel IH]; intros s Hq; [done|]. simpl.
  destruct (Execute (children1 s)) as [[t|] c].
  - destruct (left_child_done_ s && _).
    + by apply Build_call_emission.
    + by apply IH.
  - destruct (left_child_done_ s); simpl; [done|]. by case_decide.
Qed.

Lemma probe_row_call_emission (lt : LogicalTile) (lrow : oid_t)
    (s0 s : State) :
  quiet s0 s → call_emission s0 (probe_row predicate_ join_type_ lt lrow s).
Proof.
  intros Hq. unfold probe_row. destruct predicate_ as [p|]; [|done].
  destruct (GetLeft p) as [[ti col|v|ty l r]|]; try done.
  unfold push_key. case_decide.
  - destruct (ReplaceKeyValue col _ (children1 s)) as [[] c]; [|done].
    destruct (right_child_done_ _ && _).
    + by apply Build_call_emission.
    + by apply lookup_right_loop_call_emission.
  - destruct (right_child_done_ _ && _).
    + by apply Build_call_emission.
    + by apply lookup_right_loop_call_emission.
Qed.

Lemma probe_rows_call_emission (lt : LogicalTile) (rows : list oid_t)
    (s0 s : State) :
  quiet s0 s → call_emission s0 (probe_rows predicate_ join_type_ lt rows s).
Proof.
  revert s. induction rows as [|lrow rows IH]; intros s Hq; [done|]. simpl.
  pose proof (probe_row_call_emission lt lrow s0 s Hq) as Hrow.
  destruct (probe_row predicate_ join_type_ lt lrow s); auto.
Qed.

Lemma DExecute_iteration_call_emission (s0 s : State) :
  quiet s0 s → call_emission s0 (DExecute_iteration predicate_ join_type_ s).
Proof.
  intros Hq. unfold DExecute_iteration.
  destruct (left_child_done_ s && right_child_done_ s).
  { by apply Build_call_emission. }
  destruct (pick_left s) as [s1 adv] eqn:Hpick.
  apply pick_left_quiet in Hpick.
  pose proof (quiet_trans _ _ _ Hq Hpick) as Hq1.
  destruct (left_result_tiles_ s1 !! left_result_itr_ s1) as [lt|]; [|done].
  pose proof (probe_rows_call_emission lt (tile_iter lt) s0 s1 Hq1) as Hprobe.
  destruct (probe_rows predicate_ join_type_ lt (tile_iter lt) s1)
    as [s2|b s2|k s2]; [|done..].
  simpl in Hprobe. destruct (_ && _).
  { by apply Build_call_emission. }
  destruct (last (right_result_tiles_ s2)) as [rt|]; [|done].
  rewrite join_tiles_eq. apply finish_pair_call_emission.
  eapply quiet_trans; [done|]. apply after_join_quiet.
Qed.

Lemma DExecute_call_emission (fuel : nat) (s0 s : State) :
  quiet s0 s → call_emission s0 (DExecute predicate_ join_type_ fuel s).
Proof.
  revert s. induction fuel as [|fuel IH]; intros s Hq; [done|]. simpl.
  pose proof (DExecute_iteration_call_emission s0 s Hq) as Hit.
  destruct (DExecute_iteration predicate_ join_type_ s); auto.
Qed.

Lemma Old_iteration_call_emission (s0 s : State) :
  quiet s0 s → call_emission s0 (Old_iteration predicate_ join_type_ s).
Proof.
  intros Hq. unfold Old_iteration.
  destruct (left_child_done_ s && right_child_done_ s).
  { by apply Build_call_emission. }
  destruct (pick_left s) as [s1 adv] eqn:Hpick.
  apply pick_left_quiet in Hpick.
  pose proof (quiet_trans _ _ _ Hq Hpick) as Hq1.
  assert (Hpair : ∀ s2, quiet s0 s2 →
    call_emission s0
      match last (right_result_tiles_ s2) with
      | Some right_tile =>
          match left_result_tiles_ s2 !! left_result_itr_ s2 with
          | Some left_tile =>
              finish_pair (join_tiles predicate_ left_tile right_tile s2)
          | None => Fault LeftIndexOutOfRange s2
          end
      | None => Fault RightBackOnEmpty s2
      end).
  { intros s2 Hq2. destruct (last _) as [rt|]; [|done].
    destruct (_ !! _) as [lt|]; [|done].
    rewrite join_tiles_eq. apply finish_pair_call_emission.
    eapply quiet_trans; [done|]. apply after_join_quiet. }
  destruct (adv || _); [|by apply Hpair].
  destruct (right_child_done_ s1 && _).
  { by apply Build_call_emission. }
  destruct (Execute (children1 s1)) as [[t|] c].
  - destruct (left_child_done_ _ && _).
    + by apply Build_call_emission.
    + by apply Hpair.
  - by apply Build_call_emission.
Qed.

Lemma Old_DExecute_call_emission (fuel : nat) (s0 s : State) :
  quiet s0 s → call_emission s0 (Old_DExecute predicate_ join_type_ fuel s).
Proof.
  revert s. induction fuel as [|fuel IH]; intros s Hq; [done|]. simpl.
  pose proof (Old_iteration_call_emission s0 s Hq) as Hit.
  destruct (Old_iteration predicate_ join_type_ s); auto.
Qed.

End Call_emission.

(** ** After both children are exhausted *)

Lemma emit_inv_init (left right : Executor) :
  emit_inv (init_state left right).
Proof. intros row []. Qed.

Lemma call_emission_emit_inv (s : State) (o : Outcome) :
  call_emission s o → emit_inv s → emit_inv (outcome_state o).
Proof.
  destruct o as [s'|[] s'|k s']; simpl.
  - apply emit_inv_quiet.
  - intros (tile & _ & _ & _ & H). exact H.
  - apply emit_inv_quiet.
  - apply emit_inv_quiet.
Qed.

(** The emission invariant holds from [DInit] on, whatever calls follow. *)
Lemma emit_inv_calls (predicate_ : option AbstractExpression)
    (join_type_ : JoinType) (fuel : nat) (s : State) :
  emit_inv s →
  emit_inv (outcome_state (DExecute predicate_ join_type_ fuel s))
  ∧ emit_inv (outcome_state (Old_DExecute predicate_ join_type_ fuel s)).
Proof.
  intros Hinv. split.
  - eapply call_emission_emit_inv; [|done].
    apply DExecute_call_emission, quiet_refl.
  - eapply call_emission_emit_inv; [|done].
    apply Old_DExecute_call_emission, quiet_refl.
Qed.

(** C7: in a state with both exhaustion flags set, a call of either loop
    is exactly a call of the outer-completion emitter.  It returns, never
    faults, and leaves both flags set, so that the same holds for every
    later call.  A successful return carries one tile of null-padded rows,
    none repeated and none emitted before; an exhaustion return changes
    nothing, so that it is terminal. *)
Theorem exhausted_calls_delegate (predicate_ : option AbstractExpression)
    (join_type_ : JoinType) (fuel : nat) (s : State) :
  left_child_done_ s = true →
  right_child_done_ s = true →
  emit_inv s →
  let r := BuildOuterJoinOutput join_type_ s in
  DExecute predicate_ join_type_ (S fuel) s = Returned r.1 r.2
  ∧ Old_DExecute predicate_ join_type_ (S fuel) s = Returned r.1 r.2
  ∧ left_child_done_ r.2 = true
  ∧ right_child_done_ r.2 = true
  ∧ emit_inv r.2
  ∧ emits_fresh s r.
Proof.
  intros Hld Hrd Hinv r.
  split; [|split].
  - cbn [DExecute]. unfold DExecute_iteration. by rewrite Hld, Hrd.
  - cbn [Old_DExecute]. unfold Old_iteration. by rewrite Hld, Hrd.
  - destruct (BuildOuterJoinOutput_frame join_type_ s)
      as (_ & _ & Hl & Hr & _).
    fold r in Hl, Hr. rewrite Hl, Hr.
    split; [done|]. split; [done|].
    by apply BuildOuterJoinOutput_fresh.
Qed.

(** On [left_outer_drained] the emitter has nothing left and the call reports
    exhaustion, leaving the state as it is. *)
Lemma exhausted_calls_delegate_witness :
  left_child_done_ left_outer_drained = true
  ∧ right_child_done_ left_outer_drained = true
  ∧ emitted_ left_outer_drained
    = [(Some (0, 0), Some (0, 0)); (Some (0, 1), None)]
  ∧ DExecute (Some eq_predicate) JOIN_TYPE_LEFT 1 left_outer_drained
    = Returned false left_outer_drained.
Proof.
  split; [reflexivity|]. split; [reflexivity|]. split; [reflexivity|].
  refine (proj1 (exhausted_calls_delegate (Some eq_predicate) JOIN_TYPE_LEFT
                   0 left_outer_drained _ _ _)).
  - reflexivity.
  - reflexivity.
  - intros row [<-|[<-|[]]]; vm_compute; lia.
Defined.

(** ** The correlated probe on three keys *)

(** C4 fails on [three_row_state], a left tile with the keys 5, 7 and 9
    against an index with one row for each.  The run makes two successful
    calls and ends by exhaustion.  All four lookups are buffered (keys 5, 7,
    9 and 5 again), but each call pairs the left tile with the last buffered
    right tile only: the output is the pair for key 9 and the pair for key
    5, and the pair for key 7 is missing from what the specification asks
    for. *)
Theorem correlated_probe_loses_pairs :
  let pred := Some eq_predicate in
  let r := run_calls (DExecute pred JOIN_TYPE_INNER 10) 5 three_row_state in
  let s := outcome_state r.2 in
  r.2 = Returned false s
  ∧ right_result_tiles_ s
    = [[key_row 5]; [key_row 7]; [key_row 9]; [key_row 5]]
  ∧ map (resolve s) (concat r.1)
    = [(Some [VInt 9], Some [VInt 9]); (Some [VInt 5], Some [VInt 5])]
  ∧ correlated_join pred 0 (index_table index_579)
                    [key_row 5; key_row 7; key_row 9]
    = [(Some [VInt 5], Some [VInt 5]); (Some [VInt 7], Some [VInt 7]);
       (Some [VInt 9], Some [VInt 9])]
  ∧ ¬ In (Some [VInt 7], Some [VInt 7]) (map (resolve s) (emitted_ s)).
Proof.
  vm_compute. repeat split; try reflexivity.
  intros [H|[H|[]]]; discriminate.
Qed.

(** C1 fails for [DExecute]: on [three_row_state] the run buffers four
    right tiles, but the matcher only ever visits the left tile against the
    right tiles 2 and 3; the right tiles 0 and 1 are never paired with the
    buffered left tile. *)
Lemma DExecute_pairing_counterexample :
  let pred := Some eq_predicate in
  let r := run_calls (DExecute pred JOIN_TYPE_INNER 10) 5 three_row_state in
  let s := outcome_state r.2 in
  r.2 = Returned false s
  ∧ length (left_result_tiles_ s) = 1
  ∧ length (right_result_tiles_ s) = 4
  ∧ eval_trace_ s
    = [(0, 0, 2, 0); (0, 1, 2, 0); (0, 2, 2, 0);
       (0, 0, 3, 0); (0, 1, 3, 0); (0, 2, 3, 0)]
  ∧ ¬ In (0, 1, 1, 0) (eval_trace_ s).
Proof.
  vm_compute. repeat split; try reflexivity.
  intros H. repeat (destruct H as [H|H]; [discriminate|]). destruct H.
Qed.

(** ** The old loop, iteration by iteration *)

Lemma pick_left_cases (s : State) :
  (left_child_done_ s = true
   ∧ pick_left s
     = (set_left_result_itr
          (if decide (length (left_result_tiles_ s) ≤ S (left_result_itr_ s))
           then 0 else S (left_result_itr_ s)) s,
        bool_decide (length (left_result_tiles_ s) ≤ S (left_result_itr_ s))))
  ∨ (left_child_done_ s = false
     ∧ ∃ t c, Execute (children0 s) = (Some t, c)
         ∧ pick_left s
           = (set_left_result_itr (length (left_result_tiles_ s))
                (BufferLeftTile t (set_children0 c s)), false))
  ∨ (left_child_done_ s = false
     ∧ ∃ c, Execute (children0 s) = (None, c)
         ∧ pick_left s
           = (set_left_result_itr 0
                (set_left_child_done true (set_children0 c s)), true)).
Proof.
  unfold pick_left. destruct (left_child_done_ s).
  - left. split; [done|]. state_simpl.
    case_decide as H; [by rewrite bool_decide_eq_true_2|].
    by rewrite bool_decide_eq_false_2.
  - right. destruct (Execute (children0 s)) as [[t|] c].
    + left. split; [done|]. exists t, c. split; [done|].
      state_simpl. rewrite length_app. simpl.
      by replace (length (left_result_tiles_ s) + 1 - 1)
        with (length (left_result_tiles_ s)) by lia.
    + right. split; [done|]. by exists c.
Qed.

Lemma Old_iteration_shape (predicate_ : option AbstractExpression)
    (join_type_ : JoinType) (s : State) :
  old_shape predicate_ join_type_ s (Old_iteration predicate_ join_type_ s).
Proof.
  unfold Old_iteration.
  destruct (left_child_done_ s && right_child_done_ s) eqn:Hdone.
  { by constructor. }
  destruct (pick_left s) as [s1 adv] eqn:Hpick.
  pose proof (pick_left_cursor _ _ _ Hpick) as Hcur.
  destruct (adv || bool_decide (right_result_tiles_ s1 = [])) eqn:Hadv.
  - assert (Hpull : adv = true ∨ right_result_tiles_ s1 = []).
    { apply orb_true_iff in Hadv as [?|H]; [by left|right].
      by apply bool_decide_eq_true in H. }
    destruct (right_child_done_ s1
              && bool_decide (right_result_tiles_ s1 = [])) eqn:Hre.
    { apply andb_true_iff in Hre as [Hrd Hnil].
      apply bool_decide_eq_true in Hnil. by eapply old_right_empty. }
    destruct (Execute (children1 s1)) as [[t|] c] eqn:Hex.
    + state_simpl.
      destruct (left_child_done_ s1
                && bool_decide (left_result_tiles_ s1 = [])) eqn:Hle.
      { apply andb_true_iff in Hle as [Hld Hnil].
        apply bool_decide_eq_true in Hnil. by eapply old_left_empty. }
      state_simpl. rewrite last_snoc. state_simpl.
      destruct Hcur as [(Hnil & _ & Hld & _)|Hlt].
      { by rewrite Hld, Hnil in Hle. }
      destruct (lookup_lt_is_Some_2 _ _ Hlt) as [lt Hlook].
      rewrite Hlook, join_tiles_eq. by eapply old_pair_pulled.
    + by eapply old_right_exhausted.
  - apply orb_false_iff in Hadv as [-> Hne].
    apply bool_decide_eq_false in Hne.
    destruct (last (right_result_tiles_ s1)) as [rt|] eqn:Hlast;
      [|by apply last_None in Hlast].
    destruct Hcur as [(_ & ? & _)|Hlt]; [done|].
    destruct (lookup_lt_is_Some_2 _ _ Hlt) as [lt Hlook].
    rewrite Hlook, join_tiles_eq. by eapply old_pair_buffered.
Qed.

Lemma old_measure_same_buffers (s s' : State) :
  same_buffers s s' → old_measure s' = old_measure s.
Proof.
  intros (H0 & H1 & Hl & Hr & Hlt & _ & Hi & _).
  unfold old_measure. by rewrite H0, H1, Hl, Hr, Hlt, Hi.
Qed.

Lemma old_measure_Build (join_type_ : JoinType) (s : State) :
  old_measure (outcome_state (returned (BuildOuterJoinOutput join_type_ s)))
  = old_measure s.
Proof. apply old_measure_same_buffers, BuildOuterJoinOutput_frame. Qed.

Lemma old_measure_finish_pair (predicate_ : option AbstractExpression)
    (lt rt : LogicalTile) (s : State) (pos : PositionLists) :
  old_measure
    (outcome_state (finish_pair (after_join predicate_ lt rt s, pos)))
  = old_measure s.
Proof. unfold finish_pair. by case_decide. Qed.

(** Every iteration before both children are done lowers the measure. *)
Lemma old_shape_measure (predicate_ : option AbstractExpression)
    (join_type_ : JoinType) (s : State) (o : Outcome) :
  old_shape predicate_ join_type_ s o →
  left_child_done_ s && right_child_done_ s = false →
  old_measure (outcome_state o) < old_measure s.
Proof.
  intros Hshape Hnd.
  assert (Hpick_cases := pick_left_cases s).
  destruct Hshape as [Hd|s1 adv _ Hpick Hrd Hrt|s1 adv c _ Hpick Hpull Hex
                      |s1 adv t c _ Hpick Hpull Hex Hld Hlt
                      |s1 adv t c lt _ Hpick Hpull Hex Hlook
                      |s1 lt rt _ Hpick Hlast Hlook];
    [congruence|..];
    rewrite ?old_measure_Build, ?old_measure_finish_pair;
    destruct Hpick_cases as [[Hl Hp]|[[Hl (t0 & c0 & Hex0 & Hp)]
                                     |[Hl (c0 & Hex0 & Hp)]]];
    rewrite Hp in Hpick; clear Hp; simplify_eq;
    try apply Execute_Some in Hex0 as [Hout0 _];
    try apply Execute_None in Hex0 as [Hout0 Hout0'];
    state_simpl;
    try apply Execute_Some in Hex as [Hout _];
    try apply Execute_None in Hex as [Hout Hout'];
    unfold old_measure; state_simpl;
    destruct (right_child_done_ s) eqn:Hrds;
    rewrite ?Hl in *; simpl in Hnd; try discriminate Hnd;
    try discriminate Hrd;
    rewrite ?Hout0, ?Hout0', ?Hout, ?Hout', ?length_app;
    unfold old_measure_of; simpl;
    repeat case_decide; repeat case_bool_decide;
    simpl in *; try done; try nia.
Qed.

(** A call of the old loop returns, with fuel above the measure. *)
Lemma Old_DExecute_returns (predicate_ : option AbstractExpression)
    (join_type_ : JoinType) (fuel : nat) (s : State) :
  old_measure s < fuel →
  ∃ b s', Old_DExecute predicate_ join_type_ fuel s = Returned b s'
    ∧ old_measure s' ≤ old_measure s
    ∧ (left_child_done_ s && right_child_done_ s = false →
       old_measure s' < old_measure s).
Proof.
  revert s. induction fuel as [|fuel IH]; intros s Hfuel; [lia|].
  cbn [Old_DExecute].
  pose proof (Old_iteration_shape predicate_ join_type_ s) as Hshape.
  pose proof (Old_iteration_safe predicate_ join_type_ s) as Hsafe.
  destruct (left_child_done_ s && right_child_done_ s) eqn:Hdone.
  - unfold Old_iteration. rewrite Hdone. unfold returned.
    eexists _, _. split; [done|]. split; [|done].
    pose proof (old_measure_Build join_type_ s) as Hm. simpl in Hm. lia.
  - pose proof (old_shape_measure _ _ _ _ Hshape Hdone) as Hlt.
    destruct (Old_iteration predicate_ join_type_ s) as [s1|b s1|k s1];
      simpl in Hlt.
    + destruct (IH s1) as (b & s' & Hrun & Hle & _); [lia|].
      exists b, s'. split; [done|]. split; [lia|]. intros _. lia.
    + exists b, s1. split; [done|]. split; [lia|]. done.
    + by destruct (Hsafe k s1).
Qed.

(** ** The trace of the old loop *)

Section Old_trace.

Context (Ls Rs : list LogicalTile).

Local Abbreviation pv := (pair_visits Ls Rs).
Local Abbreviation cv := (column_visits Ls Rs).
Local Abbreviation fv := (full_visits Ls Rs).

Lemma column_visits_S (j n : nat) : cv j (S n) = cv j n ++ pv n j.
Proof.
  unfold column_visits. rewrite seq_S, flat_map_app. simpl.
  by rewrite app_nil_r.
Qed.

Lemma full_visits_S (m : nat) : fv (S m) = fv m ++ cv m (length Ls).
Proof.
  unfold full_visits. rewrite seq_S, flat_map_app. simpl.
  by rewrite app_nil_r.
Qed.

Lemma full_visits_no_left (m : nat) : length Ls = 0 → fv m = [].
Proof.
  intros H0. induction m as [|m IH]; [done|].
  rewrite full_visits_S, IH, H0. done.
Qed.

Lemma tile_at_app_l (tiles rest : list LogicalTile) (i : nat)
    (t : LogicalTile) :
  tiles !! i = Some t → tile_at (tiles ++ rest) i = t.
Proof. intros H. unfold tile_at. by rewrite (lookup_app_l_Some _ _ _ _ H). Qed.

Lemma tile_at_middle (tiles rest : list LogicalTile) (t : LogicalTile) :
  tile_at (tiles ++ t :: rest) (length tiles) = t.
Proof. unfold tile_at. by rewrite list_lookup_middle. Qed.

Lemma tile_at_last (tiles rest : list LogicalTile) (t : LogicalTile) :
  last tiles = Some t → tile_at (tiles ++ rest) (length tiles - 1) = t.
Proof.
  intros H. apply tile_at_app_l. rewrite last_lookup in H.
  by replace (length tiles - 1) with (pred (length tiles)) by lia.
Qed.

Lemma old_inv_same_buffers (s s' : State) :
  same_buffers s s' → old_inv Ls Rs s → old_inv Ls Rs s'.
Proof.
  intros (H0 & H1 & Hl & Hr & Hlt & Hrt & Hi & _ & _ & Htr).
  unfold old_inv. by rewrite H0, H1, Hl, Hr, Hlt, Hrt, Hi, Htr.
Qed.

Lemma old_inv_init (left right : Executor) :
  Ls = child_output left → Rs = child_output right →
  old_inv Ls Rs (init_state left right).
Proof.
  intros -> ->. unfold old_inv; simpl. repeat split; try done. auto.
Qed.

(** When the emitter is reached, every pairing has been made. *)
Lemma old_inv_complete (s : State) :
  old_inv Ls Rs s →
  right_child_done_ s = true
  ∨ (left_child_done_ s = true ∧ left_result_tiles_ s = []) →
  eval_trace_ s = expected_trace Ls Rs.
Proof.
  intros (HLs & HRs & Hlo & Hro & Htr & Hff & Hft & Htf) Hend.
  rewrite Htr. unfold progress_trace, expected_trace.
  destruct Hend as [Hrd|[Hld Hnil]].
  - rewrite Hrd in *. specialize (Hro eq_refl).
    assert (HnR : length Rs = length (right_result_tiles_ s)).
    { by rewrite HRs, Hro, app_nil_r at 1. }
    rewrite HnR. case_decide as Hz; [|done].
    destruct (left_child_done_ s) eqn:Hld.
    + specialize (Hlo eq_refl). destruct Hz as [Hz|Hz].
      * rewrite full_visits_no_left; [done|].
        by rewrite HLs, Hlo, app_nil_r.
      * by rewrite Hz.
    + specialize (Hft eq_refl eq_refl). by rewrite Hft.
  - rewrite Hld in *. specialize (Hlo eq_refl).
    rewrite decide_True by (left; by rewrite Hnil).
    rewrite full_visits_no_left; [done|]. by rewrite HLs, Hlo, Hnil.
Qed.

Lemma finish_pair_same_buffers (s : State) (pos : PositionLists) :
  same_buffers s (outcome_state (finish_pair (s, pos))).
Proof. unfold finish_pair. case_decide; by repeat split. Qed.

(** How one pairing, or the exhaustion of the right child, moves the
    expected trace. *)
Lemma progress_zero (ld rd : bool) (nl nr itr : nat) :
  nl = 0 ∨ nr = 0 → progress_trace Ls Rs ld rd nl nr itr = [].
Proof. intros H. unfold progress_trace. by rewrite decide_True. Qed.

Lemma progress_first_pair (nl nr itr : nat) :
  nl = 0 → nr = 0 →
  progress_trace Ls Rs false false nl nr itr ++ pv nl nr
  = progress_trace Ls Rs false false (S nl) (S nr) nl.
Proof.
  intros -> ->. unfold progress_trace.
  rewrite decide_True, decide_False by lia. by rewrite column_visits_S.
Qed.

Lemma progress_pair_left (nl nr itr : nat) :
  1 ≤ nl → nr = 1 →
  progress_trace Ls Rs false false nl nr itr ++ pv nl (nr - 1)
  = progress_trace Ls Rs false false (S nl) nr nl.
Proof.
  intros Hnl ->. unfold progress_trace. rewrite !decide_False by lia.
  by rewrite column_visits_S.
Qed.

Lemma progress_left_exhausted (nl nr itr : nat) :
  1 ≤ nl → nr = 1 → nl = length Ls →
  progress_trace Ls Rs false false nl nr itr
  = progress_trace Ls Rs true true nl nr 0.
Proof.
  intros Hnl -> ->. unfold progress_trace. rewrite !decide_False by lia.
  by rewrite (full_visits_S 0).
Qed.

Lemma progress_turn (nl nr itr : nat) :
  1 ≤ nl → nr = 1 → nl = length Ls →
  progress_trace Ls Rs false false nl nr itr ++ pv 0 nr
  = progress_trace Ls Rs true false nl (S nr) 0.
Proof.
  intros Hnl -> ->. unfold progress_trace. rewrite !decide_False by lia.
  simpl. by rewrite (full_visits_S 0), (column_visits_S 1 0).
Qed.

Lemma progress_pair_same (nl nr itr : nat) :
  1 ≤ nr → S itr < nl →
  progress_trace Ls Rs true false nl nr itr ++ pv (S itr) (nr - 1)
  = progress_trace Ls Rs true false nl nr (S itr).
Proof.
  intros Hnr Hitr. unfold progress_trace. rewrite !decide_False by lia.
  by rewrite (column_visits_S _ (S itr)), app_assoc.
Qed.

Lemma progress_column_done (nl nr itr : nat) :
  1 ≤ nr → nl = length Ls → S itr = nl →
  progress_trace Ls Rs true false nl nr itr
  = progress_trace Ls Rs true true nl nr 0.
Proof.
  intros Hnr Hnl Hitr. unfold progress_trace.
  rewrite !decide_False by lia.
  destruct nr as [|m]; [lia|]. rewrite full_visits_S. simpl.
  by rewrite Nat.sub_0_r, Hitr, Hnl.
Qed.

Lemma progress_pair_next (nl nr itr : nat) :
  1 ≤ nr → nl = length Ls → S itr = nl →
  progress_trace Ls Rs true false nl nr itr ++ pv 0 nr
  = progress_trace Ls Rs true false nl (S nr) 0.
Proof.
  intros Hnr Hnl Hitr. rewrite progress_column_done by done.
  unfold progress_trace. rewrite !decide_False by lia. simpl.
  by rewrite Nat.sub_0_r, (column_visits_S nr 0).
Qed.

Lemma visited_as_pair (i j : nat) (lt rt : LogicalTile) :
  Ls !! i = Some lt → Rs !! j = Some rt →
  visited_pairs lt rt i j = pv i j.
Proof.
  intros Hl Hr. unfold pair_visits.
  assert (tile_at Ls i = lt) as -> by exact (f_equal (default []) Hl).
  assert (tile_at Rs j = rt) as -> by exact (f_equal (default []) Hr).
  done.
Qed.

Lemma old_shape_inv (predicate_ : option AbstractExpression)
    (join_type_ : JoinType) (s : State) (o : Outcome) :
  old_shape predicate_ join_type_ s o →
  old_inv Ls Rs s → old_inv Ls Rs (outcome_state o).
Proof.
  intros Hshape Hinv.
  assert (Hpick_cases := pick_left_cases s).
  destruct Hshape as [Hd|s1 adv Hnd Hpick Hrd Hrt
                      |s1 adv c Hnd Hpick Hpull Hex
                      |s1 adv t c Hnd Hpick Hpull Hex Hld Hlt
                      |s1 adv t c lt Hnd Hpick Hpull Hex Hlook
                      |s1 lt rt Hnd Hpick Hlast Hlook].
  { eapply old_inv_same_buffers; [apply BuildOuterJoinOutput_frame|done]. }
  all: try (eapply old_inv_same_buffers;
            [apply BuildOuterJoinOutput_frame|]).
  all: try (eapply old_inv_same_buffers;
            [apply finish_pair_same_buffers|]).
  all: destruct Hpick_cases as [[Hl Hp]|[[Hl (t0 & c0 & Hex0 & Hp)]
                                        |[Hl (c0 & Hex0 & Hp)]]];
    rewrite Hp in Hpick; clear Hp; simplify_eq;
    try apply Execute_Some in Hex0 as [Hout0 _];
    try apply Execute_None in Hex0 as [Hout0 Hout0'];
    state_simpl;
    try apply Execute_Some in Hex as [Hout _];
    try apply Execute_None in Hex as [Hout Hout'];
    destruct Hinv as (HLs & HRs & Hlo & Hro & Htr & Hff & Hft & Htf);
    unfold old_inv, after_join; state_simpl;
    rewrite ?Hl in *; simpl in Hnd;
    destruct (right_child_done_ s) eqn:Hrds; try discriminate;
    repeat match goal with
           | H : ?b = ?b → _ |- _ => specialize (H eq_refl)
           | H : true = false → _ |- _ => clear H
           | H : false = true → _ |- _ => clear H
           end;
    try (rewrite Hro in Hout; discriminate Hout);
    try (apply lookup_lt_Some in Hlook as Hlen);
    try (assert (Hnr : 1 ≤ length (right_result_tiles_ s))
           by (destruct (right_result_tiles_ s); [done|simpl; lia]));
    try (destruct Hpull as [Hadv|Hnil];
         [try discriminate Hadv; try apply bool_decide_eq_true in Hadv
         |try (apply (f_equal length) in Hnil; simpl in Hnil)]);
    rewrite ?length_app in *; simpl length in *;
    rewrite ?Nat.add_1_r in *;
    repeat case_decide; try lia.
  all: try (apply (f_equal length) in Hlt as Hlt0; simpl in Hlt0).
  all: destruct_or?; destruct_and?; try lia.
  all: split_and!; intros; try done; try lia;
    try (by rewrite ?HLs, ?HRs, ?Hlo, ?Hro, ?Hout0, ?Hout0', ?Hout, ?Hout',
              <- ?app_assoc).
  all: assert (HnL : child_output (children0 s) = [] →
                     length (left_result_tiles_ s) = length Ls)
         by (intros Hnone; by rewrite HLs, Hnone, app_nil_r).
  all: try (rewrite Htr;
            first [ by rewrite !progress_zero by lia
                  | apply progress_column_done; [lia|by auto|lia]
                  | apply progress_left_exhausted; [lia|lia|by auto] ]).
  all: match goal with
       | Hlook : _ !! ?i = Some ?lt |- context [visited_pairs ?lt _ _ _] =>
           assert (HL : Ls !! i = Some lt)
             by (rewrite HLs, ?Hout0;
                 first [ by apply lookup_app_l_Some
                       | by rewrite cons_middle, app_assoc;
                            apply lookup_app_l_Some ])
       end.
  all: match goal with
       | Hout : child_output (children1 ?x) = ?t :: _
         |- context [visited_pairs _ ?t _ _] =>
           assert (HR : Rs !! length (right_result_tiles_ x) = Some t)
             by (rewrite HRs, Hout; by apply list_lookup_middle)
       | Hlast : last (right_result_tiles_ ?x) = Some ?rt
         |- context [visited_pairs _ ?rt _ _] =>
           assert (HR : Rs !! (length (right_result_tiles_ x) - 1) = Some rt)
             by (rewrite HRs; apply lookup_app_l_Some;
                 by rewrite Nat.sub_1_r, <- last_lookup)
       end.
  all: rewrite ?Nat.sub_succ, ?Nat.sub_0_r;
       rewrite (visited_as_pair _ _ _ _ HL HR), Htr.
  - apply progress_pair_next; [lia|by auto|lia].
  - apply progress_first_pair; lia.
  - apply progress_turn; [lia|lia|by auto].
  - apply progress_pair_same; lia.
  - apply progress_pair_left; lia.
Qed.

(** A [false] return of an iteration comes from the emitter, reached
    with the right child done or with no left tile at all. *)
Lemma old_shape_false (predicate_ : option AbstractExpression)
    (join_type_ : JoinType) (s : State) (s' : State) :
  old_shape predicate_ join_type_ s (Returned false s') →
  right_child_done_ s' = true
  ∨ (left_child_done_ s' = true ∧ left_result_tiles_ s' = []).
Proof.
  intros Hshape.
  assert (Hb : ∀ x b, returned (BuildOuterJoinOutput join_type_ x)
                      = Returned b s' →
               right_child_done_ s' = right_child_done_ x
               ∧ left_child_done_ s' = left_child_done_ x
               ∧ left_result_tiles_ s' = left_result_tiles_ x).
  { intros x b [= _ <-].
    by destruct (BuildOuterJoinOutput_frame join_type_ x)
      as (_ & _ & -> & -> & -> & _). }
  remember (Returned false s') as o eqn:Ho.
  destruct Hshape as [Hd|s1 adv Hnd Hpick Hrd Hrt
                      |s1 adv c Hnd Hpick Hpull Hex
                      |s1 adv t c Hnd Hpick Hpull Hex Hld Hlt
                      |s1 adv t c lt Hnd Hpick Hpull Hex Hlook
                      |s1 lt rt Hnd Hpick Hlast Hlook].
  - apply Hb in Ho as (-> & _). left.
    by apply andb_true_iff in Hd as [_ ->].
  - apply Hb in Ho as (-> & _). by left.
  - apply Hb in Ho as (-> & _). by left.
  - apply Hb in Ho as (_ & -> & ->). by right.
  - unfold finish_pair in Ho. by case_decide.
  - unfold finish_pair in Ho. by case_decide.
Qed.

Lemma Old_DExecute_inv (predicate_ : option AbstractExpression)
    (join_type_ : JoinType) (fuel : nat) (s : State) :
  old_inv Ls Rs s →
  old_inv Ls Rs (outcome_state (Old_DExecute predicate_ join_type_ fuel s))
  ∧ ∀ s', Old_DExecute predicate_ join_type_ fuel s = Returned false s' →
          eval_trace_ s' = expected_trace Ls Rs.
Proof.
  revert s. induction fuel as [|fuel IH]; intros s Hinv; [done|].
  cbn [Old_DExecute].
  pose proof (Old_iteration_shape predicate_ join_type_ s) as Hshape.
  pose proof (old_shape_inv _ _ _ _ Hshape Hinv) as Hinv1.
  destruct (Old_iteration predicate_ join_type_ s) as [s1|b s1|k s1] eqn:Hit;
    simpl in Hinv1.
  - by apply IH.
  - split; [done|]. intros s' [= -> ->].
    apply old_inv_complete; [done|]. by eapply old_shape_false.
  - done.
Qed.

Lemma run_calls_inv (predicate_ : option AbstractExpression)
    (join_type_ : JoinType) (fuel calls : nat) (s : State) :
  old_inv Ls Rs s →
  ∀ s', (run_calls (Old_DExecute predicate_ join_type_ fuel) calls s).2
        = Returned false s' →
        eval_trace_ s' = expected_trace Ls Rs.
Proof.
  revert s. induction calls as [|calls IH]; intros s Hinv s'; [done|].
  cbn [run_calls].
  destruct (Old_DExecute_inv predicate_ join_type_ fuel s Hinv)
    as [Hinv1 Hfalse].
  destruct (Old_DExecute predicate_ join_type_ fuel s) as [s1|[] s1|k s1];
    simpl in *; try done.
  - by apply IH.
  - intros [= ->]. by apply Hfalse.
Qed.

End Old_trace.

(** ** The run of the old loop ends *)

Lemma find_unmatched_lt (idx : nat) (tiles : list LogicalTile)
    (sets : list (list bool)) (b : nat) (rows : list oid_t) :
  find_unmatched idx tiles sets = Some (b, rows) → b < idx + length tiles.
Proof.
  revert idx sets. induction tiles as [|t tiles IH]; intros idx sets; [done|].
  simpl. destruct (unmatched_rows t (default [] (head sets))).
  - intros H. apply IH in H. lia.
  - intros [= <- <-]. lia.
Qed.

Lemma BuildLeftJoinOutput_measure (s : State) :
  (BuildLeftJoinOutput s).1 = true →
  emit_measure (BuildLeftJoinOutput s).2 < emit_measure s.
Proof.
  unfold BuildLeftJoinOutput.
  destruct (find_unmatched _ _ _) as [[b rows]|] eqn:Hfind; [|done].
  intros _. pose proof (find_unmatched_Some _ _ _ _ _ Hfind) as (Hge & _).
  apply find_unmatched_lt in Hfind. rewrite length_drop in Hfind.
  unfold emit_measure; simpl. lia.
Qed.

Lemma BuildRightJoinOutput_measure (s : State) :
  (BuildRightJoinOutput s).1 = true →
  emit_measure (BuildRightJoinOutput s).2 < emit_measure s.
Proof.
  unfold BuildRightJoinOutput.
  destruct (find_unmatched _ _ _) as [[b rows]|] eqn:Hfind; [|done].
  intros _. pose proof (find_unmatched_Some _ _ _ _ _ Hfind) as (Hge & _).
  apply find_unmatched_lt in Hfind. rewrite length_drop in Hfind.
  unfold emit_measure; simpl. lia.
Qed.

Lemma BuildOuterJoinOutput_measure (join_type_ : JoinType) (s : State) :
  (BuildOuterJoinOutput join_type_ s).1 = true →
  emit_measure (BuildOuterJoinOutput join_type_ s).2 < emit_measure s.
Proof.
  unfold BuildOuterJoinOutput. destruct join_type_.
  - done.
  - apply BuildLeftJoinOutput_measure.
  - apply BuildRightJoinOutput_measure.
  - pose proof (BuildLeftJoinOutput_emits s) as Hl.
    destruct (BuildLeftJoinOutput s).1 eqn:H1.
    + simpl. intros _. by apply BuildLeftJoinOutput_measure.
    + rewrite Hl. simpl. apply BuildRightJoinOutput_measure.
Qed.

Section Run_ends.

Context (predicate_ : option AbstractExpression) (join_type_ : JoinType).

(** With both children done the run is the emitter's, and ends. *)
Lemma emitter_run_ends (k : nat) (fuel : nat) (s : State) :
  left_child_done_ s = true → right_child_done_ s = true →
  emit_measure s ≤ k →
  ∃ calls s',
    (run_calls (Old_DExecute predicate_ join_type_ (S fuel)) calls s).2
    = Returned false s'.
Proof.
  revert s. induction k as [|k IH]; intros s Hld Hrd Hk.
  - exists 1. cbn [run_calls Old_DExecute]. unfold Old_iteration.
    rewrite Hld, Hrd. simpl.
    pose proof (BuildOuterJoinOutput_measure join_type_ s) as Hm.
    destruct (BuildOuterJoinOutput join_type_ s) as [[] s1]; simpl in *.
    + specialize (Hm eq_refl). lia.
    + by eexists.
  - pose proof (BuildOuterJoinOutput_measure join_type_ s) as Hm.
    pose proof (BuildOuterJoinOutput_frame join_type_ s)
      as (_ & _ & Hl1 & Hr1 & _).
    destruct (BuildOuterJoinOutput join_type_ s) as [[] s1] eqn:Hb;
      simpl in *.
    + destruct (IH s1) as (calls & s' & Hrun); [congruence..|lia|].
      exists (S calls), s'. cbn [run_calls Old_DExecute].
      unfold Old_iteration. rewrite Hld, Hrd. simpl. rewrite Hb. simpl.
      exact Hrun.
    + exists 1, s1. cbn [run_calls Old_DExecute]. unfold Old_iteration.
      rewrite Hld, Hrd. simpl. by rewrite Hb.
Qed.

(** The caller's loop over the old executor ends with an exhaustion
    signal, whatever state it starts in. *)
Lemma old_run_ends (m : nat) (fuel : nat) (s : State) :
  old_measure s ≤ m → old_measure s < fuel →
  ∃ calls s',
    (run_calls (Old_DExecute predicate_ join_type_ fuel) calls s).2
    = Returned false s'.
Proof.
  revert s. induction m as [|m IH]; intros s Hm Hfuel.
  - destruct fuel as [|fuel]; [lia|].
    destruct (left_child_done_ s && right_child_done_ s) eqn:Hdone.
    + apply andb_true_iff in Hdone as [Hld Hrd].
      by eapply emitter_run_ends.
    + exfalso. revert Hm. unfold old_measure, old_measure_of.
      rewrite Hdone. destruct (left_child_done_ s); lia.
  - destruct (left_child_done_ s && right_child_done_ s) eqn:Hdone.
    + destruct fuel as [|fuel]; [lia|].
      apply andb_true_iff in Hdone as [Hld Hrd].
      by eapply emitter_run_ends.
    + destruct (Old_DExecute_returns predicate_ join_type_ fuel s Hfuel)
        as (b & s1 & Hcall & _ & Hlt).
      specialize (Hlt Hdone). destruct b.
      * destruct (IH s1) as (calls & s' & Hrun); [lia..|].
        exists (S calls), s'. cbn [run_calls]. rewrite Hcall. exact Hrun.
      * exists 1, s1. cbn [run_calls]. by rewrite Hcall.
Qed.

End Run_ends.

(** ** The expected trace holds every combination once *)

Lemma NoDup_flat_map {A B : Type} (f : A → list B) (l : list A) :
  List.NoDup l →
  (∀ x, In x l → List.NoDup (f x)) →
  (∀ x y b, In x l → In y l → In b (f x) → In b (f y) → x = y) →
  List.NoDup (List.flat_map f l).
Proof.
  induction 1 as [|x l Hx Hl IH]; intros Hf Hdisj; simpl; [constructor|].
  apply List.NoDup_app.
  - apply Hf. by left.
  - apply IH.
    + intros y Hy. apply Hf. by right.
    + intros y z b Hy Hz. apply Hdisj; by right.
  - intros b Hb Hin. apply in_flat_map in Hin as (y & Hy & Hby).
    assert (x = y) as -> by (apply (Hdisj x y b); auto; [by left|by right]).
    done.
Qed.

Lemma visited_pairs_In (lt rt : LogicalTile) (lb rb : nat)
    (i : nat) (a : oid_t) (j : nat) (b : oid_t) :
  In (i, a, j, b) (visited_pairs lt rt lb rb)
  ↔ i = lb ∧ j = rb ∧ In a (tile_iter lt) ∧ In b (tile_iter rt).
Proof.
  unfold visited_pairs. rewrite in_flat_map. split.
  - intros (rrow & Hr & Hin). apply in_map_iff in Hin as (lrow & Heq & Hlr).
    by simplify_eq.
  - intros (-> & -> & Ha & Hb). exists b. split; [done|].
    apply in_map_iff. by exists a.
Qed.

Lemma visited_pairs_NoDup (lt rt : LogicalTile) (lb rb : nat) :
  List.NoDup (visited_pairs lt rt lb rb).
Proof.
  unfold visited_pairs. apply NoDup_flat_map.
  - apply tile_iter_NoDup.
  - intros rrow _. apply NoDup_map_inj; [|apply tile_iter_NoDup].
    by intros x y [= ->].
  - intros x y b _ _ Hx Hy.
    apply in_map_iff in Hx as (? & <- & _).
    apply in_map_iff in Hy as (? & Heq & _). by simplify_eq.
Qed.

Section Expected_facts.

Context (Ls Rs : list LogicalTile).

Lemma column_visits_In (j' n : nat) (i : nat) (a : oid_t) (j : nat)
    (b : oid_t) :
  In (i, a, j, b) (column_visits Ls Rs j' n)
  ↔ j = j' ∧ i < n
    ∧ In a (tile_iter (tile_at Ls i)) ∧ In b (tile_iter (tile_at Rs j)).
Proof.
  unfold column_visits, pair_visits. rewrite in_flat_map. split.
  - intros (i' & Hi' & Hin). apply in_seq in Hi'.
    apply visited_pairs_In in Hin as (-> & -> & ? & ?).
    repeat split; [lia|done..].
  - intros (-> & Hi & Ha & Hb). exists i. split; [apply in_seq; lia|].
    by apply visited_pairs_In.
Qed.

Lemma full_visits_In (m : nat) (i : nat) (a : oid_t) (j : nat) (b : oid_t) :
  In (i, a, j, b) (full_visits Ls Rs m)
  ↔ j < m ∧ i < length Ls
    ∧ In a (tile_iter (tile_at Ls i)) ∧ In b (tile_iter (tile_at Rs j)).
Proof.
  unfold full_visits. rewrite in_flat_map. split.
  - intros (j' & Hj' & Hin). apply in_seq in Hj'.
    apply column_visits_In in Hin as (-> & ? & ? & ?).
    repeat split; [lia|done..].
  - intros (Hj & Hi & Ha & Hb). exists j. split; [apply in_seq; lia|].
    by apply column_visits_In.
Qed.

Lemma column_visits_NoDup (j n : nat) :
  List.NoDup (column_visits Ls Rs j n).
Proof.
  unfold column_visits. apply NoDup_flat_map.
  - apply seq_NoDup.
  - intros i _. apply visited_pairs_NoDup.
  - intros x y [[[i a] j'] b] _ _ Hx Hy.
    apply visited_pairs_In in Hx as (-> & _).
    by apply visited_pairs_In in Hy as (-> & _).
Qed.

Lemma full_visits_NoDup (m : nat) : List.NoDup (full_visits Ls Rs m).
Proof.
  unfold full_visits. apply NoDup_flat_map.
  - apply seq_NoDup.
  - intros j _. apply column_visits_NoDup.
  - intros x y [[[i a] j'] b] _ _ Hx Hy.
    apply column_visits_In in Hx as (-> & _).
    by apply column_visits_In in Hy as (-> & _).
Qed.

Lemma tile_at_In (tiles : list LogicalTile) (i : nat) (a : oid_t) :
  In a (tile_iter (tile_at tiles i))
  ↔ ∃ t, tiles !! i = Some t ∧ In a (tile_iter t).
Proof.
  unfold tile_at. destruct (tiles !! i) as [t|]; simpl.
  - split; [by exists t|]. by intros (t' & [= <-] & ?).
  - split; [done|]. by intros (t' & ? & ?).
Qed.

Lemma expected_trace_In (i : nat) (a : oid_t) (j : nat) (b : oid_t) :
  In (i, a, j, b) (expected_trace Ls Rs)
  ↔ ∃ lt rt, Ls !! i = Some lt ∧ Rs !! j = Some rt
             ∧ In a (tile_iter lt) ∧ In b (tile_iter rt).
Proof.
  unfold expected_trace. rewrite full_visits_In, !tile_at_In. split.
  - intros (_ & _ & (lt & ? & ?) & (rt & ? & ?)). by exists lt, rt.
  - intros (lt & rt & Hl & Hr & Ha & Hb).
    split; [by eapply lookup_lt_Some|]. split; [by eapply lookup_lt_Some|].
    split; [by exists lt|by exists rt].
Qed.

End Expected_facts.

(** ** Every combination exactly once, in the old loop *)

(** C1, for the materialising loop: whatever the two children produce,
    the caller's loop over [Old_DExecute] ends with an exhaustion signal;
    whenever it does, the matcher has visited exactly the expected trace,
    in its order: the right tiles one after the other, each against every
    left tile in buffer order.  That trace holds a row pair if and only if
    its rows are visible rows of a left and of a right tile, and holds none
    twice. *)
Theorem Old_DExecute_pairs_every_combination_once
    (predicate_ : option AbstractExpression) (join_type_ : JoinType)
    (left right : Executor) :
  let Ls := child_output left in
  let Rs := child_output right in
  let s0 := init_state left right in
  (∃ calls s',
     (run_calls (Old_DExecute predicate_ join_type_ (S (old_measure s0)))
                calls s0).2 = Returned false s')
  ∧ (∀ fuel calls s',
       (run_calls (Old_DExecute predicate_ join_type_ fuel) calls s0).2
       = Returned false s' →
       eval_trace_ s' = expected_trace Ls Rs)
  ∧ List.NoDup (expected_trace Ls Rs)
  ∧ (∀ i a j b,
       In (i, a, j, b) (expected_trace Ls Rs)
       ↔ ∃ lt rt, Ls !! i = Some lt ∧ Rs !! j = Some rt
                  ∧ In a (tile_iter lt) ∧ In b (tile_iter rt)).
Proof.
  intros Ls Rs s0. split; [|split; [|split]].
  - eapply old_run_ends; [reflexivity|lia].
  - intros fuel calls s'. apply run_calls_inv. by apply old_inv_init.
  - exact (full_visits_NoDup Ls Rs (length Rs)).
  - exact (expected_trace_In Ls Rs).
Qed.

(** ** The probe loop ends *)

Lemma first_rowful_lt (tiles : list LogicalTile) (d : nat) :
  first_rowful tiles = Some d → d < length tiles.
Proof.
  revert d. induction tiles as [|t tiles IH]; intros d; [done|]. simpl.
  destruct (tile_iter t); [|intros [= <-]; lia].
  destruct (first_rowful tiles) as [d'|]; [|done].
  intros [= <-]. specialize (IH d' eq_refl). lia.
Qed.

Lemma first_rowful_lookup (tiles : list LogicalTile) (i : nat)
    (t : LogicalTile) :
  tiles !! i = Some t → tile_iter t ≠ [] → is_Some (first_rowful tiles).
Proof.
  revert i. induction tiles as [|t' tiles IH]; intros i; [done|].
  destruct i as [|i]; simpl.
  - intros [= ->] Hrows. by destruct (tile_iter t).
  - intros Hl Hrows. destruct (tile_iter t'); [|done].
    destruct (IH i Hl Hrows) as [d ->]. done.
Qed.

Lemma first_rowful_app (tiles : list LogicalTile) (t : LogicalTile) :
  is_Some (first_rowful tiles) → is_Some (first_rowful (tiles ++ [t])).
Proof.
  induction tiles as [|t' tiles IH]; simpl; [by intros [? ?]|].
  destruct (tile_iter t'); [|done].
  intros [d Hd]. destruct (first_rowful tiles) as [d'|]; [|done].
  by destruct IH as [d'' ->].
Qed.

Lemma cyc_dist_bound (tiles : list LogicalTile) (itr : nat) :
  cyc_dist tiles itr ≤ 2 * length tiles.
Proof.
  unfold cyc_dist.
  destruct (first_rowful (drop _ tiles)) as [d|] eqn:Hd.
  - apply first_rowful_lt in Hd. rewrite length_drop in Hd. lia.
  - destruct (first_rowful tiles) as [k|] eqn:Hk; simpl; [|lia].
    apply first_rowful_lt in Hk. lia.
Qed.

(** Passing a tile without rows brings the cursor nearer to one with. *)
Lemma cyc_dist_step (tiles : list LogicalTile) (itr : nat) (t : LogicalTile) :
  tiles !! next_itr (length tiles) itr = Some t →
  tile_iter t = [] →
  is_Some (first_rowful tiles) →
  cyc_dist tiles (next_itr (length tiles) itr) < cyc_dist tiles itr.
Proof.
  intros Hl Hrows [k Hk]. unfold cyc_dist.
  set (i := next_itr (length tiles) itr) in *.
  pose proof (lookup_lt_Some _ _ _ Hl) as Hi.
  rewrite (drop_S _ _ _ Hl). simpl. rewrite Hrows.
  assert (Hn : next_itr (length tiles) i
               = if decide (length tiles ≤ S i) then 0 else S i) by done.
  rewrite !Hn. clear Hn. case_decide as Hwrap.
  - rewrite (drop_ge _ (S i)) by lia. simpl. rewrite drop_0, Hk. simpl. lia.
  - destruct (first_rowful (drop (S i) tiles)) as [d|]; simpl; lia.
Qed.

Lemma same_left_refl (s : State) : same_left s s.
Proof. by repeat split. Qed.

Lemma same_left_trans (s1 s2 s3 : State) :
  same_left s1 s2 → same_left s2 s3 → same_left s1 s3.
Proof.
  unfold same_left. intros (?&?&?&?) (?&?&?&?). repeat split; congruence.
Qed.

Lemma same_buffers_left (s s' : State) : same_buffers s s' → same_left s s'.
Proof. intros (?&_&?&_&?&_&?&_). by repeat split. Qed.

Section Probe_ends.

Context (predicate_ : option AbstractExpression) (join_type_ : JoinType).

Lemma Build_same_left (s0 s : State) :
  same_left s0 s →
  same_left s0 (outcome_state (returned (BuildOuterJoinOutput join_type_ s))).
Proof.
  intros H. eapply same_left_trans; [done|].
  apply same_buffers_left, BuildOuterJoinOutput_frame.
Qed.

Lemma lookup_right_loop_left (fuel : nat) (s0 s : State) :
  same_left s0 s →
  same_left s0 (outcome_state (lookup_right_loop join_type_ fuel s)).
Proof.
  revert s. induction fuel as [|fuel IH]; intros s Hs; [done|]. simpl.
  destruct (Execute (children1 s)) as [[t|] c].
  - destruct (left_child_done_ s && _).
    + by apply Build_same_left.
    + by apply IH.
  - destruct (left_child_done_ s); simpl; [done|]. by case_decide.
Qed.

Lemma probe_row_left (lt : LogicalTile) (lrow : oid_t) (s0 s : State) :
  same_left s0 s →
  same_left s0 (outcome_state (probe_row predicate_ join_type_ lt lrow s)).
Proof.
  intros Hs. unfold probe_row. destruct predicate_ as [p|]; [|done].
  destruct (GetLeft p) as [[ti col|v|ty l r]|]; try done.
  unfold push_key. case_decide.
  - destruct (ReplaceKeyValue col _ (children1 s)) as [[] c]; [|done].
    destruct (right_child_done_ _ && _).
    + by apply Build_same_left.
    + by apply lookup_right_loop_left.
  - destruct (right_child_done_ _ && _).
    + by apply Build_same_left.
    + by apply lookup_right_loop_left.
Qed.

Lemma probe_rows_left (lt : LogicalTile) (rows : list oid_t) (s0 s : State) :
  same_left s0 s →
  same_left s0 (outcome_state (probe_rows predicate_ join_type_ lt rows s)).
Proof.
  revert s. induction rows as [|lrow rows IH]; intros s Hs; [done|]. simpl.
  pose proof (probe_row_left lt lrow s0 s Hs) as Hrow.
  destruct (probe_row predicate_ join_type_ lt lrow s); auto.
Qed.

Lemma lookup_right_loop_done (fuel : nat) (s s' : State) :
  length (child_output (children1 s)) < fuel →
  left_child_done_ s = true →
  lookup_right_loop join_type_ fuel s = Continue s' →
  right_child_done_ s' = true.
Proof.
  revert s. induction fuel as [|fuel IH]; intros s Hfuel Hld; [lia|].
  simpl. destruct (Execute (children1 s)) as [[t|] c] eqn:Hex.
  - apply Execute_Some in Hex as [Hout _]. rewrite Hout in Hfuel.
    simpl in Hfuel. destruct (left_child_done_ s && _); [done|].
    apply IH; [simpl; lia|done].
  - rewrite Hld. simpl. by intros [= <-].
Qed.

Lemma probe_row_done (lt : LogicalTile) (lrow : oid_t) (s s' : State) :
  left_child_done_ s = true →
  probe_row predicate_ join_type_ lt lrow s = Continue s' →
  right_child_done_ s' = true.
Proof.
  intros Hld. unfold probe_row. destruct predicate_ as [p|]; [|done].
  destruct (GetLeft p) as [[ti col|v|ty l r]|]; try done.
  unfold push_key. case_decide.
  - destruct (ReplaceKeyValue col _ (children1 s)) as [[] c] eqn:Hrep;
      [|done].
    destruct (right_child_done_ _ && _); [done|].
    apply lookup_right_loop_done; [lia|done].
  - destruct (right_child_done_ _ && _); [done|].
    apply lookup_right_loop_done; [lia|done].
Qed.

Lemma probe_rows_done (lt : LogicalTile) (rows : list oid_t) (s s' : State) :
  left_child_done_ s = true → rows ≠ [] →
  probe_rows predicate_ join_type_ lt rows s = Continue s' →
  right_child_done_ s' = true.
Proof.
  intros Hld Hrows. destruct rows as [|lrow rows]; [done|]. simpl.
  destruct (probe_row predicate_ join_type_ lt lrow s) as [s1|b s1|k s1] eqn:Hrow;
    [|done..].
  apply probe_row_done in Hrow; [|done]. intros Hrest.
  pose proof (probe_rows_right_done predicate_ join_type_ lt rows s1 Hrow)
    as Hrd.
  by rewrite Hrest in Hrd.
Qed.

(** An iteration of [DExecute] that goes round again has picked a left
    tile, probed its rows, and paired it with the last right tile. *)
Lemma DExecute_iteration_Continue (s s3 : State) :
  DExecute_iteration predicate_ join_type_ s = Continue s3 →
  ∃ s1 adv lt s2 rt,
    left_child_done_ s && right_child_done_ s = false
    ∧ pick_left s = (s1, adv)
    ∧ left_result_tiles_ s1 !! left_result_itr_ s1 = Some lt
    ∧ probe_rows predicate_ join_type_ lt (tile_iter lt) s1 = Continue s2
    ∧ last (right_result_tiles_ s2) = Some rt
    ∧ s3 = after_join predicate_ lt rt s2.
Proof.
  unfold DExecute_iteration.
  destruct (left_child_done_ s && right_child_done_ s) eqn:Hdone; [done|].
  destruct (pick_left s) as [s1 adv] eqn:Hpick.
  destruct (left_result_tiles_ s1 !! left_result_itr_ s1) as [lt|] eqn:Hlt;
    [|done].
  destruct (probe_rows predicate_ join_type_ lt (tile_iter lt) s1)
    as [s2|b s2|k s2] eqn:Hprobe; [|done..].
  destruct ((adv || _) && _); [done|].
  destruct (last (right_result_tiles_ s2)) as [rt|] eqn:Hlast; [|done].
  rewrite join_tiles_eq. unfold finish_pair. case_decide; [done|].
  intros [= <-]. by exists s1, adv, lt, s2, rt.
Qed.

Lemma probe_inv_same_buffers (s s' : State) :
  same_buffers s s' → probe_inv s → probe_inv s'.
Proof.
  intros (_&_&_&_&Hlt&Hrt&_). unfold probe_inv. by rewrite Hlt, Hrt.
Qed.

Lemma pick_left_probe_inv (s s1 : State) (adv : bool) :
  pick_left s = (s1, adv) → probe_inv s → probe_inv s1.
Proof.
  intros Hpick Hinv.
  destruct (pick_left_cases s) as [[Hl Hp]|[[Hl (t0 & c0 & Hex0 & Hp)]
                                           |[Hl (c0 & Hex0 & Hp)]]];
    rewrite Hp in Hpick; simplify_eq; try done.
  unfold probe_inv in *. state_simpl. intros Hr.
  by apply first_rowful_app, Hinv.
Qed.

Lemma probe_rows_probe_inv (lt : LogicalTile) (s1 : State) :
  left_result_tiles_ s1 !! left_result_itr_ s1 = Some lt →
  probe_inv s1 →
  probe_inv
    (outcome_state
       (probe_rows predicate_ join_type_ lt (tile_iter lt) s1)).
Proof.
  intros Hlt Hinv. destruct (tile_iter lt) as [|r rows] eqn:Hrows; [done|].
  rewrite <- Hrows.
  pose proof (probe_rows_left lt (tile_iter lt) s1 s1 (same_left_refl s1))
    as (_ & _ & Htiles & _).
  unfold probe_inv. rewrite Htiles. intros _.
  eapply first_rowful_lookup; [done|]. by rewrite Hrows.
Qed.

Lemma DExecute_iteration_probe_inv (s : State) :
  probe_inv s →
  probe_inv (outcome_state (DExecute_iteration predicate_ join_type_ s)).
Proof.
  intros Hinv. unfold DExecute_iteration.
  destruct (left_child_done_ s && right_child_done_ s).
  { eapply probe_inv_same_buffers; [|done].
    apply BuildOuterJoinOutput_frame. }
  destruct (pick_left s) as [s1 adv] eqn:Hpick.
  apply pick_left_probe_inv in Hpick; [|done].
  destruct (left_result_tiles_ s1 !! left_result_itr_ s1) as [lt|] eqn:Hlt;
    [|done].
  pose proof (probe_rows_probe_inv lt s1 Hlt Hpick) as Hprobe.
  destruct (probe_rows predicate_ join_type_ lt (tile_iter lt) s1)
    as [s2|b s2|k s2]; [|done..].
  simpl in Hprobe. destruct ((adv || _) && _).
  { eapply probe_inv_same_buffers; [|done].
    apply BuildOuterJoinOutput_frame. }
  destruct (last (right_result_tiles_ s2)) as [rt|]; [|done].
  rewrite join_tiles_eq.
  eapply probe_inv_same_buffers; [apply finish_pair_same_buffers|].
  done.
Qed.

Lemma DExecute_probe_inv (fuel : nat) (s : State) :
  probe_inv s →
  probe_inv (outcome_state (DExecute predicate_ join_type_ fuel s)).
Proof.
  revert s. induction fuel as [|fuel IH]; intros s Hinv; [done|]. simpl.
  pose proof (DExecute_iteration_probe_inv s Hinv) as Hit.
  destruct (DExecute_iteration predicate_ join_type_ s); auto.
Qed.

(** An iteration that goes round again lowers the probe measure. *)
Lemma DExecute_iteration_measure (s s3 : State) :
  probe_inv s →
  DExecute_iteration predicate_ join_type_ s = Continue s3 →
  probe_measure s3 < probe_measure s.
Proof.
  intros Hinv Hit.
  apply DExecute_iteration_Continue in Hit
    as (s1 & adv & lt & s2 & rt & Hnd & Hpick & Hlt & Hprobe & Hlast & ->).
  pose proof (probe_rows_left lt (tile_iter lt) s1 s1 (same_left_refl s1))
    as Hleft.
  rewrite Hprobe in Hleft. destruct Hleft as (Hc0 & Hld2 & Hlt2 & Hitr2).
  simpl in Hc0, Hld2, Hlt2, Hitr2.
  unfold probe_measure, after_join. state_simpl.
  rewrite Hc0, Hld2, Hlt2, Hitr2, Hnd.
  destruct (pick_left_cases s) as [[Hl Hp]|[[Hl (t0 & c0 & Hex0 & Hp)]
                                           |[Hl (c0 & Hex0 & Hp)]]];
    rewrite Hp in Hpick; simplify_eq; state_simpl; rewrite Hl.
  - fold (next_itr (length (left_result_tiles_ s)) (left_result_itr_ s))
      in *. simpl.
    destruct (tile_iter lt) as [|r rows] eqn:Hrows.
    + simpl in Hprobe. injection Hprobe as <-. state_simpl.
      rewrite Hl in Hnd. simpl in Hnd. rewrite Hnd.
      apply Nat.add_lt_mono_r. eapply cyc_dist_step; [done..|].
      apply Hinv. intros Hnil. by rewrite Hnil in Hlast.
    + apply probe_rows_done in Hprobe; [|done..]. rewrite Hprobe. lia.
  - apply Execute_Some in Hex0 as [Hout0 _]. rewrite Hout0.
    rewrite length_app. simpl. lia.
  - apply Execute_None in Hex0 as [Hout0 _]. rewrite Hout0.
    destruct (right_child_done_ s2); simpl; [lia|].
    pose proof (cyc_dist_bound (left_result_tiles_ s) 0). lia.
Qed.

(** A call of [DExecute] ends, in a return or in a fault, with fuel above
    the probe measure. *)
Lemma DExecute_ends (fuel : nat) (s : State) :
  probe_inv s → probe_measure s < fuel →
  ∀ s', DExecute predicate_ join_type_ fuel s ≠ Continue s'.
Proof.
  revert s. induction fuel as [|fuel IH]; intros s Hinv Hfuel s'; [lia|].
  cbn [DExecute].
  pose proof (DExecute_iteration_probe_inv s Hinv) as Hinv1.
  destruct (DExecute_iteration predicate_ join_type_ s) as [s1|b s1|k s1] eqn:Hit;
    [|done..].
  apply DExecute_iteration_measure in Hit; [|done].
  apply IH; [done|lia].
Qed.

End Probe_ends.

Lemma probe_inv_init (left right : Executor) :
  probe_inv (init_state left right).
Proof. by intros H. Qed.

(** ** What a call returns *)



(** * Further properties of the two loops *)

(** ** Every call is a sequence of loop steps *)

Section Steps_reach.

Context (predicate_ : option AbstractExpression) (join_type_ : JoinType).

Local Abbreviation steps := (loop_steps predicate_ join_type_).

Lemma steps_once (s s' : State) :
  loop_step predicate_ join_type_ s s' → steps s s'.
Proof. apply rtc_once. Qed.

Lemma steps_trans (s1 s2 s3 : State) :
  steps s1 s2 → steps s2 s3 → steps s1 s3.
Proof. unfold loop_steps. intros H1 H2. by etrans. Qed.

Lemma Build_steps (s0 s : State) :
  steps s0 s →
  steps s0 (outcome_state (returned (BuildOuterJoinOutput join_type_ s))).
Proof.
  intros H. eapply steps_trans; [exact H|].
  apply steps_once, step_emit.
Qed.

Lemma buffer_right_steps (s0 s : State) (t : LogicalTile) (c : Executor) :
  steps s0 s → steps s0 (BufferRightTile t (set_children1 c s)).
Proof.
  intros H. eapply steps_trans; [exact H|].
  eapply steps_trans; [apply steps_once, (step_right_child _ _ _ c)|].
  apply steps_once, step_buffer_right.
Qed.

Lemma pair_steps (s0 s : State) (lt rt : LogicalTile) :
  steps s0 s →
  left_result_tiles_ s !! left_result_itr_ s = Some lt →
  last (right_result_tiles_ s) = Some rt →
  steps s0 (outcome_state (finish_pair (join_tiles predicate_ lt rt s))).
Proof.
  intros H Hl Hr. eapply steps_trans; [exact H|].
  by apply steps_once, step_pair.
Qed.

Lemma lookup_right_loop_steps (fuel : nat) (s0 s : State) :
  steps s0 s →
  steps s0 (outcome_state (lookup_right_loop join_type_ fuel s)).
Proof.
  revert s. induction fuel as [|fuel IH]; intros s H; [done|].
  cbn [lookup_right_loop].
  destruct (Execute (children1 s)) as [[t|] c].
  - pose proof (buffer_right_steps s0 s t c H) as H1.
    destruct (left_child_done_ _ && _).
    + by apply Build_steps.
    + by apply IH.
  - assert (H1 : steps s0 (set_children1 c s)).
    { eapply steps_trans; [exact H|]. apply steps_once, step_right_child. }
    destruct (negb _).
    + case_decide; [|done]. simpl.
      eapply steps_trans; [exact H1|]. apply steps_once, step_right_child.
    + simpl. eapply steps_trans; [exact H1|].
      apply steps_once, step_right_done.
Qed.

Lemma probe_row_steps (lt : LogicalTile) (lrow : oid_t) (s0 s : State) :
  steps s0 s →
  steps s0 (outcome_state (probe_row predicate_ join_type_ lt lrow s)).
Proof.
  intros H. unfold probe_row.
  assert (Hc : ∀ c, steps s0 (set_children1 c s)).
  { intros c. eapply steps_trans; [exact H|].
    apply steps_once, step_right_child. }
  pose proof (Build_steps s0) as HB.
  pose proof (λ fuel, lookup_right_loop_steps fuel s0) as HL.
  destruct predicate_ as [p|]; [|done].
  destruct (GetLeft p) as [[ti col| |]|]; try done.
  unfold push_key. case_decide.
  - destruct (ReplaceKeyValue _ _ _) as [[] c]; [|done].
    destruct (right_child_done_ _ && _); [by apply HB|by apply HL].
  - destruct (right_child_done_ _ && _); [by apply HB|by apply HL].
Qed.

Lemma probe_rows_steps (lt : LogicalTile) (rows : list oid_t) (s0 s : State) :
  steps s0 s →
  steps s0 (outcome_state (probe_rows predicate_ join_type_ lt rows s)).
Proof.
  revert s. induction rows as [|r rows IH]; intros s H; [done|].
  cbn [probe_rows].
  pose proof (probe_row_steps lt r s0 s H) as H1.
  destruct (probe_row predicate_ join_type_ lt r s); auto.
Qed.

Lemma pick_left_steps (s0 s s1 : State) (adv : bool) :
  steps s0 s → pick_left s = (s1, adv) → steps s0 s1.
Proof.
  intros H Hp. eapply steps_trans; [exact H|].
  replace s1 with (pick_left s).1 by by rewrite Hp.
  apply steps_once, step_pick_left.
Qed.

Lemma DExecute_iteration_steps (s0 s : State) :
  steps s0 s →
  steps s0 (outcome_state (DExecute_iteration predicate_ join_type_ s)).
Proof.
  intros H. unfold DExecute_iteration.
  destruct (left_child_done_ s && right_child_done_ s).
  { by apply Build_steps. }
  destruct (pick_left s) as [s1 adv] eqn:Hpick.
  pose proof (pick_left_steps _ _ _ _ H Hpick) as H1.
  destruct (_ !! _) as [lt|] eqn:Hl; [|done].
  pose proof (probe_rows_steps lt (tile_iter lt) s0 s1 H1) as H2.
  pose proof (probe_rows_left predicate_ join_type_ lt (tile_iter lt) s1 s1
                (same_left_refl s1)) as Hleft.
  destruct (probe_rows predicate_ join_type_ lt (tile_iter lt) s1)
    as [s2|b s2|k s2]; try done.
  destruct ((adv || _) && _).
  { by apply Build_steps. }
  destruct (last _) as [rt|] eqn:Hr; [|done].
  simpl in Hleft. destruct Hleft as (_ & _ & Ht & Hi).
  apply pair_steps; [done| |done]. by rewrite Ht, Hi.
Qed.

Lemma DExecute_steps (fuel : nat) (s0 s : State) :
  steps s0 s →
  steps s0 (outcome_state (DExecute predicate_ join_type_ fuel s)).
Proof.
  revert s. induction fuel as [|fuel IH]; intros s H; [done|].
  cbn [DExecute].
  pose proof (DExecute_iteration_steps s0 s H) as H1.
  destruct (DExecute_iteration predicate_ join_type_ s); auto.
Qed.

Lemma Old_iteration_steps (s0 s : State) :
  steps s0 s →
  steps s0 (outcome_state (Old_iteration predicate_ join_type_ s)).
Proof.
  intros H.
  destruct (Old_iteration_shape predicate_ join_type_ s)
    as [Hd|s1 adv Hd Hp Hrd Hnil|s1 adv c Hd Hp Hadv Hex
        |s1 adv t c Hd Hp Hadv Hex Hld Hnil|s1 adv t c lt Hd Hp Hadv Hex Hl
        |s1 lt rt Hd Hp Hr Hl].
  - by apply Build_steps.
  - apply Build_steps. by eapply pick_left_steps.
  - apply Build_steps.
    eapply steps_trans; [by eapply pick_left_steps|].
    eapply steps_trans; [apply steps_once, (step_right_child _ _ _ c)|].
    apply steps_once, step_right_done.
  - apply Build_steps, buffer_right_steps. by eapply pick_left_steps.
  - rewrite <- join_tiles_eq. apply pair_steps.
    + apply buffer_right_steps. by eapply pick_left_steps.
    + done.
    + state_simpl. apply last_snoc.
  - rewrite <- join_tiles_eq. apply pair_steps; [|done..].
    by eapply pick_left_steps.
Qed.

Lemma Old_DExecute_steps (fuel : nat) (s0 s : State) :
  steps s0 s →
  steps s0 (outcome_state (Old_DExecute predicate_ join_type_ fuel s)).
Proof.
  revert s. induction fuel as [|fuel IH]; intros s H; [done|].
  cbn [Old_DExecute].
  pose proof (Old_iteration_steps s0 s H) as H1.
  destruct (Old_iteration predicate_ join_type_ s); auto.
Qed.

(** A run of calls, of either loop. *)
Lemma run_calls_steps (exec : State → Outcome) (calls : nat) (s0 s : State) :
  (∀ s1, steps s0 s1 → steps s0 (outcome_state (exec s1))) →
  steps s0 s →
  steps s0 (outcome_state (run_calls exec calls s).2).
Proof.
  intros Hexec. revert s. induction calls as [|calls IH]; intros s H; [done|].
  cbn [run_calls]. pose proof (Hexec s H) as H1.
  destruct (exec s) as [s1|[] s1|k s1]; simpl; auto.
Qed.

End Steps_reach.

(** ** Match bits *)

(** Row [a] of batch [k] has a bit. *)
Local Abbreviation has_bit m k a :=
  (∃ bits : list bool, m !! k = Some bits ∧ a < length bits).

Lemma has_bit_mark (k' : nat) (r : oid_t) (m : list (list bool))
    (k : nat) (a : oid_t) :
  has_bit (mark_matched k' r m) k a ↔ has_bit m k a.
Proof.
  unfold mark_matched. rewrite list_lookup_alter.
  case_decide as Hk; [subst k'|done].
  destruct (m !! k) as [bits|]; simpl.
  - split.
    + intros (bits' & [= <-] & Hlt). rewrite length_insert in Hlt. eauto.
    + intros (bits' & [= <-] & Hlt). eexists. split; [done|].
      by rewrite length_insert.
  - split; intros (? & ? & ?); done.
Qed.

Lemma is_matched_mark (k : nat) (r : oid_t) (m : list (list bool))
    (i : nat) (a : oid_t) :
  is_matched (mark_matched k r m) i a = true
  ↔ is_matched m i a = true ∨ (i = k ∧ a = r ∧ has_bit m k r).
Proof.
  unfold is_matched, mark_matched. rewrite list_lookup_alter.
  case_decide as Hk; [subst i|].
  - destruct (m !! k) as [bits|]; simpl.
    + rewrite list_lookup_insert. case_decide as Hr.
      * destruct Hr as [-> Hlt]. simpl. split; [|done].
        intros _. right. eauto.
      * split; [by left|]. intros [H|(_ & -> & bits' & [= <-] & Hlt)]; [done|].
        exfalso. apply Hr. done.
    + split; [by left|]. by intros [H|(_ & _ & bits' & ? & _)].
  - split; [by left|]. intros [H|(-> & _)]; done.
Qed.

Lemma is_matched_marks {A : Type} (f : A → oid_t) (k : nat) (l : list A)
    (m : list (list bool)) (i : nat) (a : oid_t) :
  is_matched (foldl (λ m x, mark_matched k (f x) m) m l) i a = true
  ↔ is_matched m i a = true
    ∨ (i = k ∧ has_bit m k a ∧ ∃ x, In x l ∧ f x = a).
Proof.
  revert m. induction l as [|x l IH]; intros m; simpl.
  - split; [by left|]. by intros [H|(_ & _ & x & [] & _)].
  - rewrite IH, is_matched_mark, has_bit_mark. split.
    + intros [[H|(-> & -> & Hb)]|(-> & Hb & y & Hy & <-)].
      * by left.
      * right. split; [done|]. split; [done|]. exists x. auto.
      * right. split; [done|]. split; [done|]. exists y. auto.
    + intros [H|(-> & Hb & y & [->|Hy] & <-)].
      * by left; left.
      * left; right. done.
      * right. split; [done|]. split; [done|]. exists y. auto.
Qed.

Lemma is_matched_app (m rest : list (list bool)) (i : nat) (a : oid_t) :
  i < length m → is_matched (m ++ rest) i a = is_matched m i a.
Proof. intros Hlt. unfold is_matched. by rewrite lookup_app_l. Qed.

Lemma is_matched_lt (m : list (list bool)) (i : nat) (a : oid_t) :
  is_matched m i a = true → i < length m.
Proof.
  unfold is_matched. destruct (m !! i) eqn:Hl; [|done].
  intros _. by eapply lookup_lt_Some.
Qed.

Lemma is_matched_new (m : list (list bool)) (n : nat) (i : nat) (a : oid_t) :
  is_matched (m ++ [replicate n false]) i a = is_matched m i a.
Proof.
  destruct (decide (i < length m)) as [Hlt|Hge].
  { by apply is_matched_app. }
  unfold is_matched. rewrite (lookup_ge_None_2 m) by lia.
  rewrite lookup_app_r by lia.
  destruct (i - length m) as [|d]; simpl; [|done].
  destruct (replicate n false !! a) as [b|] eqn:Hb; [|done].
  apply lookup_replicate in Hb as [-> _]. done.
Qed.

(** ** Nothing is taken back *)

Lemma grows_refl (s : State) : grows s s.
Proof. unfold grows. repeat split; done. Qed.

Lemma grows_trans (s1 s2 s3 : State) : grows s1 s2 → grows s2 s3 → grows s1 s3.
Proof.
  unfold grows.
  intros (?&?&?&?&?&?&?&?&?&?) (?&?&?&?&?&?&?&?&?&?).
  repeat split; try (by etrans); auto; lia.
Qed.

Lemma same_buffers_cursors_grows (s s' : State) :
  same_buffers s s' →
  emitted_ s `prefix_of` emitted_ s' →
  left_matching_idx_ s ≤ left_matching_idx_ s' →
  right_matching_idx_ s ≤ right_matching_idx_ s' →
  grows s s'.
Proof.
  intros (_ & _ & Hld & Hrd & Hl & Hr & _ & Hlm & Hrm & Ht) He Hli Hri.
  unfold grows. rewrite Hld, Hrd, Hl, Hr, Hlm, Hrm, Ht. repeat split; done.
Qed.

Lemma BuildLeftJoinOutput_grows (s : State) :
  grows s (BuildLeftJoinOutput s).2.
Proof.
  apply same_buffers_cursors_grows.
  - apply BuildLeftJoinOutput_frame.
  - unfold BuildLeftJoinOutput.
    destruct (find_unmatched _ _ _) as [[b rows]|]; [|done].
    simpl. by apply prefix_app_r.
  - unfold BuildLeftJoinOutput.
    destruct (find_unmatched _ _ _) as [[b rows]|] eqn:Hf; [|done].
    apply find_unmatched_Some in Hf as [Hle _]. simpl. lia.
  - unfold BuildLeftJoinOutput.
    by destruct (find_unmatched _ _ _) as [[b rows]|].
Qed.

Lemma BuildRightJoinOutput_grows (s : State) :
  grows s (BuildRightJoinOutput s).2.
Proof.
  apply same_buffers_cursors_grows.
  - apply BuildRightJoinOutput_frame.
  - unfold BuildRightJoinOutput.
    destruct (find_unmatched _ _ _) as [[b rows]|]; [|done].
    simpl. by apply prefix_app_r.
  - unfold BuildRightJoinOutput.
    by destruct (find_unmatched _ _ _) as [[b rows]|].
  - unfold BuildRightJoinOutput.
    destruct (find_unmatched _ _ _) as [[b rows]|] eqn:Hf; [|done].
    apply find_unmatched_Some in Hf as [Hle _]. simpl. lia.
Qed.

Lemma BuildOuterJoinOutput_grows (join_type_ : JoinType) (s : State) :
  grows s (BuildOuterJoinOutput join_type_ s).2.
Proof.
  unfold BuildOuterJoinOutput. destruct join_type_.
  - apply grows_refl.
  - apply BuildLeftJoinOutput_grows.
  - apply BuildRightJoinOutput_grows.
  - destruct (BuildLeftJoinOutput s).1.
    + apply BuildLeftJoinOutput_grows.
    + eapply grows_trans; [apply BuildLeftJoinOutput_grows|].
      apply BuildRightJoinOutput_grows.
Qed.

Lemma pick_left_grows (s : State) : grows s (pick_left s).1.
Proof.
  destruct (pick_left_cases s)
    as [[Hld ->]|[(Hld & t & c & _ & ->)|(Hld & c & _ & ->)]];
    unfold grows; state_simpl.
  - repeat split; done.
  - repeat split; try done.
    + by apply prefix_app_r.
    + intros i a H. rewrite is_matched_new. done.
  - repeat split; done.
Qed.

Lemma finish_pair_grows (s : State) (pos : PositionLists) :
  grows s (outcome_state (finish_pair (s, pos))).
Proof.
  unfold finish_pair. case_decide; [|apply grows_refl]. simpl.
  unfold grows; state_simpl. repeat split; try done.
  by apply prefix_app_r.
Qed.

Lemma after_join_grows (predicate_ : option AbstractExpression)
    (lt rt : LogicalTile) (s : State) :
  grows s (after_join predicate_ lt rt s).
Proof.
  unfold grows, after_join; state_simpl. repeat split; try done.
  - by apply prefix_app_r.
  - intros i a H. apply is_matched_marks. by left.
  - intros j b H. apply (is_matched_marks id). by left.
Qed.

Lemma loop_step_grows (predicate_ : option AbstractExpression)
    (join_type_ : JoinType) (s s' : State) :
  loop_step predicate_ join_type_ s s' → grows s s'.
Proof.
  intros [|c| |t| |lt rt Hl Hr].
  - apply pick_left_grows.
  - unfold grows; state_simpl. repeat split; done.
  - unfold grows; state_simpl. repeat split; done.
  - unfold grows; state_simpl. repeat split; try done.
    + by apply prefix_app_r.
    + intros j b H. by rewrite is_matched_new.
  - apply BuildOuterJoinOutput_grows.
  - rewrite join_tiles_eq.
    eapply grows_trans; [apply after_join_grows|apply finish_pair_grows].
Qed.

Lemma loop_steps_grows (predicate_ : option AbstractExpression)
    (join_type_ : JoinType) (s s' : State) :
  loop_steps predicate_ join_type_ s s' → grows s s'.
Proof.
  induction 1 as [s|s1 s2 s3 H12 _ IH]; [apply grows_refl|].
  eapply grows_trans; [|exact IH]. by eapply loop_step_grows.
Qed.

(** X1: nothing a call of either loop has once done is taken back by a
    later call.  Whatever the state a run of calls starts in, at its end the
    tiles buffered, the rows handed out and the pairs evaluated before are
    still there, in their places, with whatever was added behind them; an
    exhaustion flag that was set is set, a match bit that was set is set,
    and no emission cursor has moved back. *)
Theorem calls_take_nothing_back (predicate_ : option AbstractExpression)
    (join_type_ : JoinType) (fuel calls : nat) (s : State) :
  grows s (outcome_state
             (run_calls (DExecute predicate_ join_type_ fuel) calls s).2)
  ∧ grows s (outcome_state
               (run_calls (Old_DExecute predicate_ join_type_ fuel) calls s).2).
Proof.
  split.
  - eapply loop_steps_grows, run_calls_steps; [|apply rtc_refl].
    intros s1. apply DExecute_steps.
  - eapply loop_steps_grows, run_calls_steps; [|apply rtc_refl].
    intros s1. apply Old_DExecute_steps.
Qed.

(** ** The books agree with the visits *)

Lemma aligned_mark (tiles : list LogicalTile) (k : nat) (r : oid_t)
    (m : list (list bool)) :
  aligned tiles m → aligned tiles (mark_matched k r m).
Proof.
  intros H. unfold mark_matched. apply Forall2_alter_r; [done|].
  intros t bits _ _ Hlen. by rewrite length_insert.
Qed.

Lemma aligned_marks {A : Type} (f : A → oid_t) (tiles : list LogicalTile)
    (k : nat) (l : list A) (m : list (list bool)) :
  aligned tiles m →
  aligned tiles (foldl (λ m x, mark_matched k (f x) m) m l).
Proof.
  revert m. induction l as [|x l IH]; intros m H; [done|].
  simpl. by apply IH, aligned_mark.
Qed.

Lemma aligned_new (tiles new : list LogicalTile) (m : list (list bool)) :
  aligned tiles m →
  aligned (tiles ++ new) (m ++ map (λ t, replicate (length t) false) new).
Proof.
  intros H. apply Forall2_app; [done|].
  induction new as [|t new IH]; constructor; [|done].
  apply length_replicate.
Qed.

Lemma aligned_has_bit (tiles : list LogicalTile) (m : list (list bool))
    (k : nat) (t : LogicalTile) (a : oid_t) :
  aligned tiles m → tiles !! k = Some t → In a (tile_iter t) →
  has_bit m k a.
Proof.
  intros Hal Hk Ha.
  destruct (Forall2_lookup_l _ _ _ _ _ Hal Hk) as (bits & Hm & Hlen).
  exists bits. split; [done|]. rewrite Hlen. by apply tile_iter_lt.
Qed.

Lemma is_matched_news (m : list (list bool)) (new : list LogicalTile)
    (i : nat) (a : oid_t) :
  is_matched (m ++ map (λ t, replicate (length t) false) new) i a
  = is_matched m i a.
Proof.
  destruct (decide (i < length m)) as [Hlt|Hge].
  { by apply is_matched_app. }
  unfold is_matched. rewrite (lookup_ge_None_2 m) by lia.
  rewrite lookup_app_r; [|lia]. rewrite list_lookup_fmap.
  destruct (_ <$> _) as [bits|] eqn:Hbits; simpl; [|done].
  apply fmap_Some in Hbits as (t & _ & ->).
  destruct (replicate (length t) false !! a) as [b|] eqn:Hb; [|done].
  apply lookup_replicate in Hb as [-> _]. done.
Qed.

Lemma tile_at_prefix (tiles tiles' : list LogicalTile) (i : nat) :
  tiles `prefix_of` tiles' → i < length tiles →
  tile_at tiles' i = tile_at tiles i.
Proof.
  intros Hp Hlt. unfold tile_at. by rewrite (prefix_lookup_lt tiles tiles').
Qed.

Lemma joins_prefix (predicate_ : option AbstractExpression)
    (Ls Ls' Rs Rs' : list LogicalTile) (i : nat) (a : oid_t) (j : nat)
    (b : oid_t) :
  Ls `prefix_of` Ls' → Rs `prefix_of` Rs' →
  i < length Ls → j < length Rs →
  joins predicate_ Ls' Rs' (i, a, j, b) = joins predicate_ Ls Rs (i, a, j, b).
Proof.
  intros Hl Hr Hi Hj. unfold joins.
  by rewrite (tile_at_prefix Ls Ls'), (tile_at_prefix Rs Rs').
Qed.

Lemma joined_rows_prefix (predicate_ : option AbstractExpression)
    (Ls Ls' Rs Rs' : list LogicalTile)
    (visits : list (nat * oid_t * nat * oid_t)) :
  Ls `prefix_of` Ls' → Rs `prefix_of` Rs' →
  Forall (λ '(i, _, j, _), i < length Ls ∧ j < length Rs) visits →
  joined_rows predicate_ Ls' Rs' visits = joined_rows predicate_ Ls Rs visits.
Proof.
  intros Hl Hr Hin. unfold joined_rows. f_equal.
  apply List.filter_ext_in. intros [[[i a] j] b] Hv.
  rewrite Forall_forall in Hin. specialize (Hin (i, a, j, b)).
  destruct Hin as [Hi Hj]; [by apply list_elem_of_In|].
  by apply joins_prefix.
Qed.

Lemma joined_rows_app (predicate_ : option AbstractExpression)
    (Ls Rs : list LogicalTile) (v1 v2 : list (nat * oid_t * nat * oid_t)) :
  joined_rows predicate_ Ls Rs (v1 ++ v2)
  = joined_rows predicate_ Ls Rs v1 ++ joined_rows predicate_ Ls Rs v2.
Proof. unfold joined_rows. by rewrite List.filter_app, map_app. Qed.

(** The visits of one tile pair give the pairs the matcher accepts. *)
Lemma joined_rows_visited (predicate_ : option AbstractExpression)
    (Ls Rs : list LogicalTile) (i j : nat) :
  joined_rows predicate_ Ls Rs
    (visited_pairs (tile_at Ls i) (tile_at Rs j) i j)
  = map (λ p : oid_t * oid_t, (Some (i, p.1), Some (j, p.2)))
        (accepted_pairs predicate_ (tile_at Ls i) (tile_at Rs j)).
Proof.
  unfold joined_rows, visited_pairs, accepted_pairs, accepted_left_rows.
  induction (tile_iter (tile_at Rs j)) as [|b rs IHr]; [done|].
  cbn [List.flat_map]. rewrite List.filter_app, !map_app, IHr. f_equal.
  clear IHr. induction (tile_iter (tile_at Ls i)) as [|a ls IHl]; [done|].
  cbn [map List.filter joins].
  destruct (accepts predicate_ (tile_at Ls i) (tile_at Rs j) a b);
    cbn [map joined_row]; by rewrite IHl.
Qed.

Lemma matched_part_app (r1 r2 : list JoinedRow) :
  matched_part (r1 ++ r2) = matched_part r1 ++ matched_part r2.
Proof. apply List.filter_app. Qed.

Lemma matched_part_pairs (i j : nat) (pos : PositionLists) :
  matched_part (map (λ p : oid_t * oid_t, (Some (i, p.1), Some (j, p.2))) pos)
  = map (λ p : oid_t * oid_t, (Some (i, p.1), Some (j, p.2))) pos.
Proof. induction pos as [|p pos IH]; [done|]. simpl. by rewrite IH. Qed.

Lemma matched_part_left_padded (b : nat) (rows : list oid_t) :
  matched_part (map (λ i, (Some (b, i), None)) rows) = [].
Proof. by induction rows. Qed.

Lemma matched_part_right_padded (b : nat) (rows : list oid_t) :
  matched_part (map (λ i, (None, Some (b, i))) rows) = [].
Proof. by induction rows. Qed.

Lemma BuildLeftJoinOutput_matched_part (s : State) :
  matched_part (emitted_ (BuildLeftJoinOutput s).2) = matched_part (emitted_ s).
Proof.
  unfold BuildLeftJoinOutput.
  destruct (find_unmatched _ _ _) as [[b rows]|]; [|done]. simpl.
  by rewrite matched_part_app, matched_part_left_padded, app_nil_r.
Qed.

Lemma BuildRightJoinOutput_matched_part (s : State) :
  matched_part (emitted_ (BuildRightJoinOutput s).2)
  = matched_part (emitted_ s).
Proof.
  unfold BuildRightJoinOutput.
  destruct (find_unmatched _ _ _) as [[b rows]|]; [|done]. simpl.
  by rewrite matched_part_app, matched_part_right_padded, app_nil_r.
Qed.

Lemma BuildOuterJoinOutput_matched_part (join_type_ : JoinType) (s : State) :
  matched_part (emitted_ (BuildOuterJoinOutput join_type_ s).2)
  = matched_part (emitted_ s).
Proof.
  unfold BuildOuterJoinOutput. destruct join_type_.
  - done.
  - apply BuildLeftJoinOutput_matched_part.
  - apply BuildRightJoinOutput_matched_part.
  - destruct (BuildLeftJoinOutput s).1.
    + apply BuildLeftJoinOutput_matched_part.
    + rewrite BuildRightJoinOutput_matched_part.
      apply BuildLeftJoinOutput_matched_part.
Qed.

Lemma finish_pair_emitted (s : State) (pos : PositionLists) :
  emitted_ (outcome_state (finish_pair (s, pos)))
  = emitted_ s
    ++ map (λ p : oid_t * oid_t,
              (Some (left_result_itr_ s, p.1),
               Some (length (right_result_tiles_ s) - 1, p.2))) pos.
Proof.
  unfold finish_pair. case_decide as Hlen; [done|].
  destruct pos; [|simpl in Hlen; lia]. simpl. by rewrite app_nil_r.
Qed.

(** Tiles buffered, with their unset bits, and rows emitted that are no
    joined rows leave the books as they are. *)
Lemma ledger_frame (predicate_ : option AbstractExpression) (s s' : State)
    (lts rts : list LogicalTile) :
  left_result_tiles_ s' = left_result_tiles_ s ++ lts →
  left_matched_ s'
  = left_matched_ s ++ map (λ t, replicate (length t) false) lts →
  right_result_tiles_ s' = right_result_tiles_ s ++ rts →
  right_matched_ s'
  = right_matched_ s ++ map (λ t, replicate (length t) false) rts →
  eval_trace_ s' = eval_trace_ s →
  matched_part (emitted_ s') = matched_part (emitted_ s) →
  (left_result_tiles_ s' = []
   ∨ left_result_itr_ s' < length (left_result_tiles_ s')) →
  ledger_inv predicate_ s → ledger_inv predicate_ s'.
Proof.
  intros Hl Hlm Hr Hrm Ht He Hcur ((Hal & Har & _) & Hin & Hj & Hbl & Hbr).
  assert (Hpl : left_result_tiles_ s `prefix_of` left_result_tiles_ s').
  { rewrite Hl. by apply prefix_app_r. }
  assert (Hpr : right_result_tiles_ s `prefix_of` right_result_tiles_ s').
  { rewrite Hr. by apply prefix_app_r. }
  assert (Hjoins : ∀ i a j b, In (i, a, j, b) (eval_trace_ s) →
    joins predicate_ (left_result_tiles_ s') (right_result_tiles_ s')
          (i, a, j, b)
    = joins predicate_ (left_result_tiles_ s) (right_result_tiles_ s)
            (i, a, j, b)).
  { intros i a j b Hv. rewrite Forall_forall in Hin.
    destruct (Hin (i, a, j, b)) as [Hi Hj']; [by apply list_elem_of_In|].
    by apply joins_prefix. }
  unfold ledger_inv, buffers_wf. rewrite Ht, He, Hlm, Hrm.
  split; [|split; [|split; [|split]]].
  - split; [|split; [|done]].
    + rewrite Hl. by apply aligned_new.
    + rewrite Hr. by apply aligned_new.
  - eapply Forall_impl; [exact Hin|]. intros [[[i a] j] b] [Hi Hj'].
    apply prefix_length in Hpl, Hpr. simpl. lia.
  - rewrite Hj. symmetry. by apply joined_rows_prefix.
  - intros i a. rewrite is_matched_news, Hbl.
    split; intros (j & b & Hv & Hok); exists j, b; (split; [done|]).
    + by rewrite Hjoins.
    + by rewrite <- Hjoins.
  - intros j b. rewrite is_matched_news, Hbr.
    split; intros (i & a & Hv & Hok); exists i, a; (split; [done|]).
    + by rewrite Hjoins.
    + by rewrite <- Hjoins.
Qed.

Lemma ledger_frame_same (predicate_ : option AbstractExpression)
    (s s' : State) :
  left_result_tiles_ s' = left_result_tiles_ s →
  left_matched_ s' = left_matched_ s →
  right_result_tiles_ s' = right_result_tiles_ s →
  right_matched_ s' = right_matched_ s →
  eval_trace_ s' = eval_trace_ s →
  matched_part (emitted_ s') = matched_part (emitted_ s) →
  (left_result_tiles_ s' = []
   ∨ left_result_itr_ s' < length (left_result_tiles_ s')) →
  ledger_inv predicate_ s → ledger_inv predicate_ s'.
Proof.
  intros Hl Hlm Hr Hrm. apply (ledger_frame _ s s' [] []); simpl;
    by rewrite app_nil_r.
Qed.

(** The matcher run on the tile under the cursor and the last right
    tile, and its result handed out. *)
Lemma ledger_pair (predicate_ : option AbstractExpression) (s : State)
    (lt rt : LogicalTile) :
  left_result_tiles_ s !! left_result_itr_ s = Some lt →
  last (right_result_tiles_ s) = Some rt →
  ledger_inv predicate_ s →
  ledger_inv predicate_
    (outcome_state (finish_pair (join_tiles predicate_ lt rt s))).
Proof.
  intros Hl Hr ((Hal & Har & Hcur) & Hin & Hj & Hbl & Hbr).
  rewrite join_tiles_eq.
  set (s1 := after_join predicate_ lt rt s).
  set (s2 := outcome_state
               (finish_pair (s1, accepted_pairs predicate_ lt rt))).
  set (Ls := left_result_tiles_ s) in *.
  set (Rs := right_result_tiles_ s) in *.
  set (i0 := left_result_itr_ s) in *.
  set (j0 := length Rs - 1).
  assert (Hi0 : i0 < length Ls) by by eapply lookup_lt_Some.
  assert (Hr' : Rs !! j0 = Some rt).
  { rewrite <- Hr, last_lookup. f_equal. unfold j0. lia. }
  assert (Hj0 : j0 < length Rs) by by eapply lookup_lt_Some.
  assert (Hlt : tile_at Ls i0 = lt).
  { exact (f_equal (default []) Hl). }
  assert (Hrt : tile_at Rs j0 = rt).
  { exact (f_equal (default []) Hr'). }
  destruct (finish_pair_same_buffers s1 (accepted_pairs predicate_ lt rt))
    as (_ & _ & _ & _ & Hl2 & Hr2 & Hi2 & Hlm2 & Hrm2 & Ht2).
  pose proof (finish_pair_emitted s1 (accepted_pairs predicate_ lt rt))
    as He2.
  fold s2 in Hl2, Hr2, Hi2, Hlm2, Hrm2, Ht2, He2.
  assert (Hl1 : left_result_tiles_ s2 = Ls) by by rewrite Hl2.
  assert (Hr1 : right_result_tiles_ s2 = Rs) by by rewrite Hr2.
  assert (Ht1 : eval_trace_ s2
                = eval_trace_ s ++ visited_pairs lt rt i0 j0).
  { by rewrite Ht2. }
  assert (He1 : emitted_ s2
    = emitted_ s ++ map (λ p : oid_t * oid_t,
                           (Some (i0, p.1), Some (j0, p.2)))
                        (accepted_pairs predicate_ lt rt)).
  { by rewrite He2. }
  assert (Hlm1 : left_matched_ s2
    = foldl (λ m (p : oid_t * oid_t), mark_matched i0 p.1 m)
            (left_matched_ s) (accepted_pairs predicate_ lt rt)).
  { by rewrite Hlm2. }
  assert (Hrm1 : right_matched_ s2
    = foldl (λ m rrow, mark_matched j0 rrow m)
            (right_matched_ s) (matched_right_rows predicate_ lt rt)).
  { by rewrite Hrm2. }
  assert (Hi1 : left_result_itr_ s2 = i0) by by rewrite Hi2.
  clearbody s2. clear s1 Hl2 Hr2 Hi2 Hlm2 Hrm2 Ht2 He2.
  unfold ledger_inv, buffers_wf. rewrite Hl1, Hr1, Ht1, He1, Hlm1, Hrm1, Hi1.
  assert (Hvis : ∀ i a j b,
    In (i, a, j, b) (visited_pairs lt rt i0 j0)
    ∧ joins predicate_ Ls Rs (i, a, j, b) = true
    ↔ i = i0 ∧ j = j0 ∧ In (a, b) (accepted_pairs predicate_ lt rt)).
  { intros i a j b. rewrite visited_pairs_In, accepted_pairs_spec.
    unfold joins, accepts. split.
    - intros ((-> & -> & Ha & Hb) & Hok). rewrite Hlt, Hrt in Hok.
      apply negb_true_iff in Hok. done.
    - intros (-> & -> & Ha & Hb & Hok). rewrite Hlt, Hrt, Hok. done. }
  split; [|split; [|split; [|split]]].
  - split; [|split].
    + by apply (aligned_marks fst).
    + by apply (aligned_marks id).
    + state_simpl. done.
  - apply Forall_app. split.
    + eapply Forall_impl; [exact Hin|]. intros [[[i a] j] b]. unfold in_buffers.
      by rewrite Hl1, Hr1.
    + apply Forall_forall. intros [[[i a] j] b] Hv.
      apply list_elem_of_In, visited_pairs_In in Hv as (-> & -> & _).
      unfold in_buffers. by rewrite Hl1, Hr1.
  - rewrite matched_part_app, matched_part_pairs, joined_rows_app, Hj.
    f_equal. rewrite <- Hlt, <- Hrt. symmetry. apply joined_rows_visited.
  - intros i a. rewrite (is_matched_marks fst), Hbl. split.
    + intros [(j & b & Hv & Hok)|(-> & _ & [a' b] & Hp & <-)].
      * exists j, b. split; [|done]. apply in_or_app. by left.
      * exists j0, b. simpl.
        destruct (proj2 (Hvis i0 a' j0 b)) as [Hv Hok]; [done|].
        split; [|done]. apply in_or_app. by right.
    + intros (j & b & Hv & Hok). apply in_app_or in Hv as [Hv|Hv].
      * left. by exists j, b.
      * destruct (proj1 (Hvis i a j b)) as (-> & -> & Hp); [done|].
        right. split; [done|]. split.
        -- apply (aligned_has_bit Ls _ _ lt); [done..|].
           by apply accepted_pairs_spec in Hp as (? & _).
        -- by exists (a, b).
  - intros j b. rewrite (is_matched_marks id), Hbr. split.
    + intros [(i & a & Hv & Hok)|(-> & _ & b' & Hp & <-)].
      * exists i, a. split; [|done]. apply in_or_app. by left.
      * apply matched_right_rows_spec in Hp as (Hb & a & Ha & Hok).
        exists i0, a. simpl.
        destruct (proj2 (Hvis i0 a j0 b')) as [Hv Hok'].
        { split; [done|]. split; [done|]. by apply accepted_pairs_spec. }
        split; [|done]. apply in_or_app. by right.
    + intros (i & a & Hv & Hok). apply in_app_or in Hv as [Hv|Hv].
      * left. by exists i, a.
      * destruct (proj1 (Hvis i a j b)) as (-> & -> & Hp); [done|].
        apply accepted_pairs_spec in Hp as (Ha & Hb & Hok').
        right. split; [done|]. split.
        -- by apply (aligned_has_bit Rs _ _ rt).
        -- exists b. split; [|done]. apply matched_right_rows_spec.
           split; [done|]. by exists a.
Qed.

Lemma loop_step_ledger (predicate_ : option AbstractExpression)
    (join_type_ : JoinType) (s s' : State) :
  loop_step predicate_ join_type_ s s' →
  ledger_inv predicate_ s → ledger_inv predicate_ s'.
Proof.
  intros [|c| |t| |lt rt Hl Hr] Hinv.
  - pose proof Hinv as ((_ & _ & Hcur) & _).
    destruct (pick_left s) as [s1 adv] eqn:Hpick.
    pose proof (pick_left_cursor _ _ _ Hpick) as Hcur1.
    assert (Hcur' : left_result_tiles_ s1 = []
                    ∨ left_result_itr_ s1 < length (left_result_tiles_ s1)).
    { destruct Hcur1 as [(? & _)|?]; auto. }
    simpl. revert Hpick Hcur'. clear Hcur1.
    destruct (pick_left_cases s)
      as [[Hld ->]|[(Hld & t & c & _ & ->)|(Hld & c & _ & ->)]];
      intros [= <- <-] Hcur'.
    + by apply (ledger_frame_same _ s).
    + by apply (ledger_frame _ s _ [t] []); state_simpl;
        rewrite ?app_nil_r.
    + by apply (ledger_frame_same _ s).
  - destruct Hinv as ((? & ? & ?) & ?). by apply (ledger_frame_same _ s).
  - destruct Hinv as ((? & ? & ?) & ?). by apply (ledger_frame_same _ s).
  - pose proof Hinv as ((? & ? & ?) & ?).
    by apply (ledger_frame _ s _ [] [t]); state_simpl; rewrite ?app_nil_r.
  - pose proof Hinv as ((? & ? & Hcur) & ?).
    destruct (BuildOuterJoinOutput_frame join_type_ s)
      as (_ & _ & _ & _ & Hl & Hr & Hi & Hlm & Hrm & Ht).
    apply (ledger_frame_same _ s); try done.
    + apply BuildOuterJoinOutput_matched_part.
    + by rewrite Hl, Hi.
  - by apply ledger_pair.
Qed.

Lemma loop_steps_ledger (predicate_ : option AbstractExpression)
    (join_type_ : JoinType) (s s' : State) :
  loop_steps predicate_ join_type_ s s' →
  ledger_inv predicate_ s → ledger_inv predicate_ s'.
Proof.
  induction 1 as [s|s1 s2 s3 H12 _ IH]; [done|].
  intros H. by eapply IH, loop_step_ledger.
Qed.

Lemma ledger_inv_init (predicate_ : option AbstractExpression)
    (left right : Executor) :
  ledger_inv predicate_ (init_state left right).
Proof.
  unfold ledger_inv, buffers_wf; simpl.
  split; [|split; [|split; [|split]]].
  - split; [constructor|]. split; [constructor|]. by left.
  - constructor.
  - done.
  - intros i a. split; [done|]. by intros (? & ? & [] & _).
  - intros j b. split; [done|]. by intros (? & ? & [] & _).
Qed.

(** ** Runs of calls from [DInit] on *)

Lemma run_calls_emitted (exec : State → Outcome) (calls : nat) (s : State) :
  (∀ s1, call_emission s1 (exec s1)) →
  emitted_ (outcome_state (run_calls exec calls s).2)
  = emitted_ s ++ concat (run_calls exec calls s).1.
Proof.
  intros Hexec. revert s. induction calls as [|calls IH]; intros s.
  { simpl. by rewrite app_nil_r. }
  cbn [run_calls]. pose proof (Hexec s) as Hem.
  destruct (exec s) as [s1|[] s1|k s1]; simpl in *.
  - destruct Hem as (-> & _). by rewrite app_nil_r.
  - destruct Hem as (tile & _ & -> & He & _). simpl.
    rewrite IH, He, <- app_assoc. done.
  - destruct Hem as (-> & _). by rewrite app_nil_r.
  - destruct Hem as (-> & _). by rewrite app_nil_r.
Qed.

Section Runs.

Context (predicate_ : option AbstractExpression) (join_type_ : JoinType).

(** Either of the two loops, by [old]. *)
Local Abbreviation loop old fuel :=
  (if old then Old_DExecute predicate_ join_type_ fuel
   else DExecute predicate_ join_type_ fuel).

Lemma loop_steps_call (old : bool) (fuel : nat) (s0 s : State) :
  loop_steps predicate_ join_type_ s0 s →
  loop_steps predicate_ join_type_ s0 (outcome_state (loop old fuel s)).
Proof.
  destruct old; [apply Old_DExecute_steps|apply DExecute_steps].
Qed.

Lemma loop_call_emission (old : bool) (fuel : nat) (s : State) :
  call_emission s (loop old fuel s).
Proof.
  destruct old.
  - apply Old_DExecute_call_emission, quiet_refl.
  - apply DExecute_call_emission, quiet_refl.
Qed.

Lemma run_ledger (old : bool) (fuel calls : nat) (s : State) :
  ledger_inv predicate_ s →
  ledger_inv predicate_
    (outcome_state (run_calls (loop old fuel) calls s).2).
Proof.
  apply (loop_steps_ledger predicate_ join_type_).
  apply run_calls_steps; [|apply rtc_refl].
  intros s1. apply loop_steps_call.
Qed.

Lemma run_output (old : bool) (fuel calls : nat) (left right : Executor) :
  emitted_ (outcome_state
              (run_calls (loop old fuel) calls (init_state left right)).2)
  = concat (run_calls (loop old fuel) calls (init_state left right)).1.
Proof.
  rewrite run_calls_emitted; [done|]. intros s1. apply loop_call_emission.
Qed.

End Runs.

(** X2: in every state a run of calls of either loop can reach from the
    state [DInit] leaves, each side has one match bitset per buffered tile,
    with one bit per row of that tile, and the cursor [left_result_itr_] is
    the index of a buffered left tile unless no left tile is buffered. *)
Theorem buffers_stay_well_formed (predicate_ : option AbstractExpression)
    (join_type_ : JoinType) (left right : Executor) (old : bool)
    (fuel calls : nat) :
  let exec := if old then Old_DExecute predicate_ join_type_ fuel
              else DExecute predicate_ join_type_ fuel in
  let s' := outcome_state (run_calls exec calls (init_state left right)).2 in
  Forall2 (λ (t : LogicalTile) (bits : list bool), length bits = length t)
          (left_result_tiles_ s') (left_matched_ s')
  ∧ Forall2 (λ (t : LogicalTile) (bits : list bool), length bits = length t)
            (right_result_tiles_ s') (right_matched_ s')
  ∧ (left_result_tiles_ s' = []
     ∨ left_result_itr_ s' < length (left_result_tiles_ s')).
Proof.
  intros exec s'.
  pose proof (run_ledger predicate_ join_type_ old fuel calls
                (init_state left right)
                (ledger_inv_init predicate_ left right)) as (Hwf & _).
  exact Hwf.
Qed.

(** X3: whatever a run of calls of either loop has handed to its caller,
    the joined rows in it (the rows that are no outer-join padding) are
    exactly the pairs the matcher visited and the predicate did not reject,
    in the order of the visits, one output row per such visit; and every
    visit was of rows of tiles that are buffered. *)
Theorem output_is_accepted_visits (predicate_ : option AbstractExpression)
    (join_type_ : JoinType) (left right : Executor) (old : bool)
    (fuel calls : nat) :
  let exec := if old then Old_DExecute predicate_ join_type_ fuel
              else DExecute predicate_ join_type_ fuel in
  let r := run_calls exec calls (init_state left right) in
  let s' := outcome_state r.2 in
  matched_part (concat r.1)
  = joined_rows predicate_ (left_result_tiles_ s') (right_result_tiles_ s')
                (eval_trace_ s')
  ∧ Forall (in_buffers s') (eval_trace_ s').
Proof.
  intros exec r s'.
  pose proof (run_ledger predicate_ join_type_ old fuel calls
                (init_state left right)
                (ledger_inv_init predicate_ left right))
    as (_ & Hin & Hj & _).
  split; [|exact Hin].
  subst s' r exec. rewrite <- (run_output predicate_ join_type_). exact Hj.
Qed.


(** ** A whole run of the old loop *)

Section Old_run.

Context (predicate_ : option AbstractExpression) (join_type_ : JoinType).
Context (left right : Executor).

Local Abbreviation Ls := (child_output left).
Local Abbreviation Rs := (child_output right).
Local Abbreviation old_run fuel calls :=
  (run_calls (Old_DExecute predicate_ join_type_ fuel) calls
             (init_state left right)).

Lemma run_calls_old_inv (fuel calls : nat) (s : State) :
  old_inv Ls Rs s →
  old_inv Ls Rs
    (outcome_state
       (run_calls (Old_DExecute predicate_ join_type_ fuel) calls s).2).
Proof.
  revert s. induction calls as [|calls IH]; intros s Hinv; [done|].
  cbn [run_calls].
  destruct (Old_DExecute_inv Ls Rs predicate_ join_type_ fuel s Hinv)
    as [Hinv1 _].
  destruct (Old_DExecute predicate_ join_type_ fuel s) as [s1|[] s1|k s1];
    simpl in *; auto.
Qed.

(** What is known once the run has ended. *)
Lemma old_run_end (fuel calls : nat) (outs : list OutputTile) (s' : State) :
  old_run fuel calls = (outs, Returned false s') →
  ledger_inv predicate_ s'
  ∧ emitted_ s' = concat outs
  ∧ eval_trace_ s' = expected_trace Ls Rs
  ∧ left_result_tiles_ s' `prefix_of` Ls
  ∧ right_result_tiles_ s' `prefix_of` Rs.
Proof.
  intros Hrun.
  assert (Hs' : outcome_state (old_run fuel calls).2 = s') by by rewrite Hrun.
  assert (Houts : (old_run fuel calls).1 = outs) by by rewrite Hrun.
  pose proof (run_ledger predicate_ join_type_ true fuel calls
                (init_state left right)
                (ledger_inv_init predicate_ left right)) as Hled.
  pose proof (run_output predicate_ join_type_ true fuel calls left right)
    as Hout.
  pose proof (run_calls_old_inv fuel calls (init_state left right)
                (old_inv_init Ls Rs left right eq_refl eq_refl))
    as (HLs & HRs & _).
  simpl in Hled, Hout. rewrite Hs' in Hled, Hout, HLs, HRs.
  rewrite Houts in Hout.
  split; [done|]. split; [done|]. split.
  - apply (run_calls_inv Ls Rs predicate_ join_type_ fuel calls
             (init_state left right)).
    + by apply old_inv_init.
    + by rewrite Hrun.
  - split; [by exists (child_output (children0 s'))|
            by exists (child_output (children1 s'))].
Qed.

End Old_run.

Lemma joins_lookup (predicate_ : option AbstractExpression)
    (Ls Rs : list LogicalTile) (i : nat) (a : oid_t) (j : nat) (b : oid_t)
    (lt rt : LogicalTile) :
  Ls !! i = Some lt → Rs !! j = Some rt →
  joins predicate_ Ls Rs (i, a, j, b)
  = negb (pair_rejected predicate_ lt rt a b).
Proof.
  intros Hl Hr. unfold joins, accepts.
  assert (tile_at Ls i = lt) as -> by exact (f_equal (default []) Hl).
  assert (tile_at Rs j = rt) as -> by exact (f_equal (default []) Hr).
  done.
Qed.

(** The pairs of the expected trace that are not rejected. *)
Lemma expected_joins (predicate_ : option AbstractExpression)
    (Ls Rs : list LogicalTile) (i : nat) (a : oid_t) (j : nat) (b : oid_t) :
  In (i, a, j, b) (expected_trace Ls Rs)
  ∧ joins predicate_ Ls Rs (i, a, j, b) = true
  ↔ ∃ lt rt, Ls !! i = Some lt ∧ Rs !! j = Some rt
             ∧ In a (tile_iter lt) ∧ In b (tile_iter rt)
             ∧ pair_rejected predicate_ lt rt a b = false.
Proof.
  rewrite expected_trace_In. split.
  - intros ((lt & rt & Hl & Hr & Ha & Hb) & Hok). exists lt, rt.
    rewrite (joins_lookup _ _ _ _ _ _ _ lt rt) in Hok by done.
    apply negb_true_iff in Hok. done.
  - intros (lt & rt & Hl & Hr & Ha & Hb & Hok). split.
    + by exists lt, rt.
    + rewrite (joins_lookup _ _ _ _ _ _ _ lt rt) by done. by rewrite Hok.
Qed.

Lemma joined_row_inj (v w : nat * oid_t * nat * oid_t) :
  joined_row v = joined_row w → v = w.
Proof.
  destruct v as [[[i a] j] b], w as [[[i' a'] j'] b']. simpl. congruence.
Qed.

Lemma joined_rows_In (predicate_ : option AbstractExpression)
    (Ls Rs : list LogicalTile) (visits : list (nat * oid_t * nat * oid_t))
    (i : nat) (a : oid_t) (j : nat) (b : oid_t) :
  In (Some (i, a), Some (j, b)) (joined_rows predicate_ Ls Rs visits)
  ↔ In (i, a, j, b) visits ∧ joins predicate_ Ls Rs (i, a, j, b) = true.
Proof.
  unfold joined_rows. rewrite in_map_iff. split.
  - intros ([[[i' a'] j'] b'] & [= -> -> -> ->] & Hin).
    by apply filter_In in Hin.
  - intros Hin. exists (i, a, j, b). split; [done|]. by apply filter_In.
Qed.

Lemma matched_part_In (rows : list JoinedRow) (p q : nat * oid_t) :
  In (Some p, Some q) (matched_part rows) ↔ In (Some p, Some q) rows.
Proof. unfold matched_part. rewrite filter_In. tauto. Qed.

(** X5: the result of a join by the materialising loop.  When a run of
    calls of [Old_DExecute] from the state [DInit] leaves has ended with an
    exhaustion signal, the joined rows among the tiles it returned are, in
    this order, the pairs of the expected trace that the predicate does not
    reject.  So a left row and a right row are joined in the output if and
    only if they are visible rows of a tile the left child and of a tile
    the right child produced and the predicate does not evaluate to false
    on them, and no such pair is output twice, however the children cut
    their rows into tiles. *)
Theorem Old_DExecute_join_result (predicate_ : option AbstractExpression)
    (join_type_ : JoinType) (left right : Executor) (fuel calls : nat)
    (outs : list OutputTile) (s' : State) :
  let Ls := child_output left in
  let Rs := child_output right in
  run_calls (Old_DExecute predicate_ join_type_ fuel) calls
            (init_state left right) = (outs, Returned false s') →
  matched_part (concat outs)
  = joined_rows predicate_ Ls Rs (expected_trace Ls Rs)
  ∧ List.NoDup (matched_part (concat outs))
  ∧ (∀ i a j b,
       In (Some (i, a), Some (j, b)) (concat outs)
       ↔ ∃ lt rt, Ls !! i = Some lt ∧ Rs !! j = Some rt
                  ∧ In a (tile_iter lt) ∧ In b (tile_iter rt)
                  ∧ pair_rejected predicate_ lt rt a b = false).
Proof.
  intros Ls Rs Hrun.
  destruct (old_run_end _ _ _ _ _ _ _ _ Hrun)
    as ((_ & Hin & Hj & _) & Hout & Ht & Hpl & Hpr).
  assert (Heq : matched_part (concat outs)
                = joined_rows predicate_ Ls Rs (expected_trace Ls Rs)).
  { rewrite <- Hout, Hj, Ht. rewrite Ht in Hin.
    symmetry. by apply joined_rows_prefix. }
  split; [done|]. split.
  - rewrite Heq. unfold joined_rows.
    apply NoDup_map_inj; [apply joined_row_inj|].
    apply List.NoDup_filter. exact (full_visits_NoDup Ls Rs (length Rs)).
  - intros i a j b.
    rewrite <- matched_part_In, Heq, joined_rows_In.
    apply expected_joins.
Qed.

(** Two calls with output and a third that signals exhaustion, on the
    left-outer scenario. *)
Lemma Old_DExecute_join_result_witness :
  let r := run_calls (Old_DExecute (Some eq_predicate) JOIN_TYPE_LEFT 5) 3
                     left_outer_state in
  r.1 = [[(Some (0, 0), Some (0, 0))]; [(Some (0, 1), None)]]
  ∧ matched_part (concat r.1)
    = joined_rows (Some eq_predicate) [[key_row 1; key_row 2]] [[key_row 1]]
        (expected_trace [[key_row 1; key_row 2]] [[key_row 1]]).
Proof.
  intros r. split; [vm_compute; reflexivity|].
  refine (proj1 (Old_DExecute_join_result (Some eq_predicate) JOIN_TYPE_LEFT
                   (seq_scan [[key_row 1; key_row 2]])
                   (seq_scan [[key_row 1]]) 5 3 r.1 (outcome_state r.2) _)).
  vm_compute. reflexivity.
Defined.



(** ** The old loop mid-run *)

Section Old_progress.

Context (Ls Rs : list LogicalTile).

Lemma column_visits_prefix (j n n' : nat) :
  n ≤ n' → column_visits Ls Rs j n `prefix_of` column_visits Ls Rs j n'.
Proof.
  intros Hle. unfold column_visits.
  replace n' with (n + (n' - n)) by lia.
  rewrite seq_app, flat_map_app. by apply prefix_app_r.
Qed.

Lemma full_visits_prefix (m m' : nat) :
  m ≤ m' → full_visits Ls Rs m `prefix_of` full_visits Ls Rs m'.
Proof.
  intros Hle. unfold full_visits.
  replace m' with (m + (m' - m)) by lia.
  rewrite seq_app, flat_map_app. by apply prefix_app_r.
Qed.

(** Between iterations the visits made are an initial part of the
    expected trace. *)
Lemma old_inv_prefix (s : State) :
  old_inv Ls Rs s → eval_trace_ s `prefix_of` expected_trace Ls Rs.
Proof.
  intros (HLs & HRs & Hlo & Hro & Htr & Hff & Hft & Htf).
  rewrite Htr. unfold progress_trace, expected_trace.
  assert (HnL : length (left_result_tiles_ s) ≤ length Ls).
  { rewrite HLs, length_app. lia. }
  assert (HnR : length (right_result_tiles_ s) ≤ length Rs).
  { rewrite HRs, length_app. lia. }
  case_decide as Hz; [apply prefix_nil|].
  destruct (right_child_done_ s) eqn:Hrd.
  { by apply full_visits_prefix. }
  destruct (left_child_done_ s) eqn:Hld.
  - specialize (Hlo eq_refl).
    destruct (Htf eq_refl eq_refl) as [H0|[Hnr Hitr]]; [lia|].
    assert (HL : length Ls = length (left_result_tiles_ s)).
    { by rewrite HLs, Hlo, app_nil_r at 1. }
    etrans; [|apply (full_visits_prefix (length (right_result_tiles_ s)));
              done].
    replace (length (right_result_tiles_ s))
      with (S (length (right_result_tiles_ s) - 1)) at 3 by lia.
    rewrite full_visits_S. apply prefix_app, column_visits_prefix. lia.
  - destruct (Hff eq_refl eq_refl) as [[H0 _]|(Hnl & Hnr & _)]; [lia|].
    etrans; [|apply (full_visits_prefix 1); lia].
    rewrite (full_visits_S Ls Rs 0). simpl.
    by apply column_visits_prefix.
Qed.

End Old_progress.

(** X7: the materialising loop mid-run.  After any number of calls of
    [Old_DExecute] from the state [DInit] leaves, whether or not the run has
    ended, the pairs the matcher has visited are an initial part of the
    expected trace; so no pair of rows has been visited twice. *)
Theorem Old_DExecute_visits_in_order (predicate_ : option AbstractExpression)
    (join_type_ : JoinType) (left right : Executor) (fuel calls : nat) :
  let s' := outcome_state
              (run_calls (Old_DExecute predicate_ join_type_ fuel) calls
                         (init_state left right)).2 in
  eval_trace_ s'
    `prefix_of` expected_trace (child_output left) (child_output right)
  ∧ List.NoDup (eval_trace_ s').
Proof.
  intros s'.
  assert (Hp : eval_trace_ s'
    `prefix_of` expected_trace (child_output left) (child_output right)).
  { apply old_inv_prefix, run_calls_old_inv. by apply old_inv_init. }
  split; [done|]. destruct Hp as [rest Hrest].
  pose proof (full_visits_NoDup (child_output left) (child_output right)
                (length (child_output right))) as Hnd.
  fold (expected_trace (child_output left) (child_output right)) in Hnd.
  rewrite Hrest in Hnd. by apply NoDup_app_remove_r in Hnd.
Qed.

(** ** Inner joins *)

Lemma inner_step_only_pairs (predicate_ : option AbstractExpression)
    (s s' : State) :
  loop_step predicate_ JOIN_TYPE_INNER s s' →
  matched_part (emitted_ s) = emitted_ s →
  matched_part (emitted_ s') = emitted_ s'.
Proof.
  intros [|c| |t| |lt rt Hl Hr] H; try done.
  - destruct (pick_left s) as [s1 adv] eqn:Hpick. simpl.
    apply pick_left_right_side in Hpick as (_ & _ & _ & -> & _). done.
  - rewrite join_tiles_eq, finish_pair_emitted.
    rewrite matched_part_app, matched_part_pairs.
    unfold after_join; state_simpl. by rewrite H.
Qed.

Lemma inner_steps_only_pairs (predicate_ : option AbstractExpression)
    (s s' : State) :
  loop_steps predicate_ JOIN_TYPE_INNER s s' →
  matched_part (emitted_ s) = emitted_ s →
  matched_part (emitted_ s') = emitted_ s'.
Proof.
  induction 1 as [s|s1 s2 s3 H12 _ IH]; [done|].
  intros H. by eapply IH, inner_step_only_pairs.
Qed.

(** X8: an inner join is never padded.  Whatever a run of calls of either
    loop, for the join type [JOIN_TYPE_INNER], has handed to its caller,
    every row of it pairs a left row with a right row: the output is
    exactly the visited pairs the predicate did not reject, in the order of
    the visits. *)
Theorem inner_join_outputs_pairs_only (predicate_ : option AbstractExpression)
    (left right : Executor) (old : bool) (fuel calls : nat) :
  let exec := if old then Old_DExecute predicate_ JOIN_TYPE_INNER fuel
              else DExecute predicate_ JOIN_TYPE_INNER fuel in
  let r := run_calls exec calls (init_state left right) in
  let s' := outcome_state r.2 in
  concat r.1
  = joined_rows predicate_ (left_result_tiles_ s') (right_result_tiles_ s')
                (eval_trace_ s')
  ∧ ∀ row, In row (concat r.1) → is_Some row.1 ∧ is_Some row.2.
Proof.
  intros exec r s'.
  pose proof (run_ledger predicate_ JOIN_TYPE_INNER old fuel calls
                (init_state left right)
                (ledger_inv_init predicate_ left right))
    as (_ & _ & Hj & _).
  pose proof (run_output predicate_ JOIN_TYPE_INNER old fuel calls left right)
    as Hout.
  assert (Honly : matched_part (emitted_ s') = emitted_ s').
  { apply (inner_steps_only_pairs predicate_ (init_state left right));
      [|done].
    apply run_calls_steps; [|apply rtc_refl].
    intros s1. apply loop_steps_call. }
  subst s' r exec. rewrite <- Hout. split.
  - rewrite <- Honly. exact Hj.
  - intros row Hrow. rewrite <- Honly in Hrow.
    apply filter_In in Hrow as [_ Hrow].
    by destruct row as [[p|] [q|]].
Qed.

(** ** The probe loop in closed form *)

Section Probe_closed.

Context (p : AbstractExpression) (tuple_idx : nat) (col : oid_t).
Context (join_type_ : JoinType).
Hypothesis p_left : GetLeft p = Some (TupleValueExpression tuple_idx col).

(** What the closed form asks of the state: a buffered left tile, neither
    child found exhausted, and as right child an index scan on the
    predicate's column that has no lookup under way. *)
Local Abbreviation probing s :=
  (plan_node_type (children1 s) = PLAN_NODE_TYPE_INDEXSCAN
   ∧ key_column (children1 s) = col
   ∧ scan_started (children1 s) = false
   ∧ left_child_done_ s = false
   ∧ right_child_done_ s = false
   ∧ left_result_tiles_ s ≠ []).

Lemma probed_row_fields (lt : LogicalTile) (lrow : oid_t) (s : State) :
  probed_row col lt lrow s
  = let v := GetValue lt lrow col in
    let found := index_lookup (index_table (children1 s)) v in
    mkState (children0 s) (probe_child (children1 s) v) (left_child_done_ s)
      (right_child_done_ s) (left_result_tiles_ s)
      (right_result_tiles_ s ++ found) (left_result_itr_ s)
      (left_matched_ s)
      (right_matched_ s ++ map (λ t, replicate (length t) false) found)
      (left_matching_idx_ s) (right_matching_idx_ s) (output_ s)
      (emitted_ s) (eval_trace_ s).
Proof. unfold probed_row. by rewrite buffer_right_all_fields. Qed.

Lemma probe_row_closed (lt : LogicalTile) (lrow : oid_t) (s : State) :
  probing s →
  probe_row (Some p) join_type_ lt lrow s = Continue (probed_row col lt lrow s)
  ∧ probing (probed_row col lt lrow s).
Proof using p_left.
  intros (Hty & Hcol & Hst & Hld & Hrd & Hl). split.
  - unfold probe_row. rewrite p_left. unfold push_key.
    rewrite decide_True by done. unfold ReplaceKeyValue.
    rewrite decide_True by done. state_simpl. rewrite Hrd. cbn [andb].
    rewrite lookup_right_closed by done.
    unfold lookup_right_result. state_simpl. rewrite Hld.
    rewrite decide_True by done.
    rewrite probed_row_fields, buffer_right_all_fields. state_simpl.
    unfold child_output, probe_child, drained, ResetState.
    cbn [plan_node_type scan_started scan_pending index_table key_value
         key_column].
    rewrite Hty, Hst. reflexivity.
  - rewrite probed_row_fields. by cbn.
Qed.

Lemma probe_rows_closed (lt : LogicalTile) (rows : list oid_t) (s : State) :
  probing s →
  probe_rows (Some p) join_type_ lt rows s = Continue (probed col lt rows s)
  ∧ probing (probed col lt rows s).
Proof using p_left.
  revert s. induction rows as [|r rows IH]; intros s Hs; [done|].
  cbn [probe_rows probed foldl].
  destruct (probe_row_closed lt r s Hs) as [-> Hs1]. by apply IH.
Qed.

Lemma probed_fields (lt : LogicalTile) (rows : list oid_t) (s : State) :
  let found := lookups col (index_table (children1 s)) lt rows in
  same_left s (probed col lt rows s)
  ∧ right_result_tiles_ (probed col lt rows s)
    = right_result_tiles_ s ++ found
  ∧ right_matched_ (probed col lt rows s)
    = right_matched_ s ++ map (λ t, replicate (length t) false) found
  ∧ index_table (children1 (probed col lt rows s))
    = index_table (children1 s)
  ∧ left_matched_ (probed col lt rows s) = left_matched_ s
  ∧ quiet s (probed col lt rows s)
  ∧ eval_trace_ (probed col lt rows s) = eval_trace_ s.
Proof.
  revert s. induction rows as [|r rows IH]; intros s.
  { simpl. rewrite !app_nil_r. by repeat split. }
  cbn [probed foldl lookups List.flat_map].
  destruct (IH (probed_row col lt r s))
    as ((H0 & Hld & Hl & Hi) & Hr & Hrm & Htbl & Hlm & (He & Hli & Hri & Ho)
        & Ht).
  unfold probed in *. rewrite probed_row_fields in *. state_simpl.
  cbn [index_table probe_child] in *.
  rewrite Hr, Hrm, Htbl, map_app, <- !app_assoc.
  by repeat split.
Qed.

End Probe_closed.
(** The iteration of [DExecute] that pulls a left tile, in closed form:
    after the probes, the left tile meets the last buffered right tile. *)
Lemma DExecute_iteration_probe (p : AbstractExpression) (tuple_idx : nat)
    (col : oid_t) (join_type_ : JoinType) (s : State) (lt : LogicalTile)
    (c0 : Executor) :
  GetLeft p = Some (TupleValueExpression tuple_idx col) →
  plan_node_type (children1 s) = PLAN_NODE_TYPE_INDEXSCAN →
  key_column (children1 s) = col →
  scan_started (children1 s) = false →
  left_child_done_ s = false →
  right_child_done_ s = false →
  Execute (children0 s) = (Some lt, c0) →
  let s2 := probed col lt (tile_iter lt) (pick_left s).1 in
  DExecute_iteration (Some p) join_type_ s
  = match last (right_result_tiles_ s2) with
    | None => Fault RightBackOnEmpty s2
    | Some rt => finish_pair (join_tiles (Some p) lt rt s2)
    end
  ∧ right_result_tiles_ s2
    = right_result_tiles_ s
      ++ lookups col (index_table (children1 s)) lt (tile_iter lt)
  ∧ left_result_itr_ s2 = length (left_result_tiles_ s)
  ∧ quiet s s2
  ∧ eval_trace_ s2 = eval_trace_ s.
Proof.
  intros Hp Hty Hcol Hst Hld Hrd Hex s2.
  destruct (pick_left_cases s)
    as [[Hld' _]|[(_ & t & c & Hex' & Hpick)|(_ & c & Hex' & _)]];
    [congruence| |congruence].
  rewrite Hex in Hex'. injection Hex' as <- <-.
  assert (Hs1 : (pick_left s).1
                = set_left_result_itr (length (left_result_tiles_ s))
                    (BufferLeftTile lt (set_children0 c0 s))).
  { by rewrite Hpick. }
  set (s1 := (pick_left s).1) in *.
  assert (Hprobing : plan_node_type (children1 s1) = PLAN_NODE_TYPE_INDEXSCAN
                     ∧ key_column (children1 s1) = col
                     ∧ scan_started (children1 s1) = false
                     ∧ left_child_done_ s1 = false
                     ∧ right_child_done_ s1 = false
                     ∧ left_result_tiles_ s1 ≠ []).
  { rewrite Hs1. state_simpl. repeat split; try done.
    by destruct (left_result_tiles_ s). }
  destruct (probe_rows_closed p tuple_idx col join_type_ Hp lt (tile_iter lt)
              s1 Hprobing) as [Hrows (_ & _ & _ & _ & Hrd2 & _)].
  destruct (probed_fields col lt (tile_iter lt) s1)
    as ((_ & _ & Hl2 & Hi2) & Hr2 & _ & _ & _ & Hq2 & Ht2).
  fold s2 in Hrows, Hrd2, Hl2, Hi2, Hr2, Hq2, Ht2.
  assert (Hlook : left_result_tiles_ s1 !! left_result_itr_ s1 = Some lt).
  { rewrite Hs1. state_simpl. apply list_lookup_middle. done. }
  split; [|split; [|split; [|split]]].
  - unfold DExecute_iteration. rewrite Hld. cbn [andb].
    rewrite Hpick. fold s1 in Hs1. rewrite <- Hs1.
    rewrite Hlook, Hrows, Hrd2. cbn [andb]. rewrite andb_false_r. done.
  - rewrite Hr2, Hs1. done.
  - rewrite Hi2, Hs1. done.
  - eapply quiet_trans; [|exact Hq2]. rewrite Hs1. by repeat split.
  - rewrite Ht2, Hs1. done.
Qed.

Lemma lookups_nil (col : oid_t) (tbl : list (Value * list LogicalTile))
    (lt : LogicalTile) (rows : list oid_t) :
  (∀ lrow, In lrow rows → index_lookup tbl (GetValue lt lrow col) = []) →
  lookups col tbl lt rows = [].
Proof.
  unfold lookups. induction rows as [|r rows IH]; intros Hmiss; [done|].
  simpl. rewrite IH; [|intros; apply Hmiss; by right].
  rewrite Hmiss; [done|by left].
Qed.



(** X10: a left tile none of whose keys is in the index.  In a state with
    neither child found exhausted, no right tile buffered and as right
    child an index scan on the column of the predicate's left operand with
    no lookup under way, let the left child return a tile for each of whose
    visible rows the index holds nothing (a tile without visible rows is
    such a tile).  Then the call of [DExecute] reaches
    [right_result_tiles_.back()], line 342, with [right_result_tiles_]
    empty, which is undefined behaviour; no pair was evaluated and nothing
    was output before. *)
Theorem DExecute_missing_keys_back_on_empty (p : AbstractExpression)
    (tuple_idx : nat) (col : oid_t) (join_type_ : JoinType) (s : State)
    (lt : LogicalTile) (c0 : Executor) (fuel : nat) :
  GetLeft p = Some (TupleValueExpression tuple_idx col) →
  plan_node_type (children1 s) = PLAN_NODE_TYPE_INDEXSCAN →
  key_column (children1 s) = col →
  scan_started (children1 s) = false →
  left_child_done_ s = false →
  right_child_done_ s = false →
  right_result_tiles_ s = [] →
  Execute (children0 s) = (Some lt, c0) →
  (∀ lrow, In lrow (tile_iter lt) →
     index_lookup (index_table (children1 s)) (GetValue lt lrow col) = []) →
  ∃ s', DExecute (Some p) join_type_ (S fuel) s = Fault RightBackOnEmpty s'
    ∧ quiet s s'
    ∧ eval_trace_ s' = eval_trace_ s.
Proof.
  intros Hp Hty Hcol Hst Hld Hrd Hnil Hex Hmiss.
  destruct (DExecute_iteration_probe p tuple_idx col join_type_ s lt c0)
    as (Hit & Hr & _ & Hq & Ht); [done..|].
  assert (Hnone : lookups col (index_table (children1 s)) lt (tile_iter lt)
                  = []).
  { by apply lookups_nil. }
  rewrite Hnil, Hnone in Hr. rewrite Hr in Hit. simpl in Hit.
  eexists. cbn [DExecute]. rewrite Hit. done.
Qed.

(** A left row with the key 6 against the index on the keys 5, 7 and 9. *)
Lemma DExecute_missing_keys_back_on_empty_witness :
  ∃ s', DExecute (Some eq_predicate) JOIN_TYPE_INNER 1
          (init_state (seq_scan [[key_row 6]]) index_579)
        = Fault RightBackOnEmpty s'.
Proof.
  destruct (DExecute_missing_keys_back_on_empty eq_predicate 0 0
              JOIN_TYPE_INNER
              (init_state (seq_scan [[key_row 6]]) index_579)
              [key_row 6] (Execute (seq_scan [[key_row 6]])).2 0)
    as (s' & Hcall & _); [reflexivity..| |].
  - intros lrow [<-|[]]. vm_compute. reflexivity.
  - by exists s'.
Defined.



(** ** A right child that is no index scan *)

(** X12: [DExecute] on a right child that is not an index scan.  In a
    state with neither child found exhausted, let the left child return a
    tile with a visible row, the predicate's left operand being a
    tuple-value expression.  No bound is pushed; the probe for the first row
    pulls the right child until it reports exhaustion, buffering every tile
    it returns, and then casts it to an index-scan executor to reset it,
    line 324, which no type test guards: the call ends in that cast, with
    no pair evaluated and nothing output. *)
Theorem DExecute_needs_index_scan_child (p : AbstractExpression)
    (tuple_idx : nat) (col : oid_t) (join_type_ : JoinType) (s : State)
    (lt : LogicalTile) (c0 : Executor) (fuel : nat) :
  GetLeft p = Some (TupleValueExpression tuple_idx col) →
  plan_node_type (children1 s) ≠ PLAN_NODE_TYPE_INDEXSCAN →
  left_child_done_ s = false →
  right_child_done_ s = false →
  Execute (children0 s) = (Some lt, c0) →
  tile_iter lt ≠ [] →
  ∃ s', DExecute (Some p) join_type_ (S fuel) s = Fault BadExecutorCast s'
    ∧ right_result_tiles_ s'
      = right_result_tiles_ s ++ child_output (children1 s)
    ∧ child_output (children1 s') = []
    ∧ quiet s s'
    ∧ eval_trace_ s' = eval_trace_ s.
Proof.
  intros Hp Hty Hld Hrd Hex Hrows.
  destruct (pick_left_cases s)
    as [[Hld' _]|[(_ & t & c & Hex' & Hpick)|(_ & c & Hex' & _)]];
    [congruence| |congruence].
  rewrite Hex in Hex'. injection Hex' as <- <-.
  set (s1 := set_left_result_itr (length (left_result_tiles_ s))
               (BufferLeftTile lt (set_children0 c0 s))) in *.
  assert (Hlook : left_result_tiles_ s1 !! left_result_itr_ s1 = Some lt).
  { unfold s1. state_simpl. by apply list_lookup_middle. }
  assert (Hne : left_result_tiles_ s1 ≠ []).
  { unfold s1. state_simpl. by destruct (left_result_tiles_ s). }
  eexists. split.
  - cbn [DExecute]. unfold DExecute_iteration. rewrite Hld. cbn [andb].
    rewrite Hpick, Hlook.
    destruct (tile_iter lt) as [|r rows]; [done|].
    cbn [probe_rows]. unfold probe_row. rewrite Hp. unfold push_key.
    rewrite decide_False by done.
    replace (right_child_done_ s1) with false by done. cbn [andb].
    rewrite lookup_right_closed by done. unfold lookup_right_result.
    replace (left_child_done_ s1) with false by done.
    rewrite decide_False by done. reflexivity.
  - rewrite buffer_right_all_fields. state_simpl. split; [done|].
    split; [|by repeat split].
    unfold child_output, drained; simpl. by destruct (plan_node_type _).
Qed.

(** On [one_row_seq_state] the right child is a sequential scan. *)
Lemma DExecute_needs_index_scan_child_witness :
  ∃ s', DExecute (Some eq_predicate) JOIN_TYPE_INNER 1 one_row_seq_state
        = Fault BadExecutorCast s'
    ∧ right_result_tiles_ s' = [[key_row 5]].
Proof.
  destruct (DExecute_needs_index_scan_child eq_predicate 0 0 JOIN_TYPE_INNER
              one_row_seq_state [key_row 5]
              (Execute (seq_scan [[key_row 5]])).2 0)
    as (s' & Hcall & Hr & _); [reflexivity| |reflexivity..| |].
  - discriminate.
  - vm_compute. discriminate.
  - exists s'. split; [exact Hcall|exact Hr].
Defined.

(** ** An input without tiles *)

(** X13: the materialising loop on an empty input.  If the left or the
    right child produces no tile at all, the first call of [Old_DExecute]
    for an inner join, from the state [DInit] leaves, signals exhaustion:
    nothing is output and the predicate is not evaluated once. *)
Theorem Old_DExecute_empty_input (predicate_ : option AbstractExpression)
    (left right : Executor) (fuel : nat) :
  child_output left = [] ∨ child_output right = [] →
  ∃ s', Old_DExecute predicate_ JOIN_TYPE_INNER (S fuel)
                     (init_state left right) = Returned false s'
    ∧ output_ s' = None
    ∧ emitted_ s' = []
    ∧ eval_trace_ s' = [].
Proof.
  intros Hempty. cbn [Old_DExecute].
  unfold Old_iteration, pick_left, init_state.
  cbn [left_child_done_ right_child_done_ andb children0].
  assert (Hright : child_output right = [] →
                   ∃ c, Execute right = (None, c)).
  { intros H. unfold Execute. rewrite H. eauto. }
  destruct (Execute left) as [[t|] c0] eqn:Hleft.
  - apply Execute_Some in Hleft as [Hout _].
    destruct Hempty as [H|H]; [by rewrite H in Hout|].
    destruct (Hright H) as [c1 Hex1]. state_simpl.
    rewrite bool_decide_eq_true_2 by done. cbn [orb andb].
    state_simpl. rewrite Hex1. eexists. by repeat split.
  - state_simpl. cbn [orb andb].
    destruct (Execute right) as [[t|] c1]; state_simpl.
    + rewrite bool_decide_eq_true_2 by done. cbn [andb]. eexists.
      by repeat split.
    + eexists. by repeat split.
Qed.

(** On [empty_left_state] the left child has no tile. *)
Lemma Old_DExecute_empty_input_witness :
  ∃ s', Old_DExecute (Some eq_predicate) JOIN_TYPE_INNER 1 empty_left_state
        = Returned false s'
    ∧ emitted_ s' = [].
Proof.
  destruct (Old_DExecute_empty_input (Some eq_predicate) (seq_scan [])
              (seq_scan [[key_row 5]]) 0) as (s' & Hcall & _ & He & _).
  - left. reflexivity.
  - exists s'. split; [exact Hcall|exact He].
Defined.

(** ** Joined rows are sound *)

Lemma visible_visit_grows (s s' : State) (v : nat * oid_t * nat * oid_t) :
  grows s s' → visible_visit s v → visible_visit s' v.
Proof.
  intros (Hl & Hr & _). destruct v as [[[i a] j] b].
  intros (lt & rt & Hi & Hj & Ha & Hb). exists lt, rt.
  split; [by eapply prefix_lookup_Some|].
  split; [by eapply prefix_lookup_Some|done].
Qed.

(** A step leaves the trace alone, or is a pairing. *)
Lemma loop_step_trace (predicate_ : option AbstractExpression)
    (join_type_ : JoinType) (s s' : State) :
  loop_step predicate_ join_type_ s s' →
  eval_trace_ s' = eval_trace_ s
  ∨ ∃ lt rt,
      left_result_tiles_ s !! left_result_itr_ s = Some lt
      ∧ last (right_result_tiles_ s) = Some rt
      ∧ eval_trace_ s'
        = eval_trace_ s
          ++ visited_pairs lt rt (left_result_itr_ s)
               (length (right_result_tiles_ s) - 1).
Proof.
  intros [|c| |t| |lt rt Hl Hr]; try by left.
  - left. destruct (pick_left s) as [s1 adv] eqn:Hpick. simpl.
    by apply pick_left_right_side in Hpick as (_ & _ & _ & _ & ->).
  - left. by destruct (BuildOuterJoinOutput_frame join_type_ s)
      as (_ & _ & _ & _ & _ & _ & _ & _ & _ & ->).
  - right. exists lt, rt. split; [done|]. split; [done|].
    rewrite join_tiles_eq.
    by destruct (finish_pair_same_buffers
                   (after_join predicate_ lt rt s)
                   (accepted_pairs predicate_ lt rt))
      as (_ & _ & _ & _ & _ & _ & _ & _ & _ & ->).
Qed.

Lemma loop_step_visible (predicate_ : option AbstractExpression)
    (join_type_ : JoinType) (s s' : State) :
  loop_step predicate_ join_type_ s s' →
  Forall (visible_visit s) (eval_trace_ s) →
  Forall (visible_visit s') (eval_trace_ s').
Proof.
  intros Hstep Hvis.
  pose proof (loop_step_grows _ _ _ _ Hstep) as Hg.
  assert (Hold : Forall (visible_visit s') (eval_trace_ s)).
  { eapply Forall_impl; [exact Hvis|]. intros v. by apply visible_visit_grows. }
  destruct (loop_step_trace _ _ _ _ Hstep) as [->|(lt & rt & Hl & Hr & ->)];
    [done|].
  apply Forall_app. split; [done|].
  apply Forall_forall. intros [[[i a] j] b] Hv.
  apply list_elem_of_In, visited_pairs_In in Hv as (-> & -> & Ha & Hb).
  apply (visible_visit_grows s); [done|]. exists lt, rt.
  split; [done|]. split; [|done].
  rewrite <- Hr, last_lookup. f_equal. lia.
Qed.

Lemma loop_steps_visible (predicate_ : option AbstractExpression)
    (join_type_ : JoinType) (s s' : State) :
  loop_steps predicate_ join_type_ s s' →
  Forall (visible_visit s) (eval_trace_ s) →
  Forall (visible_visit s') (eval_trace_ s').
Proof.
  induction 1 as [s|s1 s2 s3 H12 _ IH]; [done|].
  intros H. by eapply IH, loop_step_visible.
Qed.

(** X14: both loops are sound.  Whatever a run of calls of either loop,
    from the state [DInit] leaves, has handed to its caller, a row of it that
    joins left row [a] of left tile [i] with right row [b] of right tile
    [j] refers to buffered tiles and to visible rows of them, and the
    predicate does not evaluate to false on these two rows. *)
Theorem joined_rows_are_sound (predicate_ : option AbstractExpression)
    (join_type_ : JoinType) (left right : Executor) (old : bool)
    (fuel calls : nat) (i : nat) (a : oid_t) (j : nat) (b : oid_t) :
  let exec := if old then Old_DExecute predicate_ join_type_ fuel
              else DExecute predicate_ join_type_ fuel in
  let r := run_calls exec calls (init_state left right) in
  let s' := outcome_state r.2 in
  In (Some (i, a), Some (j, b)) (concat r.1) →
  ∃ lt rt, left_result_tiles_ s' !! i = Some lt
           ∧ right_result_tiles_ s' !! j = Some rt
           ∧ In a (tile_iter lt) ∧ In b (tile_iter rt)
           ∧ pair_rejected predicate_ lt rt a b = false.
Proof.
  intros exec r s' Hrow.
  pose proof (run_ledger predicate_ join_type_ old fuel calls
                (init_state left right)
                (ledger_inv_init predicate_ left right))
    as (_ & _ & Hj & _).
  pose proof (run_output predicate_ join_type_ old fuel calls left right)
    as Hout.
  assert (Hvis : Forall (visible_visit s') (eval_trace_ s')).
  { apply (loop_steps_visible predicate_ join_type_ (init_state left right)).
    - apply run_calls_steps; [|apply rtc_refl].
      intros s1. apply loop_steps_call.
    - constructor. }
  subst s' r exec. rewrite <- Hout in Hrow.
  apply matched_part_In in Hrow. rewrite Hj in Hrow.
  apply joined_rows_In in Hrow as [Hv Hok].
  rewrite Forall_forall in Hvis.
  destruct (Hvis (i, a, j, b)) as (lt & rt & Hi & Hj' & Ha & Hb);
    [by apply list_elem_of_In|].
  exists lt, rt. rewrite (joins_lookup _ _ _ _ _ _ _ lt rt) in Hok by done.
  apply negb_true_iff in Hok. done.
Qed.

(** The first call of [DExecute] on [three_row_state] joins left row 2
    (key 9) with the row of the third right tile. *)
Lemma joined_rows_are_sound_witness :
  let r := run_calls (DExecute (Some eq_predicate) JOIN_TYPE_INNER 1) 1
                     (init_state
                        (seq_scan [[key_row 5; key_row 7; key_row 9]])
                        index_579) in
  let s' := outcome_state r.2 in
  ∃ lt rt, left_result_tiles_ s' !! 0 = Some lt
           ∧ right_result_tiles_ s' !! 2 = Some rt
           ∧ In 2 (tile_iter lt) ∧ In 0 (tile_iter rt)
           ∧ pair_rejected (Some eq_predicate) lt rt 2 0 = false.
Proof.
  apply (joined_rows_are_sound (Some eq_predicate) JOIN_TYPE_INNER
           (seq_scan [[key_row 5; key_row 7; key_row 9]]) index_579
           false 1 1 0 2 2 0).
  vm_compute. left. reflexivity.
Defined.

(** ** The left buffer *)

Lemma loop_step_left_kept (predicate_ : option AbstractExpression)
    (join_type_ : JoinType) (tiles : list LogicalTile) (s s' : State) :
  loop_step predicate_ join_type_ s s' →
  tiles = left_result_tiles_ s ++ child_output (children0 s)
  ∧ (left_child_done_ s = true → child_output (children0 s) = []) →
  tiles = left_result_tiles_ s' ++ child_output (children0 s')
  ∧ (left_child_done_ s' = true → child_output (children0 s') = []).
Proof.
  intros [|c| |t| |lt rt Hl Hr] [Htiles Hdone]; try done.
  - destruct (pick_left_cases s)
      as [[Hld ->]|[(Hld & t & c & Hex & ->)|(Hld & c & Hex & ->)]];
      state_simpl.
    + done.
    + apply Execute_Some in Hex as [Hout _]. rewrite Hout in Htiles.
      rewrite <- app_assoc. split; [done|]. by rewrite Hld.
    + apply Execute_None in Hex as [Hout Hout']. rewrite Hout in Htiles.
      by rewrite Hout'.
  - destruct (BuildOuterJoinOutput_frame join_type_ s)
      as (-> & _ & -> & _ & -> & _). done.
  - rewrite join_tiles_eq.
    destruct (finish_pair_same_buffers
                (after_join predicate_ lt rt s)
                (accepted_pairs predicate_ lt rt))
      as (-> & _ & -> & _ & -> & _). done.
Qed.

(** X15: the left buffer holds what the left child has returned.  In
    every state a run of calls of either loop reaches from the state [DInit]
    leaves, the tiles of [left_result_tiles_], followed by the tiles the left
    child has yet to return, are the tiles the left child had to return at
    the start, in their order: no tile is dropped, buffered twice or out of
    order; and [left_child_done_] is set only when the left child has no
    tile left. *)
Theorem left_buffer_is_child_output (predicate_ : option AbstractExpression)
    (join_type_ : JoinType) (left right : Executor) (old : bool)
    (fuel calls : nat) :
  let exec := if old then Old_DExecute predicate_ join_type_ fuel
              else DExecute predicate_ join_type_ fuel in
  let s' := outcome_state (run_calls exec calls (init_state left right)).2 in
  child_output left = left_result_tiles_ s' ++ child_output (children0 s')
  ∧ (left_child_done_ s' = true → child_output (children0 s') = []).
Proof.
  intros exec s'.
  assert (Hsteps : loop_steps predicate_ join_type_
                     (init_state left right) s').
  { apply run_calls_steps; [|apply rtc_refl].
    intros s1. apply loop_steps_call. }
  clearbody s'. clear exec.
  assert (H0 : child_output left
               = left_result_tiles_ (init_state left right)
                 ++ child_output (children0 (init_state left right))
               ∧ (left_child_done_ (init_state left right) = true →
                  child_output (children0 (init_state left right)) = []))
    by done.
  revert H0. generalize (child_output left) as tiles.
  induction Hsteps as [s|s1 s2 s3 H12 _ IH]; intros tiles H0; [done|].
  by eapply IH, loop_step_left_kept.
Qed.

(** ** Running the matcher again *)

Lemma mark_matched_comm (k : nat) (r r' : oid_t) (m : list (list bool)) :
  mark_matched k r (mark_matched k r' m)
  = mark_matched k r' (mark_matched k r m).
Proof.
  unfold mark_matched. rewrite !list_alter_alter_eq.
  apply list_alter_ext; [|done]. intros bits _. simpl.
  destruct (decide (r = r')) as [->|Hne]; [done|].
  by apply list_insert_insert_ne.
Qed.

Lemma marks_comm {A : Type} (f : A → oid_t) (k : nat) (r : oid_t)
    (l : list A) (m : list (list bool)) :
  mark_matched k r (foldl (λ m x, mark_matched k (f x) m) m l)
  = foldl (λ m x, mark_matched k (f x) m) (mark_matched k r m) l.
Proof.
  revert m. induction l as [|x l IH]; intros m; [done|]. simpl.
  by rewrite IH, mark_matched_comm.
Qed.

Lemma marks_absorb {A : Type} (f : A → oid_t) (k : nat) (l : list A)
    (m : list (list bool)) (x : A) :
  In x l →
  mark_matched k (f x) (foldl (λ m x, mark_matched k (f x) m) m l)
  = foldl (λ m x, mark_matched k (f x) m) m l.
Proof.
  revert m. induction l as [|y l IH]; intros m; [done|].
  intros [->|Hin]; simpl.
  - by rewrite marks_comm, mark_matched_idemp.
  - by apply IH.
Qed.

Lemma marks_again {A : Type} (f : A → oid_t) (k : nat) (l l' : list A)
    (m : list (list bool)) :
  (∀ x, In x l' → In x l) →
  foldl (λ m x, mark_matched k (f x) m)
        (foldl (λ m x, mark_matched k (f x) m) m l) l'
  = foldl (λ m x, mark_matched k (f x) m) m l.
Proof.
  induction l' as [|x l' IH]; intros Hincl; [done|]. simpl.
  rewrite marks_absorb by (apply Hincl; by left).
  apply IH. intros y Hy. apply Hincl. by right.
Qed.

(** X16: the matcher run a second time on the same two tiles, as happens
    when [DExecute] meets a left tile again while the last right tile is
    still the same, finds the same pairs and sets no further match bit: the
    position lists are those of the first run, and the match bitsets of
    both sides are as the first run left them. *)
Theorem matcher_rerun_sets_no_bit (predicate_ : option AbstractExpression)
    (left_tile right_tile : LogicalTile) (s : State) :
  let r1 := join_tiles predicate_ left_tile right_tile s in
  let r2 := join_tiles predicate_ left_tile right_tile r1.1 in
  r2.2 = r1.2
  ∧ left_matched_ r2.1 = left_matched_ r1.1
  ∧ right_matched_ r2.1 = right_matched_ r1.1
  ∧ eval_trace_ r2.1
    = eval_trace_ r1.1
      ++ visited_pairs left_tile right_tile (left_result_itr_ s)
           (length (right_result_tiles_ s) - 1).
Proof.
  intros r1 r2. subst r2 r1. rewrite !join_tiles_eq. cbn [fst snd].
  unfold after_join. state_simpl.
  split; [done|]. split; [|split; [|done]].
  - by apply (marks_again fst).
  - by apply (marks_again id).
Qed.

(** ** The tile of a successful call *)

Lemma BuildLeftJoinOutput_padding (s : State) :
  (BuildLeftJoinOutput s).1 = true →
  ∃ tile, output_ (BuildLeftJoinOutput s).2 = Some tile
          ∧ padding_output tile.
Proof.
  unfold BuildLeftJoinOutput.
  destruct (find_unmatched _ _ _) as [[b rows]|]; [|done]. intros _.
  eexists. split; [done|]. left. intros row Hrow.
  apply in_map_iff in Hrow as (i & <- & _). by split.
Qed.

Lemma BuildRightJoinOutput_padding (s : State) :
  (BuildRightJoinOutput s).1 = true →
  ∃ tile, output_ (BuildRightJoinOutput s).2 = Some tile
          ∧ padding_output tile.
Proof.
  unfold BuildRightJoinOutput.
  destruct (find_unmatched _ _ _) as [[b rows]|]; [|done]. intros _.
  eexists. split; [done|]. right. intros row Hrow.
  apply in_map_iff in Hrow as (i & <- & _). by split.
Qed.

Section Call_output.

Context (predicate_ : option AbstractExpression) (join_type_ : JoinType).

Lemma Build_call_output (s : State) :
  call_output predicate_ (returned (BuildOuterJoinOutput join_type_ s)).
Proof.
  unfold returned.
  destruct (BuildOuterJoinOutput join_type_ s).1 eqn:Hb; [|done]. simpl.
  revert Hb. unfold BuildOuterJoinOutput. destruct join_type_.
  - done.
  - intros Hb. destruct (BuildLeftJoinOutput_padding s Hb) as (tile & ? & ?).
    exists tile. auto.
  - intros Hb. destruct (BuildRightJoinOutput_padding s Hb) as (tile & ? & ?).
    exists tile. auto.
  - destruct (BuildLeftJoinOutput s).1 eqn:Hl.
    + intros _. destruct (BuildLeftJoinOutput_padding s Hl) as (tile & ? & ?).
      exists tile. auto.
    + intros Hb.
      destruct (BuildRightJoinOutput_padding _ Hb) as (tile & ? & ?).
      exists tile. auto.
Qed.

Lemma pair_call_output (s : State) (lt rt : LogicalTile) :
  left_result_tiles_ s !! left_result_itr_ s = Some lt →
  last (right_result_tiles_ s) = Some rt →
  call_output predicate_ (finish_pair (join_tiles predicate_ lt rt s)).
Proof.
  intros Hl Hr. rewrite join_tiles_eq. unfold finish_pair.
  case_decide; [|done]. simpl. eexists. split; [done|]. left.
  exists lt, rt. unfold after_join. state_simpl. done.
Qed.

Lemma lookup_right_loop_call_output (fuel : nat) (s : State) :
  call_output predicate_ (lookup_right_loop join_type_ fuel s).
Proof.
  revert s. induction fuel as [|fuel IH]; intros s; [done|].
  cbn [lookup_right_loop].
  destruct (Execute (children1 s)) as [[t|] c].
  - destruct (left_child_done_ _ && _); [apply Build_call_output|apply IH].
  - destruct (negb _); [by case_decide|done].
Qed.

Lemma probe_row_call_output (lt : LogicalTile) (lrow : oid_t) (s : State) :
  call_output predicate_ (probe_row predicate_ join_type_ lt lrow s).
Proof.
  unfold probe_row.
  pose proof Build_call_output as HB.
  pose proof (lookup_right_loop_call_output) as HL.
  destruct predicate_ as [p|]; [|done].
  destruct (GetLeft p) as [[ti col| |]|]; try done.
  unfold push_key. case_decide.
  - destruct (ReplaceKeyValue _ _ _) as [[] c]; [|done].
    destruct (right_child_done_ _ && _); [apply HB|apply HL].
  - destruct (right_child_done_ _ && _); [apply HB|apply HL].
Qed.

Lemma probe_rows_call_output (lt : LogicalTile) (rows : list oid_t)
    (s : State) :
  call_output predicate_ (probe_rows predicate_ join_type_ lt rows s).
Proof.
  revert s. induction rows as [|r rows IH]; intros s; [done|].
  cbn [probe_rows]. pose proof (probe_row_call_output lt r s) as H1.
  destruct (probe_row predicate_ join_type_ lt r s); auto.
Qed.

Lemma DExecute_iteration_call_output (s : State) :
  call_output predicate_ (DExecute_iteration predicate_ join_type_ s).
Proof.
  unfold DExecute_iteration.
  destruct (left_child_done_ s && right_child_done_ s).
  { apply Build_call_output. }
  destruct (pick_left s) as [s1 adv] eqn:Hpick.
  destruct (_ !! _) as [lt|] eqn:Hl; [|done].
  pose proof (probe_rows_call_output lt (tile_iter lt) s1) as H2.
  pose proof (probe_rows_left predicate_ join_type_ lt (tile_iter lt) s1 s1
                (same_left_refl s1)) as Hleft.
  destruct (probe_rows predicate_ join_type_ lt (tile_iter lt) s1)
    as [s2|b s2|k s2]; try done.
  destruct ((adv || _) && _).
  { apply Build_call_output. }
  destruct (last _) as [rt|] eqn:Hr; [|done].
  simpl in Hleft. destruct Hleft as (_ & _ & Ht & Hi).
  apply pair_call_output; [|done]. by rewrite Ht, Hi.
Qed.

Lemma DExecute_call_output (fuel : nat) (s : State) :
  call_output predicate_ (DExecute predicate_ join_type_ fuel s).
Proof.
  revert s. induction fuel as [|fuel IH]; intros s; [done|].
  cbn [DExecute]. pose proof (DExecute_iteration_call_output s) as H1.
  destruct (DExecute_iteration predicate_ join_type_ s); auto.
Qed.

Lemma Old_iteration_call_output (s : State) :
  call_output predicate_ (Old_iteration predicate_ join_type_ s).
Proof.
  destruct (Old_iteration_shape predicate_ join_type_ s)
    as [Hd|s1 adv Hd Hp Hrd Hnil|s1 adv c Hd Hp Hadv Hex
        |s1 adv t c Hd Hp Hadv Hex Hld Hnil|s1 adv t c lt Hd Hp Hadv Hex Hl
        |s1 lt rt Hd Hp Hr Hl];
    try apply Build_call_output.
  - rewrite <- join_tiles_eq. apply pair_call_output; [done|].
    state_simpl. apply last_snoc.
  - rewrite <- join_tiles_eq. by apply pair_call_output.
Qed.

Lemma Old_DExecute_call_output (fuel : nat) (s : State) :
  call_output predicate_ (Old_DExecute predicate_ join_type_ fuel s).
Proof.
  revert s. induction fuel as [|fuel IH]; intros s; [done|].
  cbn [Old_DExecute]. pose proof (Old_iteration_call_output s) as H1.
  destruct (Old_iteration predicate_ join_type_ s); auto.
Qed.

End Call_output.

(** X17: the tile of a successful call.  A call of either loop that
    returns [true], from whatever state, has set as its output either the
    accepted pairs of one pair of tiles, the left tile now under the cursor
    [left_result_itr_] and the last right tile buffered, all of them and
    nothing else; or rows of one side that are each padded with a null row
    on the other side.  A call never hands out rows of two pairs of tiles,
    nor a mix of joined and padded rows. *)
Theorem call_hands_out_one_tile_pair (predicate_ : option AbstractExpression)
    (join_type_ : JoinType) (fuel : nat) (s s' : State) :
  Old_DExecute predicate_ join_type_ fuel s = Returned true s'
  ∨ DExecute predicate_ join_type_ fuel s = Returned true s' →
  ∃ tile, output_ s' = Some tile
    ∧ ((∃ lt rt,
          left_result_tiles_ s' !! left_result_itr_ s' = Some lt
          ∧ last (right_result_tiles_ s') = Some rt
          ∧ tile = map (λ p : oid_t * oid_t,
                          (Some (left_result_itr_ s', p.1),
                           Some (length (right_result_tiles_ s') - 1, p.2)))
                       (accepted_pairs predicate_ lt rt))
       ∨ (∀ row, In row tile → is_Some row.1 ∧ row.2 = None)
       ∨ (∀ row, In row tile → row.1 = None ∧ is_Some row.2)).
Proof.
  intros [Hcall|Hcall].
  - pose proof (Old_DExecute_call_output predicate_ join_type_ fuel s) as H.
    rewrite Hcall in H. exact H.
  - pose proof (DExecute_call_output predicate_ join_type_ fuel s) as H.
    rewrite Hcall in H. exact H.
Qed.

(** The first call of the old loop on the left-outer scenario hands out
    the one pair of the first two tiles. *)
Lemma call_hands_out_one_tile_pair_witness :
  let s' := outcome_state
              (Old_DExecute (Some eq_predicate) JOIN_TYPE_LEFT 5
                            left_outer_state) in
  ∃ tile, output_ s' = Some tile
    ∧ ((∃ lt rt,
          left_result_tiles_ s' !! left_result_itr_ s' = Some lt
          ∧ last (right_result_tiles_ s') = Some rt
          ∧ tile = map (λ p : oid_t * oid_t,
                          (Some (left_result_itr_ s', p.1),
                           Some (length (right_result_tiles_ s') - 1, p.2)))
                       (accepted_pairs (Some eq_predicate) lt rt))
       ∨ (∀ row, In row tile → is_Some row.1 ∧ row.2 = None)
       ∨ (∀ row, In row tile → row.1 = None ∧ is_Some row.2)).
Proof.
  intros s'.
  apply (call_hands_out_one_tile_pair (Some eq_predicate) JOIN_TYPE_LEFT 5
           left_outer_state s').
  left. vm_compute. reflexivity.
Defined.

(** ** Exhaustion is final for the old loop on an inner join *)

Section Old_final.

Context (predicate_ : option AbstractExpression).
Context (Ls Rs : list LogicalTile).

Local Abbreviation old_call fuel :=
  (Old_DExecute predicate_ JOIN_TYPE_INNER fuel).

(** A call that signals exhaustion leaves a final state. *)
Lemma Old_DExecute_false_final (join_type_ : JoinType) (fuel : nat)
    (s s' : State) :
  Old_DExecute predicate_ join_type_ fuel s = Returned false s' →
  old_final s'.
Proof.
  revert s. induction fuel as [|fuel IH]; intros s; [done|].
  cbn [Old_DExecute].
  pose proof (Old_iteration_shape predicate_ join_type_ s) as Hshape.
  destruct (Old_iteration predicate_ join_type_ s) as [s1|b s1|k s1];
    [apply IH| |done].
  intros [= -> ->]. by eapply old_shape_false.
Qed.

(** In a final state one iteration ends the call, with an exhaustion
    signal, in a final state again, nothing paired and nothing emitted. *)
Lemma old_final_iteration (s : State) :
  old_inv Ls Rs s → old_final s →
  ∃ s', Old_iteration predicate_ JOIN_TYPE_INNER s = Returned false s'
    ∧ old_final s'
    ∧ quiet s s'
    ∧ eval_trace_ s' = eval_trace_ s.
Proof.
  intros (HLs & HRs & Hlo & Hro & Htr & Hff & Hft & Htf) Hfin.
  assert (Hpicked : ∀ s1 adv, pick_left s = (s1, adv) →
    quiet s s1 ∧ eval_trace_ s1 = eval_trace_ s
    ∧ right_child_done_ s1 = right_child_done_ s
    ∧ right_result_tiles_ s1 = right_result_tiles_ s
    ∧ children1 s1 = children1 s
    ∧ (left_child_done_ s = true →
       left_child_done_ s1 = true
       ∧ left_result_tiles_ s1 = left_result_tiles_ s)).
  { intros s1 adv Hp. split; [by eapply pick_left_quiet|].
    destruct (pick_left_right_side _ _ _ Hp) as (Hr & Hrd & Hc & _ & Ht).
    repeat split; try done.
    - destruct (pick_left_cases s)
        as [[_ Hp']|[(Hld & _)|(Hld & _)]]; [|congruence..].
      rewrite Hp in Hp'. by injection Hp' as -> _.
    - destruct (pick_left_cases s)
        as [[_ Hp']|[(Hld & _)|(Hld & _)]]; [|congruence..].
      rewrite Hp in Hp'. by injection Hp' as -> _. }
  destruct (Old_iteration_shape predicate_ JOIN_TYPE_INNER s)
    as [Hd|s1 adv Hd Hp Hrd Hnil|s1 adv c Hd Hp Hadv Hex
        |s1 adv t c Hd Hp Hadv Hex Hld Hnil|s1 adv t c lt Hd Hp Hadv Hex Hl
        |s1 lt rt Hd Hp Hr Hl].
  - exists s. split; [done|]. split; [done|]. split; [apply quiet_refl|done].
  - destruct (Hpicked _ _ Hp) as (Hq & Ht & _).
    exists s1. split; [done|]. split; [by left|done].
  - destruct (Hpicked _ _ Hp) as (Hq & Ht & _).
    eexists. split; [done|]. split; [by left|]. split; [|done].
    eapply quiet_trans; [exact Hq|]. by repeat split.
  - destruct (Hpicked _ _ Hp) as (Hq & Ht & _).
    eexists. split; [done|]. split; [by right|]. split; [|done].
    eapply quiet_trans; [exact Hq|]. by repeat split.
  - exfalso. destruct (Hpicked _ _ Hp) as (_ & _ & Hrd1 & Hr1 & Hc1 & Hl1).
    destruct Hfin as [Hrd|[Hld Hnil]].
    + rewrite Hc1 in Hex. apply Execute_Some in Hex as [Hout _].
      by rewrite (Hro Hrd) in Hout.
    + destruct (Hl1 Hld) as [_ Hl']. by rewrite Hl', Hnil in Hl.
  - exfalso. destruct (Hpicked _ _ Hp) as (_ & _ & Hrd1 & Hr1 & Hc1 & Hl1).
    destruct Hfin as [Hrd|[Hld Hnil]].
    + destruct (left_child_done_ s) eqn:Hld; [by rewrite Hrd in Hd|].
      specialize (Hft eq_refl Hrd).
      rewrite Hr1 in Hr. by destruct (right_result_tiles_ s).
    + destruct (Hl1 Hld) as [_ Hl']. by rewrite Hl', Hnil in Hl.
Qed.

Lemma old_final_call (fuel : nat) (s : State) :
  old_inv Ls Rs s → old_final s →
  ∃ s', old_call (S fuel) s = Returned false s'
    ∧ old_inv Ls Rs s' ∧ old_final s'
    ∧ quiet s s'
    ∧ eval_trace_ s' = eval_trace_ s.
Proof.
  intros Hinv Hfin.
  destruct (old_final_iteration s Hinv Hfin) as (s' & Hit & Hfin' & Hq & Ht).
  exists s'. cbn [Old_DExecute]. rewrite Hit. split; [done|].
  split; [|done].
  pose proof (Old_DExecute_inv Ls Rs predicate_ JOIN_TYPE_INNER 1 s Hinv)
    as [Hinv' _].
  cbn [Old_DExecute] in Hinv'. by rewrite Hit in Hinv'.
Qed.

Lemma old_final_calls (fuel n : nat) (s : State) :
  old_inv Ls Rs s → old_final s →
  ∃ s_n, Nat.iter n (λ s, outcome_state (old_call (S fuel) s)) s = s_n
    ∧ old_inv Ls Rs s_n ∧ old_final s_n
    ∧ quiet s s_n ∧ eval_trace_ s_n = eval_trace_ s.
Proof.
  intros Hinv Hfin. induction n as [|n IH].
  { exists s. split; [done|]. split; [done|]. split; [done|].
    split; [apply quiet_refl|done]. }
  destruct IH as (s_n & Hiter & Hinv_n & Hfin_n & Hq_n & Ht_n).
  destruct (old_final_call fuel s_n Hinv_n Hfin_n)
    as (s' & Hcall & Hinv' & Hfin' & Hq' & Ht').
  exists s'. rewrite Nat.iter_succ, Hiter, Hcall.
  split; [done|]. split; [done|]. split; [done|].
  split; [by eapply quiet_trans|congruence].
Qed.

End Old_final.

Lemma run_calls_false_final (predicate_ : option AbstractExpression)
    (join_type_ : JoinType) (fuel calls : nat) (s : State)
    (outs : list OutputTile) (s' : State) :
  run_calls (Old_DExecute predicate_ join_type_ fuel) calls s
  = (outs, Returned false s') →
  old_final s'.
Proof.
  revert outs s. induction calls as [|calls IH]; intros outs s; [done|].
  cbn [run_calls].
  destruct (Old_DExecute predicate_ join_type_ fuel s)
    as [s1|[] s1|k s1] eqn:Hcall; try done.
  - destruct (run_calls _ calls s1) as [outs1 o1] eqn:Hrest.
    simpl. intros [= _ ->]. by eapply IH.
  - intros [= _ ->]. by eapply Old_DExecute_false_final.
Qed.

(** X18: for an inner join the exhaustion signal of the materialising
    loop is final.  When a run of calls of [Old_DExecute], from the state
    [DInit] leaves, has ended with a call returning [false], then every call
    made after that, however many, returns [false] as well: it evaluates no
    pair and leaves the output, the rows handed out and the emission cursors
    as they were. *)
Theorem Old_DExecute_inner_exhaustion_is_final
    (predicate_ : option AbstractExpression) (left right : Executor)
    (fuel calls : nat) (outs : list OutputTile) (s' : State)
    (fuel' n : nat) :
  run_calls (Old_DExecute predicate_ JOIN_TYPE_INNER fuel) calls
            (init_state left right) = (outs, Returned false s') →
  let again :=
    λ s, outcome_state (Old_DExecute predicate_ JOIN_TYPE_INNER (S fuel') s) in
  ∃ s'', Old_DExecute predicate_ JOIN_TYPE_INNER (S fuel')
                      (Nat.iter n again s') = Returned false s''
    ∧ output_ s'' = output_ s'
    ∧ emitted_ s'' = emitted_ s'
    ∧ eval_trace_ s'' = eval_trace_ s'.
Proof.
  intros Hrun again.
  set (Ls := child_output left). set (Rs := child_output right).
  assert (Hinv : old_inv Ls Rs s').
  { pose proof (run_calls_old_inv predicate_ JOIN_TYPE_INNER left right fuel
                  calls (init_state left right)
                  (old_inv_init Ls Rs left right eq_refl eq_refl)) as H.
    by rewrite Hrun in H. }
  assert (Hfin : old_final s') by by eapply run_calls_false_final.
  destruct (old_final_calls predicate_ Ls Rs fuel' n s' Hinv Hfin)
    as (s_n & Hiter & Hinv_n & Hfin_n & (He & _ & _ & Ho) & Ht_n).
  destruct (old_final_call predicate_ Ls Rs fuel' s_n Hinv_n Hfin_n)
    as (s'' & Hcall & _ & _ & (He' & _ & _ & Ho') & Ht').
  exists s''. subst again. rewrite Hiter.
  split; [exact Hcall|]. split; [congruence|]. split; congruence.
Qed.

(** On an inner join of the left-outer scenario's inputs the second call
    signals exhaustion, and so does the third call after it. *)
Lemma Old_DExecute_inner_exhaustion_is_final_witness :
  let r := run_calls (Old_DExecute (Some eq_predicate) JOIN_TYPE_INNER 5) 2
                     left_outer_state in
  r.1 = [[(Some (0, 0), Some (0, 0))]]
  ∧ ∃ s'', Old_DExecute (Some eq_predicate) JOIN_TYPE_INNER 1
             (Nat.iter 1
                (λ s, outcome_state
                        (Old_DExecute (Some eq_predicate) JOIN_TYPE_INNER 1
                                      s))
                (outcome_state r.2))
           = Returned false s''.
Proof.
  intros r. split; [vm_compute; reflexivity|].
  destruct (Old_DExecute_inner_exhaustion_is_final (Some eq_predicate)
              (seq_scan [[key_row 1; key_row 2]]) (seq_scan [[key_row 1]])
              5 2 r.1 (outcome_state r.2) 0 1) as (s'' & Hcall & _).
  - vm_compute. reflexivity.
  - by exists s''.
Defined.

(** ** Both inputs are materialised *)

(** X19: the materialising loop buffers both inputs whole.  When a run
    of calls of [Old_DExecute], from the state [DInit] leaves, has ended with
    an exhaustion signal and each child had at least one tile to return,
    then both exhaustion flags are set, neither child has a tile left, and
    the two buffers hold every tile of the left and every tile of the right
    child, in the order the children returned them. *)
Theorem Old_DExecute_materialises_both_inputs
    (predicate_ : option AbstractExpression) (join_type_ : JoinType)
    (left right : Executor) (fuel calls : nat) (outs : list OutputTile)
    (s' : State) :
  run_calls (Old_DExecute predicate_ join_type_ fuel) calls
            (init_state left right) = (outs, Returned false s') →
  child_output left ≠ [] →
  child_output right ≠ [] →
  left_result_tiles_ s' = child_output left
  ∧ right_result_tiles_ s' = child_output right
  ∧ left_child_done_ s' = true
  ∧ right_child_done_ s' = true
  ∧ child_output (children0 s') = []
  ∧ child_output (children1 s') = [].
Proof.
  intros Hrun Hl Hr.
  pose proof (run_calls_false_final _ _ _ _ _ _ _ Hrun) as Hfin.
  pose proof (run_calls_old_inv predicate_ join_type_ left right fuel
                calls (init_state left right)
                (old_inv_init _ _ left right eq_refl eq_refl)) as Hinv.
  rewrite Hrun in Hinv. simpl in Hinv.
  destruct Hinv as (HLs & HRs & Hlo & Hro & _ & _ & Hft & _).
  destruct Hfin as [Hrd|[Hld Hnil]].
  - specialize (Hro Hrd). rewrite Hro, app_nil_r in HRs.
    destruct (left_child_done_ s') eqn:Hld.
    + specialize (Hlo eq_refl). rewrite Hlo, app_nil_r in HLs. done.
    + specialize (Hft eq_refl Hrd). rewrite <- HRs in Hft.
      by destruct (child_output right).
  - specialize (Hlo Hld). rewrite Hlo, Hnil in HLs. done.
Qed.

(** On the left-outer scenario both buffers hold the one tile of their
    side at the end. *)
Lemma Old_DExecute_materialises_both_inputs_witness :
  let r := run_calls (Old_DExecute (Some eq_predicate) JOIN_TYPE_LEFT 5) 3
                     left_outer_state in
  left_result_tiles_ (outcome_state r.2) = [[key_row 1; key_row 2]]
  ∧ right_result_tiles_ (outcome_state r.2) = [[key_row 1]].
Proof.
  intros r.
  destruct (Old_DExecute_materialises_both_inputs (Some eq_predicate)
              JOIN_TYPE_LEFT (seq_scan [[key_row 1; key_row 2]])
              (seq_scan [[key_row 1]]) 5 3 r.1 (outcome_state r.2))
    as (Hl & Hr & _).
  - vm_compute. reflexivity.
  - vm_compute. discriminate.
  - vm_compute. discriminate.
  - split; [exact Hl|exact Hr].
Defined.

(** ** A run of the probe loop ends *)

Lemma probe_measure_same_buffers (s s' : State) :
  same_buffers s s' → probe_measure s' = probe_measure s.
Proof.
  intros (Hc0 & _ & Hld & Hrd & Hl & _ & Hi & _).
  unfold probe_measure. by rewrite Hc0, Hld, Hrd, Hl, Hi.
Qed.

Lemma probe_measure_pos (s : State) :
  left_child_done_ s && right_child_done_ s = false → 0 < probe_measure s.
Proof.
  intros Hnd. unfold probe_measure. rewrite Hnd.
  destruct (left_child_done_ s); lia.
Qed.

Section Probe_run.

Context (predicate_ : option AbstractExpression) (join_type_ : JoinType).

(** A probe that ends the call with output does so through the emitter,
    with the right child found exhausted. *)
Lemma probe_row_returns_true (lt : LogicalTile) (lrow : oid_t) (s s' : State) :
  left_result_tiles_ s ≠ [] →
  probe_row predicate_ join_type_ lt lrow s = Returned true s' →
  right_child_done_ s' = true.
Proof.
  intros Hl. unfold probe_row. destruct predicate_ as [p|]; [|done].
  destruct (GetLeft p) as [[ti col|v|ty l r]|]; try done.
  assert (Hcases : ∀ x, left_result_tiles_ x ≠ [] →
    (if right_child_done_ x && bool_decide (right_result_tiles_ x = [])
     then returned (BuildOuterJoinOutput join_type_ x)
     else lookup_right join_type_ x) = Returned true s' →
    right_child_done_ s' = true).
  { intros x Hx.
    destruct (right_child_done_ x && _) eqn:Hrd.
    - intros [= _ <-]. apply andb_true_iff in Hrd as [Hrd _].
      by destruct (BuildOuterJoinOutput_frame join_type_ x)
        as (_ & _ & _ & -> & _).
    - rewrite lookup_right_closed by done. unfold lookup_right_result.
      destruct (left_child_done_ x); [done|]. by case_decide. }
  unfold push_key. case_decide.
  - destruct (ReplaceKeyValue col _ (children1 s)) as [[] c]; [|done].
    by apply Hcases.
  - by apply Hcases.
Qed.

Lemma probe_rows_returns_true (lt : LogicalTile) (rows : list oid_t)
    (s s' : State) :
  left_result_tiles_ s ≠ [] →
  probe_rows predicate_ join_type_ lt rows s = Returned true s' →
  right_child_done_ s' = true.
Proof.
  revert s. induction rows as [|r rows IH]; intros s Hl; [done|].
  cbn [probe_rows].
  pose proof (probe_row_left predicate_ join_type_ lt r s s
                (same_left_refl s)) as Hleft.
  pose proof (probe_row_returns_true lt r s) as Hrow.
  destruct (probe_row predicate_ join_type_ lt r s) as [s1|b s1|k s1];
    [|intros [= -> ->]; by apply Hrow|done].
  apply IH. simpl in Hleft. destruct Hleft as (_ & _ & -> & _). done.
Qed.

(** The probes of the tile the left pick chose lower the probe measure,
    as long as the pairing or the emitter can follow. *)
Lemma probes_measure (s s1 : State) (adv : bool) (lt : LogicalTile)
    (s2 : State) :
  probe_inv s →
  left_child_done_ s && right_child_done_ s = false →
  pick_left s = (s1, adv) →
  left_result_tiles_ s1 !! left_result_itr_ s1 = Some lt →
  same_left s1 s2 →
  (tile_iter lt = [] → s2 = s1) →
  (tile_iter lt ≠ [] → left_child_done_ s1 = true →
   right_child_done_ s2 = true) →
  right_result_tiles_ s2 ≠ [] ∨ right_child_done_ s2 = true →
  probe_measure s2 < probe_measure s.
Proof.
  intros Hinv Hnd Hpick Hlt (Hc0 & Hld2 & Hlt2 & Hitr2) Hnone Hsome Hnext.
  unfold probe_measure. rewrite Hc0, Hld2, Hlt2, Hitr2, Hnd.
  destruct (pick_left_cases s) as [[Hl Hp]|[[Hl (t0 & c0 & Hex0 & Hp)]
                                           |[Hl (c0 & Hex0 & Hp)]]];
    rewrite Hp in Hpick; simplify_eq; state_simpl; rewrite Hl.
  - fold (next_itr (length (left_result_tiles_ s)) (left_result_itr_ s))
      in *. simpl.
    rewrite Hl in Hnd. simpl in Hnd.
    destruct (tile_iter lt) as [|r rows] eqn:Hrows.
    + rewrite (Hnone eq_refl) in *. state_simpl. rewrite Hnd.
      destruct Hnext as [Hne|Hrd]; [|congruence].
      apply Nat.add_lt_mono_r. eapply cyc_dist_step; [done..|].
      by apply Hinv.
    + rewrite Hsome by done. lia.
  - apply Execute_Some in Hex0 as [Hout0 _]. rewrite Hout0.
    rewrite length_app. simpl. lia.
  - apply Execute_None in Hex0 as [Hout0 _]. rewrite Hout0.
    destruct (right_child_done_ s2); simpl; [lia|].
    pose proof (cyc_dist_bound (left_result_tiles_ s) 0). lia.
Qed.

(** An iteration that ends the call with output lowers the measure. *)
Lemma DExecute_iteration_true_measure (s s' : State) :
  probe_inv s →
  left_child_done_ s && right_child_done_ s = false →
  DExecute_iteration predicate_ join_type_ s = Returned true s' →
  probe_measure s' < probe_measure s.
Proof.
  intros Hinv Hnd. unfold DExecute_iteration. rewrite Hnd.
  destruct (pick_left s) as [s1 adv] eqn:Hpick.
  destruct (left_result_tiles_ s1 !! left_result_itr_ s1) as [lt|] eqn:Hlt;
    [|done].
  assert (Hne : left_result_tiles_ s1 ≠ []).
  { intros Hnil. by rewrite Hnil in Hlt. }
  pose proof (probe_rows_left predicate_ join_type_ lt (tile_iter lt) s1 s1
                (same_left_refl s1)) as Hleft.
  pose proof (probe_rows_returns_true lt (tile_iter lt) s1) as Htrue.
  pose proof (probe_rows_done predicate_ join_type_ lt (tile_iter lt) s1)
    as Hdone.
  assert (Hempty : tile_iter lt = [] →
    probe_rows predicate_ join_type_ lt (tile_iter lt) s1 = Continue s1).
  { by intros ->. }
  destruct (probe_rows predicate_ join_type_ lt (tile_iter lt) s1)
    as [s2|b s2|k s2]; [| |done].
  - simpl in Hleft.
    assert (Hstep : right_result_tiles_ s2 ≠ [] ∨ right_child_done_ s2 = true →
                    probe_measure s2 < probe_measure s).
    { apply (probes_measure s s1 adv lt s2); try done.
      - intros H. specialize (Hempty H). by injection Hempty.
      - intros H Hld. by eapply Hdone. }
    destruct ((adv || _) && _) eqn:Hcond.
    + intros [= _ <-].
      rewrite (probe_measure_same_buffers s2)
        by apply BuildOuterJoinOutput_frame.
      apply Hstep. right.
      apply andb_true_iff in Hcond as [_ Hcond].
      by apply andb_true_iff in Hcond as [-> _].
    + destruct (last (right_result_tiles_ s2)) as [rt|] eqn:Hlast; [|done].
      rewrite join_tiles_eq. intros Hfin.
      pose proof (finish_pair_same_buffers
                    (after_join predicate_ lt rt s2)
                    (accepted_pairs predicate_ lt rt)) as Hsame.
      rewrite Hfin in Hsame. simpl in Hsame.
      rewrite (probe_measure_same_buffers _ _ Hsame).
      replace (probe_measure (after_join predicate_ lt rt s2))
        with (probe_measure s2) by done.
      apply Hstep. left. intros Hnil. by rewrite Hnil in Hlast.
  - intros [= -> ->]. specialize (Htrue s' Hne eq_refl).
    simpl in Hleft. apply (probes_measure s s1 adv lt s'); try done.
    + intros H. by specialize (Hempty H).
    + by right.
Qed.

(** A call that returns with output lowers the measure. *)
Lemma DExecute_true_measure (fuel : nat) (s s' : State) :
  probe_inv s →
  left_child_done_ s && right_child_done_ s = false →
  DExecute predicate_ join_type_ fuel s = Returned true s' →
  probe_measure s' < probe_measure s.
Proof.
  revert s. induction fuel as [|fuel IH]; intros s Hinv Hnd; [done|].
  cbn [DExecute].
  pose proof (DExecute_iteration_probe_inv predicate_ join_type_ s Hinv)
    as Hinv1.
  destruct (DExecute_iteration predicate_ join_type_ s) as [s1|b s1|k s1]
    eqn:Hit; [| |done].
  - apply DExecute_iteration_measure in Hit; [|done]. simpl in Hinv1.
    destruct (left_child_done_ s1 && right_child_done_ s1) eqn:Hnd1.
    + destruct fuel as [|fuel]; [done|]. cbn [DExecute].
      unfold DExecute_iteration. rewrite Hnd1. intros [= _ <-].
      rewrite (probe_measure_same_buffers s1)
        by apply BuildOuterJoinOutput_frame.
      done.
    + intros Hcall. apply IH in Hcall; [lia|done..].
  - intros [= -> ->]. by apply DExecute_iteration_true_measure.
Qed.

(** With both children done the run is the emitter's, and ends. *)
Lemma probe_emitter_run_ends (k : nat) (fuel : nat) (s : State) :
  left_child_done_ s = true → right_child_done_ s = true →
  emit_measure s ≤ k →
  ∃ calls s',
    (run_calls (DExecute predicate_ join_type_ (S fuel)) calls s).2
    = Returned false s'.
Proof.
  revert s. induction k as [|k IH]; intros s Hld Hrd Hk.
  - exists 1. cbn [run_calls DExecute]. unfold DExecute_iteration.
    rewrite Hld, Hrd. simpl.
    pose proof (BuildOuterJoinOutput_measure join_type_ s) as Hm.
    destruct (BuildOuterJoinOutput join_type_ s) as [[] s1]; simpl in *.
    + specialize (Hm eq_refl). lia.
    + by eexists.
  - pose proof (BuildOuterJoinOutput_measure join_type_ s) as Hm.
    pose proof (BuildOuterJoinOutput_frame join_type_ s)
      as (_ & _ & Hl1 & Hr1 & _).
    destruct (BuildOuterJoinOutput join_type_ s) as [[] s1] eqn:Hb;
      simpl in *.
    + destruct (IH s1) as (calls & s' & Hrun); [congruence..|lia|].
      exists (S calls), s'. cbn [run_calls DExecute].
      unfold DExecute_iteration. rewrite Hld, Hrd. simpl. rewrite Hb. simpl.
      exact Hrun.
    + exists 1, s1. cbn [run_calls DExecute]. unfold DExecute_iteration.
      rewrite Hld, Hrd. simpl. by rewrite Hb.
Qed.

Lemma probe_run_ends (m : nat) (fuel : nat) (s : State) :
  probe_inv s → probe_measure s ≤ m → probe_measure s < fuel →
  ∃ calls,
    (∃ s', (run_calls (DExecute predicate_ join_type_ fuel) calls s).2
           = Returned false s')
    ∨ (∃ k s', (run_calls (DExecute predicate_ join_type_ fuel) calls s).2
               = Fault k s').
Proof.
  revert s. induction m as [|m IH]; intros s Hinv Hm Hfuel.
  - destruct fuel as [|fuel]; [lia|].
    destruct (left_child_done_ s && right_child_done_ s) eqn:Hdone.
    + apply andb_true_iff in Hdone as [Hld Hrd].
      destruct (probe_emitter_run_ends (emit_measure s) fuel s)
        as (calls & s' & Hrun); [done..|].
      exists calls. left. by exists s'.
    + apply probe_measure_pos in Hdone. lia.
  - destruct (left_child_done_ s && right_child_done_ s) eqn:Hdone.
    + destruct fuel as [|fuel]; [lia|].
      apply andb_true_iff in Hdone as [Hld Hrd].
      destruct (probe_emitter_run_ends (emit_measure s) fuel s)
        as (calls & s' & Hrun); [done..|].
      exists calls. left. by exists s'.
    + pose proof (DExecute_ends predicate_ join_type_ fuel s Hinv Hfuel)
        as Hends.
      pose proof (DExecute_probe_inv predicate_ join_type_ fuel s Hinv)
        as Hinv1.
      pose proof (DExecute_true_measure fuel s) as Hlt.
      destruct (DExecute predicate_ join_type_ fuel s) as [s1|[] s1|k s1]
        eqn:Hcall.
      * by destruct (Hends s1).
      * specialize (Hlt s1 Hinv Hdone eq_refl). simpl in Hinv1.
        destruct (IH s1) as (calls & Hrun); [done|lia..|].
        exists (S calls). cbn [run_calls]. rewrite Hcall. exact Hrun.
      * exists 1. left. exists s1. cbn [run_calls]. by rewrite Hcall.
      * exists 1. right. exists k, s1. cbn [run_calls]. by rewrite Hcall.
Qed.

End Probe_run.

(** X20: a run of [DExecute] ends.  From the state [DInit] leaves, the
    caller's loop over [DExecute] comes, after finitely many calls that
    return [true], to a call that returns [false] or that runs into one of
    the faults of [DExecute]; no call loops for ever, and the loop cannot be
    handed output for ever. *)
Theorem DExecute_run_ends (predicate_ : option AbstractExpression)
    (join_type_ : JoinType) (left right : Executor) :
  let s0 := init_state left right in
  let fuel := S (probe_measure s0) in
  ∃ calls,
    (∃ s', (run_calls (DExecute predicate_ join_type_ fuel) calls s0).2
           = Returned false s')
    ∨ (∃ k s', (run_calls (DExecute predicate_ join_type_ fuel) calls s0).2
               = Fault k s').
Proof.
  intros s0 fuel.
  apply (probe_run_ends predicate_ join_type_ (probe_measure s0)).
  - apply probe_inv_init.
  - done.
  - unfold fuel. lia.
Qed.

(** ** The assertions of the old loop hold *)

Section Old_asserts.

Context (predicate_ : option AbstractExpression) (join_type_ : JoinType).

(** With the left child done and the right child not, a right tile is
    buffered: every way out of an iteration either set the right flag or
    left a right tile behind. *)
Lemma old_shape_right_tile (s : State) (o : Outcome) :
  old_shape predicate_ join_type_ s o →
  right_child_done_ (outcome_state o) = true
  ∨ right_result_tiles_ (outcome_state o) ≠ [].
Proof.
  assert (Hb : ∀ x,
    right_child_done_ x = true ∨ right_result_tiles_ x ≠ [] →
    right_child_done_
      (outcome_state (returned (BuildOuterJoinOutput join_type_ x))) = true
    ∨ right_result_tiles_
        (outcome_state (returned (BuildOuterJoinOutput join_type_ x))) ≠ []).
  { intros x. simpl.
    by destruct (BuildOuterJoinOutput_frame join_type_ x)
      as (_ & _ & _ & -> & _ & -> & _). }
  assert (Hf : ∀ x lt rt,
    right_result_tiles_ x ≠ [] →
    right_result_tiles_
      (outcome_state
         (finish_pair (after_join predicate_ lt rt x,
                       accepted_pairs predicate_ lt rt))) ≠ []).
  { intros x lt rt Hx.
    by destruct (finish_pair_same_buffers (after_join predicate_ lt rt x)
                   (accepted_pairs predicate_ lt rt))
      as (_ & _ & _ & _ & _ & -> & _). }
  intros [Hd|s1 adv Hd Hp Hrd Hnil|s1 adv c Hd Hp Hadv Hex
          |s1 adv t c Hd Hp Hadv Hex Hld Hnil|s1 adv t c lt Hd Hp Hadv Hex Hl
          |s1 lt rt Hd Hp Hr Hl].
  - apply Hb. left. by apply andb_true_iff in Hd as [_ ->].
  - apply Hb. by left.
  - apply Hb. by left.
  - apply Hb. right. state_simpl. by destruct (right_result_tiles_ s1).
  - right. apply Hf. state_simpl. by destruct (right_result_tiles_ s1).
  - right. apply Hf. intros Hnil. by rewrite Hnil in Hr.
Qed.

Lemma old_reachable_inv (left right : Executor) (s : State) :
  old_reachable predicate_ join_type_ left right s →
  old_inv (child_output left) (child_output right) s
  ∧ (s = init_state left right
     ∨ right_child_done_ s = true ∨ right_result_tiles_ s ≠ []).
Proof.
  induction 1 as [|s Hreach [Hinv _]].
  - split; [by apply old_inv_init|by left].
  - pose proof (Old_iteration_shape predicate_ join_type_ s) as Hshape.
    split; [by eapply old_shape_inv|].
    right. by eapply old_shape_right_tile.
Qed.

End Old_asserts.

(** X21: the assertions of [Old_DExecute] hold.  At the top of every
    iteration the old loop makes in the runs from the state [DInit] leaves,
    if the left child is done and the right child is not, a right tile is
    buffered, as line 103 asserts; and if, after the left pick, the right
    child is about to be pulled, the cursor [left_result_itr_] is 0, as
    line 136 asserts. *)
Theorem Old_DExecute_assertions_hold (predicate_ : option AbstractExpression)
    (join_type_ : JoinType) (left right : Executor) (s : State) :
  old_reachable predicate_ join_type_ left right s →
  assert_103 s ∧ assert_136 s.
Proof.
  intros Hreach.
  destruct (old_reachable_inv predicate_ join_type_ left right s Hreach)
    as ((_ & _ & _ & _ & _ & Hff & _) & Hright).
  assert (H103 : assert_103 s).
  { intros Hld Hrd. destruct Hright as [->|[Hrd'|Hne]]; [done|congruence|done]. }
  split; [exact H103|].
  intros Hnd Hpull Hguard.
  destruct (pick_left_cases s)
    as [[Hld Hp]|[(Hld & t & c & _ & Hp)|(Hld & c & _ & Hp)]];
    rewrite Hp in *; state_simpl.
  - case_decide as Hlen; [done|].
    rewrite bool_decide_eq_false_2 in Hpull by done.
    destruct Hpull as [?|Hnil]; [done|].
    rewrite Hld in Hnd. simpl in Hnd. by destruct (H103 Hld Hnd).
  - destruct Hpull as [?|Hnil]; [done|].
    rewrite Hnil in Hguard. rewrite bool_decide_eq_true_2 in Hguard by done.
    rewrite andb_true_r in Hguard.
    destruct (Hff Hld Hguard) as [[-> _]|(_ & Hnr & _)]; [done|].
    by rewrite Hnil in Hnr.
  - done.
Qed.

(** The state after the first iteration on the left-outer scenario. *)
Lemma Old_DExecute_assertions_hold_witness :
  let s := outcome_state
             (Old_iteration (Some eq_predicate) JOIN_TYPE_LEFT
                            left_outer_state) in
  assert_103 s ∧ assert_136 s.
Proof.
  intros s.
  apply (Old_DExecute_assertions_hold (Some eq_predicate) JOIN_TYPE_LEFT
           (seq_scan [[key_row 1; key_row 2]]) (seq_scan [[key_row 1]]) s).
  apply old_reach_next, old_reach_init.
Defined.

(** ** An assertion of the probe loop does not hold *)

(** X22: the assertion of line 307 fails for every left tile but the
    first.  In a state of [DExecute] with neither child found exhausted, a
    left tile buffered already, and as right child an index scan on the
    column of the predicate's left operand, let the left child return a
    further tile with a visible row.  That tile is picked with
    [left_result_itr_] at its index, which is not 0, and the probe of its
    first row passes the two returns of lines 296 and 304 and goes on to the
    pull loop of line 310, through [PL_ASSERT(left_result_itr_ == 0)], in a
    state in which that condition is false. *)
Theorem DExecute_later_left_tile_fails_assertion (p : AbstractExpression)
    (tuple_idx : nat) (col : oid_t) (join_type_ : JoinType) (s : State)
    (lt : LogicalTile) (c0 : Executor) (lrow : oid_t) (rows : list oid_t) :
  GetLeft p = Some (TupleValueExpression tuple_idx col) →
  plan_node_type (children1 s) = PLAN_NODE_TYPE_INDEXSCAN →
  key_column (children1 s) = col →
  left_child_done_ s = false →
  right_child_done_ s = false →
  left_result_tiles_ s ≠ [] →
  Execute (children0 s) = (Some lt, c0) →
  tile_iter lt = lrow :: rows →
  let s1 := (pick_left s).1 in
  let s2 := set_children1
              (ReplaceKeyValue col (GetValue lt lrow col) (children1 s1)).2
              s1 in
  left_result_tiles_ s1 !! left_result_itr_ s1 = Some lt
  ∧ probe_row (Some p) join_type_ lt lrow s1 = lookup_right join_type_ s2
  ∧ left_result_itr_ s2 = length (left_result_tiles_ s)
  ∧ ¬ assert_307 s2.
Proof.
  intros Hp Hty Hcol Hld Hrd Hne Hex Hrows s1 s2.
  destruct (pick_left_cases s)
    as [[Hld' _]|[(_ & t & c & Hex' & Hpick)|(_ & c & Hex' & _)]];
    [congruence| |congruence].
  rewrite Hex in Hex'. injection Hex' as <- <-.
  assert (Hs1 : s1 = set_left_result_itr (length (left_result_tiles_ s))
                       (BufferLeftTile lt (set_children0 c0 s))).
  { unfold s1. by rewrite Hpick. }
  assert (Hitr : left_result_itr_ s2 = length (left_result_tiles_ s)).
  { unfold s2. rewrite Hs1. done. }
  split; [|split; [|split]].
  - rewrite Hs1. state_simpl. by apply list_lookup_middle.
  - assert (Hacc : (ReplaceKeyValue col (GetValue lt lrow col)
                                    (children1 s1)).1 = true).
    { unfold ReplaceKeyValue. rewrite decide_True; [done|]. by rewrite Hs1. }
    assert (Hrd2 : right_child_done_ s2 = false).
    { unfold s2. rewrite Hs1. done. }
    unfold probe_row. rewrite Hp. unfold push_key.
    rewrite decide_True by (by rewrite Hs1).
    subst s2.
    destruct (ReplaceKeyValue col (GetValue lt lrow col) (children1 s1))
      as [b c']. cbn [fst snd] in *. subst b. state_simpl.
    by rewrite Hrd2.
  - exact Hitr.
  - unfold assert_307. rewrite Hitr. by destruct (left_result_tiles_ s).
Qed.

(** After the first call on a left input of two tiles, the second tile is
    probed with [left_result_itr_] at 1. *)
Lemma DExecute_later_left_tile_fails_assertion_witness :
  let s := outcome_state
             (DExecute (Some eq_predicate) JOIN_TYPE_INNER 1
                (init_state (seq_scan [[key_row 5]; [key_row 7]])
                            index_579)) in
  let s1 := (pick_left s).1 in
  let s2 := set_children1
              (ReplaceKeyValue 0 (GetValue [key_row 7] 0 0) (children1 s1)).2
              s1 in
  left_result_itr_ s2 = 1 ∧ ¬ assert_307 s2.
Proof.
  intros s s1 s2.
  destruct (DExecute_later_left_tile_fails_assertion eq_predicate 0 0
              JOIN_TYPE_INNER s [key_row 7]
              (Execute (children0 s)).2 0 [])
    as (_ & _ & Hitr & Hno); [reflexivity..| | | |].
  - vm_compute. discriminate.
  - vm_compute. reflexivity.
  - vm_compute. reflexivity.
  - split; [exact Hitr|exact Hno].
Defined.
